(** * tinyclaw swarm: batch splitter, worker pool and reducer

    A shallow embedding of [src/swarm/types.ts], [src/swarm/batch-splitter.ts],
    the worker pool ([renderBatchPrompt], [processAllBatches] and its
    [Semaphore]) and [src/swarm/reducer.ts], followed by the properties of
    the specification that are stated about them and by further properties
    of the same functions.  The shell, the file system and [JSON.parse] are
    parameters of the input resolution, as the worker is of the pool and of
    the reducer.

    Conventions of the embedding.
    - A JavaScript string is a [string]; every character stands for one
      UTF-16 code unit in the range 0..255, so [String.length] is the
      [.length] of the source.
    - Numbers are integers: what the code only ever counts up from zero
      (positions, indices, attempts, the two counters) is a [nat]; what it
      subtracts from or adds a configured step to (the loop variables, the
      slots in use of the semaphore, the batch size) is a [Z].  The
      configured concurrency is a number of workers, a [nat], and as in the
      source an absent value and 0 stand for the default.
    - An [async] function is a function into an explicit result type; the
      event loop of the worker pool is a step function on a pool state that
      is driven by a schedule. *)

From stdpp Require Import base option list strings gmap.
From Stdlib Require Import Ascii ZArith QArith DecimalString Lia.

Local Open Scope Z_scope.

(* ===================================================================== *)
(** * types.ts *)
(* ===================================================================== *)

Module SWARM_DEFAULTS.
Definition concurrency : Z := 5.
Definition batch_size : Z := 25.
Definition progress_interval : Z := 10.
Definition max_retries : nat := 2.
Definition max_items : Z := 10000.
Definition hierarchical_reduce_fanin : nat := 20.
End SWARM_DEFAULTS.

(** [status: 'pending' | 'processing' | 'completed' | 'failed'] *)
Module Status.
Inductive t := pending | processing | completed | failed.
End Status.

Module SwarmBatch.
Record t := mk {
  index : nat;
  items : list string;
  status : Status.t;
  result : option string;
  error : option string;
  startTime : option Z;
  endTime : option Z;
  retries : nat
}.
End SwarmBatch.

Module BatchResult.
Record t := mk {
  batchIndex : nat;
  success : bool;
  result : option string;
  error : option string;
  duration : Z
}.
End BatchResult.

(* ===================================================================== *)
(** * batch-splitter.ts: [splitIntoBatches] *)
(* ===================================================================== *)

(** [Array.prototype.slice(start, end)] with both arguments given: a
    negative argument counts from the end, and both are clamped to the
    array. *)
Definition js_slice {A} (l : list A) (start stop : Z) : list A :=
  let len := Z.of_nat (length l) in
  let k := if start <? 0 then Z.max (len + start) 0 else Z.min start len in
  let final := if stop <? 0 then Z.max (len + stop) 0 else Z.min stop len in
  take (Z.to_nat (final - k)) (drop (Z.to_nat k) l).

(** The [for (let i = 0; i < items.length; i += size)] loop.  [batches] is
    the array built so far; the loop leaves with [None] only when [fuel]
    iterations were not enough. *)
Fixpoint splitLoop (fuel : nat) (items : list string) (size i : Z)
    (batches : list SwarmBatch.t) : option (list SwarmBatch.t) :=
  if i <? Z.of_nat (length items) then
    match fuel with
    | O => None
    | S fuel' =>
        splitLoop fuel' items size (i + size)
          (batches ++ [SwarmBatch.mk (length batches)
                         (js_slice items i (i + size))
                         Status.pending None None None None 0%nat])
    end
  else Some batches.

(** [const size = batchSize || SWARM_DEFAULTS.batch_size]: zero is falsy. *)
Definition splitIntoBatches (fuel : nat) (items : list string) (batchSize : Z)
    : option (list SwarmBatch.t) :=
  let size := if batchSize =? 0 then SWARM_DEFAULTS.batch_size else batchSize in
  splitLoop fuel items size 0 [].

(* ===================================================================== *)
(** * The regular expressions of batch-splitter.ts *)
(* ===================================================================== *)

(** The five regular expressions of [resolveTemplateParams] only quantify
    over character classes, so a regular expression is a sequence of atoms.
    Matching is the backtracking search of the JavaScript engine: a greedy
    quantifier first takes all it can and gives characters back one by
    one. *)
Module Regex.
Inductive atom :=
| Chr (p : ascii → bool)              (* one character of a class *)
| Rep (p : ascii → bool) (min : nat)  (* [p{min,}], greedy *)
| Opt (p : ascii → bool)              (* [p?], greedy *)
| WordB                               (* [\b] *)
| Mark.                               (* a parenthesis of a capture group *)

Definition t := list atom.

Definition code (c : ascii) : nat := nat_of_ascii c.
Definition between (lo hi : nat) (c : ascii) : bool :=
  (lo <=? code c)%nat && (code c <=? hi)%nat.
Definition chr (x : ascii) (c : ascii) : bool := Ascii.eqb c x.

(** [\d], [\w] and [\s]; of the white space of JavaScript the code units
    below 256 are TAB, LF, VT, FF, CR, space and NBSP. *)
Definition digit (c : ascii) : bool := between 48 57 c.
Definition word (c : ascii) : bool :=
  between 97 122 c || between 65 90 c || digit c || chr "_" c.
Definition space (c : ascii) : bool :=
  between 9 13 c || chr " " c || (code c =? 160)%nat.

(** Number of leading characters of [s] in the class [p]. *)
Fixpoint run (p : ascii → bool) (s : list ascii) : nat :=
  match s with
  | c :: s' => if p c then S (run p s') else O
  | [] => O
  end.

(** Greedy choice: the continuation [k] is tried with [n], [n-1], ...
    characters, down to [min]. *)
Fixpoint tryDown {R} (n min : nat) (k : nat → option R) : option R :=
  match k n with
  | Some r => Some r
  | None =>
      match n with
      | O => None
      | S n' => if (min <=? n')%nat then tryDown n' min k else None
      end
  end.

(** [\b] at [pos]: exactly one of the characters before and after the
    position is a word character. *)
Definition wordAt (input : list ascii) (pos : nat) : bool :=
  match input !! pos with Some c => word c | None => false end.
Definition boundary (input : list ascii) (pos : nat) : bool :=
  xorb (match pos with O => false | S q => wordAt input q end)
       (wordAt input pos).

(** Match [r] at position [pos] of [input]: the end of the match and the
    positions of the marks passed, in order. *)
Fixpoint matchAt (r : t) (input : list ascii) (pos : nat)
    : option (nat * list nat) :=
  match r with
  | [] => Some (pos, [])
  | Chr p :: r' =>
      match input !! pos with
      | Some c => if p c then matchAt r' input (S pos) else None
      | None => None
      end
  | Rep p min :: r' =>
      let n := run p (drop pos input) in
      if (min <=? n)%nat
      then tryDown n min (λ j, matchAt r' input (pos + j)%nat)
      else None
  | Opt p :: r' =>
      let taken :=
        match input !! pos with
        | Some c => if p c then matchAt r' input (S pos) else None
        | None => None
        end in
      match taken with
      | Some m => Some m
      | None => matchAt r' input pos
      end
  | WordB :: r' =>
      if boundary input pos then matchAt r' input pos else None
  | Mark :: r' =>
      match matchAt r' input pos with
      | Some (e, ms) => Some (e, pos :: ms)
      | None => None
      end
  end.

(** A match: where it starts and ends, and the marks. *)
Record result := mkResult { start : nat; stop : nat; marks : list nat }.

(** The leftmost match that starts at [pos] or at one of the [n]
    positions after it. *)
Fixpoint searchFrom (r : t) (input : list ascii) (n pos : nat) : option result :=
  match matchAt r input pos with
  | Some (e, ms) => Some (mkResult pos e ms)
  | None =>
      match n with
      | O => None
      | S n' => searchFrom r input n' (S pos)
      end
  end.

(** [regex.exec(input)] with [regex.lastIndex = lastIndex]. *)
Definition exec (r : t) (input : list ascii) (lastIndex : nat) : option result :=
  if (lastIndex <=? length input)%nat
  then searchFrom r input (length input - lastIndex) lastIndex
  else None.

Definition substring (input : list ascii) (from to : nat) : string :=
  String.string_of_list_ascii (take (to - from) (drop from input)).

(** Capture group [i] (from 1) lies between marks [2i-2] and [2i-1]. *)
Definition group (input : list ascii) (m : result) (i : nat) : string :=
  match marks m !! (2 * i - 2)%nat, marks m !! (2 * i - 1)%nat with
  | Some a, Some b => substring input a b
  | _, _ => EmptyString
  end.

(** [while ((m = regex.exec(input)) !== null) acc.push(f m)] for a regular
    expression with the [g] flag: each search resumes where the last
    match ended.  [None] when [fuel] iterations were not enough. *)
Fixpoint execLoop {A} (fuel : nat) (r : t) (input : list ascii)
    (f : result → A) (lastIndex : nat) (acc : list A) : option (list A) :=
  match exec r input lastIndex with
  | None => Some acc
  | Some m =>
      match fuel with
      | O => None
      | S fuel' => execLoop fuel' r input f (stop m) (acc ++ [f m])
      end
  end.

(** [input.match(regex)] without the [g] flag. *)
Definition jsMatch (r : t) (input : string) : option result :=
  exec r (String.list_ascii_of_string input) 0.
End Regex.

(* ===================================================================== *)
(** * batch-splitter.ts: [resolveTemplateParams] *)
(* ===================================================================== *)

Module JsString.
Definition chars : string → list ascii := String.list_ascii_of_string.
Definition ofChars : list ascii → string := String.string_of_list_ascii.

(** [s.toLowerCase()] on code units below 256: A-Z and the capital
    letters of Latin-1 (all of 192..222 but the multiplication sign). *)
Definition lowerChar (c : ascii) : ascii :=
  let n := nat_of_ascii c in
  if Regex.between 65 90 c
     || (Regex.between 192 222 c && negb (n =? 215)%nat)
  then ascii_of_nat (n + 32) else c.
Definition toLowerCase (s : string) : string :=
  ofChars (lowerChar <$> chars s).

Fixpoint startsWith (pat s : list ascii) : bool :=
  match pat, s with
  | [], _ => true
  | a :: pat', b :: s' => Ascii.eqb a b && startsWith pat' s'
  | _ :: _, [] => false
  end.

(** [s.indexOf(pat)], counting from [i]. *)
Fixpoint indexOf (pat s : list ascii) (i : nat) : option nat :=
  if startsWith pat s then Some i
  else match s with
       | [] => None
       | _ :: s' => indexOf pat s' (S i)
       end.

(** The replacement text of [String.prototype.replace] for a string
    pattern: [$$] is a dollar sign, [$&] the matched text, [$`] the text
    before the match and [$'] the text after it; with no capture groups
    every other [$] stands for itself. *)
Fixpoint getSubstitution (matched before after repl : list ascii) : list ascii :=
  match repl with
  | [] => []
  | c :: r =>
      if Ascii.eqb c "$" then
        match r with
        | d :: r' =>
            if Ascii.eqb d "$" then "$"%char :: getSubstitution matched before after r'
            else if Ascii.eqb d "&" then matched ++ getSubstitution matched before after r'
            else if Ascii.eqb d "`" then before ++ getSubstitution matched before after r'
            else if Ascii.eqb d "'" then after ++ getSubstitution matched before after r'
            else c :: getSubstitution matched before after r
        | [] => [c]
        end
      else c :: getSubstitution matched before after r
  end.

(** [s.replace(pat, repl)] with a string pattern: the first occurrence
    only. *)
Definition replace (s pat repl : string) : string :=
  let cs := chars s in
  let ps := chars pat in
  match indexOf ps cs 0 with
  | None => s
  | Some i =>
      let before := take i cs in
      let after := drop (i + length ps) cs in
      ofChars (before ++ getSubstitution ps before after (chars repl) ++ after)
  end.
End JsString.

Module Resolver.
Import Regex.

Definition quote (c : ascii) : bool := chr "034" c || chr "'" c.
Definition valueChar (c : ascii) : bool := negb (space c || quote c).
Definition repoChar (c : ascii) : bool := word c || chr "." c || chr "-" c.
Definition notBacktick (c : ascii) : bool := negb (chr "`" c).

(** [/\{\{(\w+)\}\}/g] *)
Definition paramRegex : Regex.t :=
  [Chr (chr "{"); Chr (chr "{"); Mark; Rep word 1; Mark;
   Chr (chr "}"); Chr (chr "}")].
(** [/(\w+)\s*=\s*[Q']?([^\sQ']+)[Q']?/g], with the double quote
    character written Q here. *)
Definition kvRegex : Regex.t :=
  [Mark; Rep word 1; Mark; Rep space 0; Chr (chr "="); Rep space 0;
   Opt quote; Mark; Rep valueChar 1; Mark; Opt quote].
(** [/\b([\w.-]+\/[\w.-]+)\b/] *)
Definition repoRegex : Regex.t :=
  [WordB; Mark; Rep repoChar 1; Chr (chr "/"); Rep repoChar 1; Mark; WordB].
(** [/\b(\d{2,})\b/] *)
Definition numRegex : Regex.t :=
  [WordB; Mark; Rep digit 2; Mark; WordB].
(** [/`([^`]+)`/] *)
Definition backtickRegex : Regex.t :=
  [Chr (chr "`"); Mark; Rep notBacktick 1; Mark; Chr (chr "`")].

(** The first loop: the names of the [{{name}}] occurrences, in order. *)
Definition extractParams (fuel : nat) (template : string) : option (list string) :=
  let input := JsString.chars template in
  execLoop fuel paramRegex input (λ m, group input m 1) 0%nat [].

(** The second loop: [kvMap[kvMatch[1].toLowerCase()] = kvMatch[2]], a
    later pair replacing an earlier one with the same key. *)
Definition extractKv (fuel : nat) (userMessage : string)
    : option (gmap string string) :=
  let input := JsString.chars userMessage in
  pairs ← execLoop fuel kvRegex input (λ m, (group input m 1, group input m 2)) 0%nat [];
  Some (foldl (λ (kvMap : gmap string string) kv,
                 <[JsString.toLowerCase kv.1 := kv.2]> kvMap) ∅ pairs).

(** [if (kvMap[key])]: a missing key and the empty string are falsy. *)
Definition truthy (v : option string) : option string :=
  match v with
  | Some s => if decide (s = EmptyString) then None else Some s
  | None => None
  end.

(** The text [`{{${param}}}`]. *)
Definition placeholder (param : string) : string := "{{" +:+ param +:+ "}}".

(** One iteration of [for (const param of params)] either goes on with
    the next parameter ([continue], or the end of the body) or leaves
    the function with a value. *)
Inductive flow := Continue (resolved : string) | Return (value : string).

Definition paramStep (kvMap : gmap string string) (userMessage param resolved : string)
    : flow :=
  match truthy (kvMap !! JsString.toLowerCase param) with
  | Some v => Continue (JsString.replace resolved (placeholder param) v)
  | None =>
      let input := JsString.chars userMessage in
      let backtickStep :=
        match jsMatch backtickRegex userMessage with
        | Some m => Return (group input m 1)
        | None => Continue resolved
        end in
      let limitStep :=
        if decide (param = "limit") then
          match jsMatch numRegex userMessage with
          | Some m => Continue (JsString.replace resolved (placeholder param) (group input m 1))
          | None => backtickStep
          end
        else backtickStep in
      if decide (param = "repo") then
        match jsMatch repoRegex userMessage with
        | Some m => Continue (JsString.replace resolved (placeholder param) (group input m 1))
        | None => limitStep
        end
      else limitStep
  end.

Fixpoint paramLoop (kvMap : gmap string string) (userMessage : string)
    (params : list string) (resolved : string) : string :=
  match params with
  | [] => resolved
  | param :: rest =>
      match paramStep kvMap userMessage param resolved with
      | Continue resolved' => paramLoop kvMap userMessage rest resolved'
      | Return value => value
      end
  end.

(** [None] only when one of the two [while] loops needs more than [fuel]
    iterations. *)
Definition resolveTemplateParams (fuel : nat) (template userMessage : string)
    : option string :=
  params ← extractParams fuel template;
  match params with
  | [] => Some template
  | _ :: _ =>
      kvMap ← extractKv fuel userMessage;
      Some (paramLoop kvMap userMessage params template)
  end.
End Resolver.

(** Modelled from the spec: how a call of [invokeAgent] settles. The
    function ([lib/invoke]) is not among the sources; the pool and the
    reducer take it as a parameter, and by its interface it returns a
    string, or fails by rejecting with an error that carries a message. *)
Inductive outcome := Resolved (value : string) | Rejected (message : string).

(* ===================================================================== *)
(** * The worker pool: [Semaphore] *)
(* ===================================================================== *)

(** The queue of the source holds the [resolve] functions of the suspended
    [acquire] calls; here each is named by the position of the batch whose
    task made the call. *)
Module Semaphore.
Record t := mk { queue : list nat; current : Z; max : Z }.

Definition new (max : Z) : t := mk [] 0 max.

(** [acquire()]: the flag tells whether the returned promise is already
    resolved. *)
Definition acquire (s : t) (who : nat) : t * bool :=
  if current s <? max s
  then (mk (queue s) (current s + 1) (max s), true)
  else (mk (queue s ++ [who]) (current s) (max s), false).

(** [release()]: also returns the waiter whose promise it resolved. *)
Definition release (s : t) : t * option nat :=
  let current' := current s - 1 in
  match queue s with
  | [] => (mk [] current' (max s), None)
  | next :: rest => (mk rest (current' + 1) (max s), Some next)
  end.
End Semaphore.

(* ===================================================================== *)
(** * The worker pool: [processAllBatches] *)
(* ===================================================================== *)

(** Every batch is served by one [async] task, named by the position of the
    batch in the array.  A task runs from one [await] to the next without
    interruption; the pool state records where each task is suspended, and
    [resume] runs one task to its next suspension point.  Which task is
    resumed next, and what [Date.now()] reads then, is the environment's
    choice: a schedule.  The prompt passed to the worker is a function of
    the batch and the options only, so the external worker is given by what
    its call for a batch position and attempt number settles with; a call
    that never settles is a task that is never resumed again.  Logging and
    telemetry do not act on the pool and are left out. *)
Module Pool.
Definition Worker := nat → nat → outcome.

(** [{ completed, total, failed }] *)
Record progress := mkProgress { p_completed : nat; p_total : nat; p_failed : nat }.

(** [onBatchComplete]: [true] when the call throws. *)
Definition Callback := BatchResult.t → progress → bool.

Record WorkerPoolOptions := mkOptions {
  concurrency : option nat;            (* [options.config.concurrency] *)
  onBatchComplete : option Callback
}.

(** Where the task of a batch stands; the constructors carry the local
    variables that live across the [await]. *)
Inductive task :=
| Queued     (* in [await semaphore.acquire()], waiting in the queue *)
| Granted    (* the promise of [acquire] is resolved, the task not yet resumed *)
| Invoking (attempt : nat) (startTime : Z) (lastError : option string)
             (* in [await invokeAgent(...)] *)
| Sleeping (attempt : nat) (startTime : Z) (lastError : option string)
             (* in the backoff [await] before attempt [attempt] *)
| Finished   (* the task returned *)
| Threw.     (* the task ended by an exception *)

(** What the pool asks of its environment. *)
Inductive effect :=
| Invoke (pos attempt : nat)   (* [invokeAgent(...)] for the batch at [pos] *)
| Sleep (pos : nat) (ms : Z).  (* [setTimeout(r, ms)] *)

Definition effectPos (e : effect) : nat :=
  match e with Invoke pos _ => pos | Sleep pos _ => pos end.

Record t := mk {
  batches : list SwarmBatch.t;
  semaphore : Semaphore.t;
  results : list (option BatchResult.t);   (* [None]: a hole of the array *)
  completed : nat;
  failed : nat;
  tasks : list task;
  trace : list effect
}.

(** [a[i] = v] on a JavaScript array: writing past the end extends the
    array with holes. *)
Definition arraySet {A} (a : list (option A)) (i : nat) (v : A) : list (option A) :=
  if decide (i < length a)%nat then <[i := Some v]> a
  else a ++ replicate (i - length a)%nat None ++ [Some v].

(** The tail of the task from [const endTime = Date.now()] to its end;
    [b] is the batch record as the task left it. *)
Definition finishBatch (opts : WorkerPoolOptions) (p : t) (pos : nat)
    (b : SwarmBatch.t) (now startTime : Z)
    (success : bool) (result lastError : option string) : t :=
  let batchResult :=
    BatchResult.mk (SwarmBatch.index b) success
      (if success then result else None)
      (if success then None else lastError)
      (now - startTime) in
  let b' :=
    if success
    then SwarmBatch.mk (SwarmBatch.index b) (SwarmBatch.items b) Status.completed
           result (SwarmBatch.error b)
           (SwarmBatch.startTime b) (Some now) (SwarmBatch.retries b)
    else SwarmBatch.mk (SwarmBatch.index b) (SwarmBatch.items b) Status.failed
           (SwarmBatch.result b) lastError
           (SwarmBatch.startTime b) (Some now) (SwarmBatch.retries b) in
  let completed' := if success then S (completed p) else completed p in
  let failed' := if success then failed p else S (failed p) in
  let results' := arraySet (results p) (SwarmBatch.index b) batchResult in
  let threw :=
    match onBatchComplete opts with
    | Some callback =>
        callback batchResult (mkProgress completed' (length (batches p)) failed')
    | None => false
    end in
  if threw then
    mk (<[pos := b']> (batches p)) (semaphore p) results' completed' failed'
       (<[pos := Threw]> (tasks p)) (trace p)
  else
    let '(sem', woken) := Semaphore.release (semaphore p) in
    let tasks' := <[pos := Finished]> (tasks p) in
    mk (<[pos := b']> (batches p)) sem' results' completed' failed'
       (match woken with Some next => <[next := Granted]> tasks' | None => tasks' end)
       (trace p).

(** The call of [invokeAgent] and the suspension on its promise. *)
Definition callWorker (p : t) (pos : nat) (b : SwarmBatch.t)
    (attempt : nat) (startTime : Z) (lastError : option string) : t :=
  mk (<[pos := b]> (batches p)) (semaphore p) (results p) (completed p) (failed p)
     (<[pos := Invoking attempt startTime lastError]> (tasks p))
     (trace p ++ [Invoke pos attempt]).

(** The head of [for (let attempt = 0; attempt <= maxRetries; attempt++)]
    entered with the given [attempt], up to the next suspension. *)
Definition enterAttempt (opts : WorkerPoolOptions) (p : t) (pos : nat)
    (b : SwarmBatch.t) (attempt : nat) (now startTime : Z)
    (lastError : option string) : t :=
  if (attempt <=? SWARM_DEFAULTS.max_retries)%nat then
    if (0 <? attempt)%nat then
      mk (<[pos := b]> (batches p)) (semaphore p) (results p) (completed p) (failed p)
         (<[pos := Sleeping attempt startTime lastError]> (tasks p))
         (trace p ++ [Sleep pos (2000 * 2 ^ Z.of_nat (attempt - 1))])
    else callWorker p pos b attempt startTime lastError
  else finishBatch opts p pos b now startTime false None lastError.

(** Resume the task of the batch at [pos] while [Date.now()] reads [now];
    [None] when that task is not waiting for anything that can happen. *)
Definition resume (worker : Worker) (opts : WorkerPoolOptions)
    (p : t) (pos : nat) (now : Z) : option t :=
  b ← batches p !! pos;
  tk ← tasks p !! pos;
  match tk with
  | Granted =>
      let b' := SwarmBatch.mk (SwarmBatch.index b) (SwarmBatch.items b) Status.processing
                  (SwarmBatch.result b) (SwarmBatch.error b)
                  (Some now) (SwarmBatch.endTime b) (SwarmBatch.retries b) in
      Some (enterAttempt opts p pos b' 0 now now None)
  | Sleeping attempt startTime lastError =>
      Some (callWorker p pos b attempt startTime lastError)
  | Invoking attempt startTime lastError =>
      match worker pos attempt with
      | Resolved value =>
          Some (finishBatch opts p pos b now startTime true (Some value) lastError)
      | Rejected message =>
          let b' := SwarmBatch.mk (SwarmBatch.index b) (SwarmBatch.items b)
                      (SwarmBatch.status b) (SwarmBatch.result b) (SwarmBatch.error b)
                      (SwarmBatch.startTime b) (SwarmBatch.endTime b) (attempt + 1) in
          Some (enterAttempt opts p pos b' (attempt + 1) now startTime (Some message))
      end
  | Queued | Finished | Threw => None
  end.

(** The synchronous start of the task for the batch at [pos], run by
    [batches.map]: the call of [acquire]. *)
Definition spawn (p : t) (pos : nat) : t :=
  let '(sem', granted) := Semaphore.acquire (semaphore p) pos in
  mk (batches p) sem' (results p) (completed p) (failed p)
     (tasks p ++ [if granted then Granted else Queued]) (trace p).

(** [options.config.concurrency || SWARM_DEFAULTS.concurrency] *)
Definition concurrencyOf (opts : WorkerPoolOptions) : Z :=
  match concurrency opts with
  | Some (S c) => Z.of_nat (S c)
  | Some O | None => SWARM_DEFAULTS.concurrency
  end.

(** The pool when [processAllBatches] reaches [await Promise.all]. *)
Definition start (bs : list SwarmBatch.t) (opts : WorkerPoolOptions) : t :=
  foldl spawn
    (mk bs (Semaphore.new (concurrencyOf opts)) (replicate (length bs) None)
        O O [] [])
    (seq 0 (length bs)).

Definition step (worker : Worker) (opts : WorkerPoolOptions) (p p' : t) : Prop :=
  ∃ pos now, resume worker opts p pos now = Some p'.

(** The states of the pool in the runs of [processAllBatches bs opts]. *)
Definition reachable (worker : Worker) (opts : WorkerPoolOptions)
    (bs : list SwarmBatch.t) (p : t) : Prop :=
  rtc (step worker opts) (start bs opts) p.

(** The same runs, driven by an explicit schedule. *)
Fixpoint run (worker : Worker) (opts : WorkerPoolOptions) (p : t)
    (schedule : list (nat * Z)) : option t :=
  match schedule with
  | [] => Some p
  | (pos, now) :: rest =>
      p' ← resume worker opts p pos now;
      run worker opts p' rest
  end.

(** How the call [processAllBatches(batches, options)] stands.
    [Promise.all] rejects with the first task that throws, and the
    [await] rethrows; it is fulfilled when every task has returned, and
    the function then returns [results]. *)
Inductive call := Running | Returned (results : list (option BatchResult.t)) | Failed.

Definition isThrew (tk : task) : bool := match tk with Threw => true | _ => false end.
Definition isFinished (tk : task) : bool := match tk with Finished => true | _ => false end.

Definition poolCall (p : t) : call :=
  if existsb isThrew (tasks p) then Failed
  else if forallb isFinished (tasks p) then Returned (results p)
  else Running.

(** A task between [acquire] and [release]. *)
Definition holdsSlot (tk : task) : bool :=
  match tk with
  | Granted | Invoking _ _ _ | Sleeping _ _ _ | Threw => true
  | Queued | Finished => false
  end.
Definition inFlight (p : t) : nat := length (filter (λ tk, holdsSlot tk = true) (tasks p)).

Definition terminal (st : Status.t) : bool :=
  match st with
  | Status.completed | Status.failed => true
  | Status.pending | Status.processing => false
  end.
End Pool.

(* ===================================================================== *)
(** * reducer.ts *)
(* ===================================================================== *)

Module Reducer.
Definition nl : string := String "010" EmptyString.

(** [`${n}`] for a count. *)
Definition str (n : nat) : string := NilEmpty.string_of_uint (Nat.to_uint n).

Inductive Strategy := concatenate | summarize | hierarchical.

Record ReduceOptions := mkOptions {
  strategy : option Strategy;     (* [options.config.reduce?.strategy] *)
  prompt : option string;         (* [options.config.reduce?.prompt] *)
  userMessage : string
}.

(** [reduceConcatenate] *)
Definition reduceConcatenate (batchResults : list string) : string :=
  match batchResults with
  | [only] => only
  | _ =>
      String.concat (nl +:+ nl +:+ "---" +:+ nl +:+ nl)
        (imap (λ i result,
                 "## Batch " +:+ str (i + 1) +:+ " of " +:+ str (length batchResults)
                 +:+ nl +:+ nl +:+ result)
              batchResults)
  end.

Definition defaultInstruction : string :=
  "Please synthesize and consolidate these results into a clear, organized summary. Highlight key findings, patterns, and any items that need attention. Remove redundancy while preserving important details.".

Definition topLevelContext (batchCount : nat) : string :=
  "The following are results from processing " +:+ str batchCount
  +:+ " batch(es) of a large-scale task.".

Definition groupContext (batchCount level groupIndex totalGroups : nat) : string :=
  "The following are results from group " +:+ str (groupIndex + 1) +:+ " of "
  +:+ str totalGroups +:+ " (reduction level " +:+ str (level + 1)
  +:+ "), containing " +:+ str batchCount +:+ " batch results.".

(** [buildReducePrompt]; an absent or empty custom prompt is falsy. *)
Definition buildReducePrompt (combinedResults : string) (batchCount : nat)
    (options : ReduceOptions) (level groupIndex totalGroups : option nat) : string :=
  let userReducePrompt := prompt options in
  let contextLine :=
    match level, groupIndex, totalGroups with
    | Some l, Some g, Some t => groupContext batchCount l g t
    | _, _, _ => topLevelContext batchCount
    end in
  let instruction :=
    match Resolver.truthy userReducePrompt with
    | Some custom => custom +:+ nl +:+ nl +:+ contextLine
    | None => contextLine +:+ nl +:+ nl +:+ defaultInstruction
    end in
  let originalTask := "Original task: " +:+ userMessage options in
  instruction +:+ nl +:+ nl +:+ originalTask +:+ nl +:+ nl +:+ "---" +:+ nl +:+ nl
  +:+ combinedResults.

(** [combined.length / 4 > 150000], a division of floating point numbers
    that is exact at these sizes. *)
Definition estimatedTokens (combined : string) : Q :=
  inject_Z (Z.of_nat (String.length combined)) / 4.
Definition tooLarge (combined : string) : bool :=
  negb (Qle_bool (estimatedTokens combined) 150000).

(** The [for (let i = 0; i < batchResults.length; i += fanin)] loop of
    [reduceHierarchical]. *)
Fixpoint groupLoop (fuel : nat) (batchResults : list string) (fanin i : Z)
    (groups : list (list string)) : option (list (list string)) :=
  if i <? Z.of_nat (length batchResults) then
    match fuel with
    | O => None
    | S fuel' =>
        groupLoop fuel' batchResults fanin (i + fanin)
          (groups ++ [js_slice batchResults i (i + fanin)])
    end
  else Some groups.

(** How an [async] function of the reducer ends. *)
Inductive settled (A : Type) := Fulfilled (value : A) | Threw (message : string).
Arguments Fulfilled {A} value.
Arguments Threw {A} message.

Section with_worker.
(** The reduction worker: a machine with a state of its own, asked one
    prompt at a time.  The agent that [options] selects is part of
    it. *)
Context {W : Type}.
Variable invokeAgent : W → string → outcome * W.

(** The worker, and the prompts it was asked so far. *)
Record world := mkWorld { worker : W; asked : list string }.

(** An [async] computation: from a world to how it ends and the world
    then, or [None] when it runs out of fuel. *)
Definition async (A : Type) : Type := world → option (settled A * world).

Definition ret {A} (a : A) : async A := λ w, Some (Fulfilled a, w).

Definition bind {A B} (m : async A) (k : A → async B) : async B :=
  λ w,
    match m w with
    | Some (Fulfilled a, w') => k a w'
    | Some (Threw e, w') => Some (Threw e, w')
    | None => None
    end.

(** [try { return await m } catch (error) { return handler }] *)
Definition tryCatch {A} (m : async A) (handler : string → async A) : async A :=
  λ w,
    match m w with
    | Some (Fulfilled a, w') => Some (Fulfilled a, w')
    | Some (Threw e, w') => handler e w'
    | None => None
    end.

(** [await invokeAgent(agent, id, prompt, path, true, agents, teams)] *)
Definition invoke (prompt : string) : async string :=
  λ w,
    let '(o, worker') := invokeAgent (worker w) prompt in
    Some (match o with
          | Resolved value => Fulfilled value
          | Rejected message => Threw message
          end,
          mkWorld worker' (asked w ++ [prompt])).

(** [await Promise.all(xs.map(f))], the calls made in the order of the
    array. *)
Fixpoint promiseAll {A B} (f : nat → A → async B) (i : nat) (xs : list A)
    : async (list B) :=
  match xs with
  | [] => ret []
  | x :: xs' =>
      bind (f i x) (λ y, bind (promiseAll f (S i) xs') (λ ys, ret (y :: ys)))
  end.

(** The body of [groups.map(async (group, groupIndex) => ...)]. *)
Definition reduceGroup (options : ReduceOptions) (level totalGroups : nat)
    (groupIndex : nat) (group : list string) : async string :=
  let combined := reduceConcatenate group in
  let prompt :=
    buildReducePrompt combined (length group) options
      (Some level) (Some groupIndex) (Some totalGroups) in
  tryCatch (invoke prompt) (λ _, ret combined).

(** [reduceSummarize] and [reduceHierarchical]; every call of one of
    the two costs one unit of fuel. *)
Fixpoint reduceSummarize (fuel : nat) (batchResults : list string)
    (options : ReduceOptions) {struct fuel} : async string :=
  match fuel with
  | O => λ _, None
  | S fuel' =>
      let combined := reduceConcatenate batchResults in
      if tooLarge combined then
        reduceHierarchical fuel' batchResults options 0
      else
        let reducePrompt :=
          buildReducePrompt combined (length batchResults) options None None None in
        tryCatch (invoke reducePrompt) (λ _, ret (reduceConcatenate batchResults))
  end
with reduceHierarchical (fuel : nat) (batchResults : list string)
    (options : ReduceOptions) (level : nat) {struct fuel} : async string :=
  match fuel with
  | O => λ _, None
  | S fuel' =>
      let fanin := SWARM_DEFAULTS.hierarchical_reduce_fanin in
      if (length batchResults <=? fanin)%nat then
        reduceSummarize fuel' batchResults options
      else
        match groupLoop (length batchResults) batchResults (Z.of_nat fanin) 0 [] with
        | None => λ _, None
        | Some groups =>
            bind (promiseAll (reduceGroup options level (length groups)) 0 groups)
              (λ groupSummaries,
                 if (fanin <? length groupSummaries)%nat then
                   reduceHierarchical fuel' groupSummaries options (level + 1)
                 else
                   reduceSummarize fuel' groupSummaries options)
        end
  end.

(** [reduceBatchResults] *)
Definition reduceBatchResults (fuel : nat) (batchResults : list string)
    (options : ReduceOptions) : async string :=
  match strategy options with
  | Some summarize => reduceSummarize fuel batchResults options
  | Some hierarchical => reduceHierarchical fuel batchResults options 0
  | Some concatenate | None => ret (reduceConcatenate batchResults)
  end.
End with_worker.
End Reducer.

(* ===================================================================== *)
(** * batch-splitter.ts: [parseItems], [extractInlineItems], [resolveInputItems] *)
(* ===================================================================== *)

(** The string methods of these functions, on lists of code units. *)
Module Lines.
(** [s.split(sep)] for a one-character separator: the pieces between the
    separators, one more than there are separators. *)
Fixpoint split (sep : ascii) (s : list ascii) : list (list ascii) :=
  match s with
  | [] => [[]]
  | c :: s' =>
      if Ascii.eqb c sep then [] :: split sep s'
      else match split sep s' with
           | piece :: pieces => (c :: piece) :: pieces
           | [] => [[c]]
           end
  end.

Fixpoint dropSpace (s : list ascii) : list ascii :=
  match s with
  | c :: s' => if Regex.space c then dropSpace s' else s
  | [] => []
  end.

(** [s.trim()]: white space and line ends are one set, that of [\s]. *)
Definition trim (s : list ascii) : list ascii :=
  reverse (dropSpace (reverse (dropSpace s))).

(** [.filter(Boolean)] on strings: the empty string is falsy. *)
Definition nonEmpty (l : list (list ascii)) : list (list ascii) :=
  filter (λ s, s ≠ []) l.

(** [raw.split('\n').map(l => l.trim()).filter(Boolean)] *)
Definition lines (raw : string) : list string :=
  JsString.ofChars <$> nonEmpty (trim <$> split "010" (JsString.chars raw)).
End Lines.

Module Input.
(** [config.input.type] *)
Inductive InputType := lines | json_array.

(** [config.input] *)
Record InputConfig := mkInput {
  command : option string;
  type : option InputType
}.

(** What [existsSync] and [readFileSync] find at a path. *)
Inductive file := Absent | Content (text : string) | Unreadable (message : string).

(** The world outside: [JSON.parse] followed by the test for an array and
    the conversion of its elements to strings ([None]: the text does not
    parse, or not to an array); the file system; and the shell, by what
    [runShellCommand] settles with. *)
Record Env := mkEnv {
  parseArray : string → option (list string);
  files : string → file;
  runShellCommand : string → outcome
}.

(** [parseItems] *)
Definition parseItems (env : Env) (raw : string) (type : InputType) : list string :=
  match type with
  | json_array =>
      match parseArray env raw with
      | Some items => items
      | None => Lines.lines raw
      end
  | lines => Lines.lines raw
  end.

(** [/\[[\s\S]*\]/] *)
Definition arrayRegex : Regex.t :=
  [Regex.Chr (Regex.chr "["); Regex.Rep (λ _, true) 0; Regex.Chr (Regex.chr "]")].

(** [extractInlineItems]; [None] is [null]. *)
Definition extractInlineItems (env : Env) (message : string) : option (list string) :=
  match Regex.jsMatch arrayRegex message with
  | Some m =>
      match parseArray env
              (Regex.substring (JsString.chars message) (Regex.start m) (Regex.stop m)) with
      | Some (item :: items) => Some (item :: items)
      | Some [] | None => None
      end
  | None => None
  end.

(** How [resolveInputItems] ends, and the commands it ran. *)
Inductive ended := Items (items : list string) | Threw (message : string).
Record run := mkRun { result : ended; commands : list string }.

(** The loop over the attached files: [Some] of the items gathered, or
    [None] with the message of the file that could not be read. *)
Fixpoint readFiles (env : Env) (type : InputType) (paths : list string)
    (allItems : list string) : list string + string :=
  match paths with
  | [] => inl allItems
  | filePath :: rest =>
      match files env filePath with
      | Absent => readFiles env type rest allItems
      | Content content =>
          readFiles env type rest (allItems ++ parseItems env content type)
      | Unreadable message => inr message
      end
  end.

(** [config.input?.type || 'lines'] *)
Definition typeOf (input : option InputConfig) : InputType :=
  match input with
  | Some i => match type i with Some t => t | None => lines end
  | None => lines
  end.

(** [runShellCommand(command)] followed by [parseItems]; a failure of the
    command is not caught. *)
Definition fromCommand (env : Env) (type : InputType) (cmd : string) : run :=
  match runShellCommand env cmd with
  | Resolved output => mkRun (Items (parseItems env output type)) [cmd]
  | Rejected message => mkRun (Threw message) [cmd]
  end.

(** Steps 3 to 5 of [resolveInputItems]. *)
Definition afterFiles (fuel : nat) (env : Env) (input : option InputConfig)
    (userMessage : string) : option run :=
  match Resolver.truthy (input ≫= command) with
  | Some cmd =>
      resolvedCommand ← Resolver.resolveTemplateParams fuel cmd userMessage;
      Some (fromCommand env (typeOf input) resolvedCommand)
  | None =>
      match Regex.jsMatch Resolver.backtickRegex userMessage with
      | Some m =>
          Some (fromCommand env (typeOf input)
                  (Regex.group (JsString.chars userMessage) m 1))
      | None =>
          let lines := Lines.lines userMessage in
          Some (mkRun (Items (if (1 <? length lines)%nat then lines else [])) [])
      end
  end.

(** [resolveInputItems]; [None] only when [resolveTemplateParams] runs out
    of fuel. *)
Definition resolveInputItems (fuel : nat) (env : Env) (input : option InputConfig)
    (userMessage : string) (attachedFiles : option (list string)) : option run :=
  match extractInlineItems env userMessage with
  | Some inlineItems => Some (mkRun (Items inlineItems) [])
  | None =>
      match attachedFiles with
      | Some (path :: paths) =>
          match readFiles env (typeOf input) (path :: paths) [] with
          | inr message => Some (mkRun (Threw message) [])
          | inl (item :: items) => Some (mkRun (Items (item :: items)) [])
          | inl [] => afterFiles fuel env input userMessage
          end
      | Some [] | None => afterFiles fuel env input userMessage
      end
  end.
End Input.

(* ===================================================================== *)
(** * The worker pool: [renderBatchPrompt] *)
(* ===================================================================== *)

(** [JSON.stringify(items, null, 2)] for an array of strings. *)
Module Json.
(** The lower-case hexadecimal digit of a number below 16. *)
Definition hexDigit (n : nat) : ascii :=
  if (n <? 10)%nat then ascii_of_nat (48 + n) else ascii_of_nat (87 + n).

(** One code unit of a quoted string: the two-character escapes of
    backspace, tab, line feed, form feed, carriage return, the double quote
    and the backslash; [\u00xx] for the other control characters; every
    other code unit below 256 as it is. *)
Definition quoteChar (c : ascii) : list ascii :=
  let n := nat_of_ascii c in
  if (n =? 8)%nat then ["\"; "b"]%char
  else if (n =? 9)%nat then ["\"; "t"]%char
  else if (n =? 10)%nat then ["\"; "n"]%char
  else if (n =? 12)%nat then ["\"; "f"]%char
  else if (n =? 13)%nat then ["\"; "r"]%char
  else if (n =? 34)%nat then ["\"; "034"]%char
  else if (n =? 92)%nat then ["\"; "\"]%char
  else if (n <? 32)%nat
       then ["\"; "u"; "0"; "0"; hexDigit (n / 16); hexDigit (n mod 16)]%char
  else [c].

Definition quote (s : string) : string :=
  JsString.ofChars ("034"%char :: flat_map quoteChar (JsString.chars s) ++ ["034"%char]).

(** With the indentation of two spaces every element is on a line of its
    own; the empty array is [[]]. *)
Definition stringify (items : list string) : string :=
  match items with
  | [] => "[]"
  | _ :: _ =>
      "[" +:+ Reducer.nl +:+ "  "
      +:+ String.concat ("," +:+ Reducer.nl +:+ "  ") (quote <$> items)
      +:+ Reducer.nl +:+ "]"
  end.
End Json.

Module Prompt.
(** The regular expression that matches the characters of [s] and nothing
    else, as [/\{\{items\}\}/] matches [{{items}}]. *)
Definition literal (s : string) : Regex.t :=
  (λ c, Regex.Chr (Regex.chr c)) <$> JsString.chars s.

(** [input.replace(regex, repl)] for a regular expression with the [g] flag
    and without capture groups.  The matches are found as by [exec], each
    search starting where the last match ended, one position further after
    an empty match; the text between the matches is kept, and each match
    gives way to the expansion of [repl].  [next] is the end of the last
    match, [acc] the output so far; [None] when [fuel] ran out. *)
Fixpoint replaceLoop (fuel : nat) (r : Regex.t) (input repl : list ascii)
    (lastIndex next : nat) (acc : list ascii) : option (list ascii) :=
  match Regex.exec r input lastIndex with
  | None => Some (acc ++ drop next input)
  | Some m =>
      match fuel with
      | O => None
      | S fuel' =>
          let position := Regex.start m in
          let matched := take (Regex.stop m - position) (drop position input) in
          let replacement :=
            JsString.getSubstitution matched (take position input)
              (drop (Regex.stop m) input) repl in
          replaceLoop fuel' r input repl
            (if (Regex.stop m =? position)%nat then S (Regex.stop m) else Regex.stop m)
            (Regex.stop m)
            (acc ++ take (position - next) (drop next input) ++ replacement)
      end
  end.

(** Every iteration moves [lastIndex] on, so one more than the length of
    the input is fuel enough. *)
Definition replaceAll (r : Regex.t) (s repl : string) : option string :=
  let input := JsString.chars s in
  JsString.ofChars
    <$> replaceLoop (S (length input)) r input (JsString.chars repl) 0 0 [].

(** [renderBatchPrompt] *)
Definition renderBatchPrompt (template : string) (batch : SwarmBatch.t)
    (totalBatches : nat) (userMessage : string) : option string :=
  s1 ← replaceAll (literal "{{items}}") template
         (String.concat Reducer.nl (SwarmBatch.items batch));
  s2 ← replaceAll (literal "{{items_json}}") s1
         (Json.stringify (SwarmBatch.items batch));
  s3 ← replaceAll (literal "{{batch_index}}") s2
         (Reducer.str (SwarmBatch.index batch));
  s4 ← replaceAll (literal "{{batch_number}}") s3
         (Reducer.str (SwarmBatch.index batch + 1));
  s5 ← replaceAll (literal "{{total_batches}}") s4 (Reducer.str totalBatches);
  s6 ← replaceAll (literal "{{batch_size}}") s5
         (Reducer.str (length (SwarmBatch.items batch)));
  replaceAll (literal "{{user_message}}") s6 userMessage.
End Prompt.

(* ===================================================================== *)
(** * The vocabulary of the properties *)
(* ===================================================================== *)

(** ** Batch splitting *)

(** [ceil (a / b)] on integers, for [b > 0]. *)
Definition ceil_div (a b : Z) : Z := (a + b - 1) / b.

(** ** The reducer *)

Import Reducer.

(** The layout the specification gives for a reduce prompt: the custom
    prompt, or else the default instruction, comes first; then the context
    sentence, the original task, the divider and the combined content, with
    any separators in between. *)
Definition instructionFirstLayout (options : ReduceOptions) (context combined : string)
    (prompt : string) : Prop :=
  let instruction :=
    match Resolver.truthy (Reducer.prompt options) with
    | Some custom => custom
    | None => defaultInstruction
    end in
  ∃ s1 s2 s3 s4 : string,
    prompt =
      instruction +:+ s1 +:+ context +:+ s2
      +:+ ("Original task: " +:+ userMessage options) +:+ s3 +:+ "---" +:+ s4
      +:+ combined.

Definition firstChar (s : string) : option ascii :=
  match s with String c _ => Some c | EmptyString => None end.

Section reducer_vocabulary.
Context {W : Type}.
Variable invokeAgent : W → string → outcome * W.
Variable options : ReduceOptions.

(** One worker call with the fallback of the [catch] clause: the text
    that stands for the inputs afterwards, and the world then. *)
Definition askOrElse (prompt fallback : string) (w : @world W) : string * world :=
  let '(o, worker') := invokeAgent (worker w) prompt in
  (match o with Resolved value => value | Rejected _ => fallback end,
   mkWorld worker' (asked w ++ [prompt])).

(** The summary of one group of the group pass. *)
Definition groupOutcome (level total i : nat) (group : list string) (w : @world W)
    : string * world :=
  askOrElse
    (buildReducePrompt (reduceConcatenate group) (length group) options
       (Some level) (Some i) (Some total))
    (reduceConcatenate group) w.

(** The group pass: one summary per group, in the order of the groups. *)
Fixpoint groupPass (level total i : nat) (groups : list (list string)) (w : @world W)
    : list string * world :=
  match groups with
  | [] => ([], w)
  | group :: rest =>
      let '(summary, w1) := groupOutcome level total i group w in
      let '(summaries, w2) := groupPass level total (S i) rest w1 in
      (summary :: summaries, w2)
  end.

End reducer_vocabulary.

(** A worker that answers every prompt with the same text. *)
Definition constantWorker (answer : string) : unit → string → outcome * unit :=
  λ _ _, (Resolved answer, tt).

(** One result of 600001 characters. *)
Definition oversized : string := N.iter 600001 (String "a") EmptyString.

(** ** The template resolver *)

Import Regex.

(** The least number of characters an atom, and a regular expression,
    consumes. *)
Definition atomMin (a : atom) : nat :=
  match a with
  | Chr _ => 1
  | Rep _ min => min
  | Opt _ | WordB | Mark => 0
  end.
Definition minLen (r : Regex.t) : nat := foldr (λ a n, atomMin a + n)%nat 0%nat r.

Import Resolver.



(** ** The worker pool *)

Import Pool.

(** A step that neither ends the task nor touches the semaphore, the
    results or the counters: the batch record and the task are replaced and
    one effect is added. *)
Definition localStep (p : Pool.t) (pos : nat) (b : SwarmBatch.t) (tk : task)
    (e : effect) : Pool.t :=
  Pool.mk (<[pos := b]> (batches p)) (semaphore p) (results p)
    (Pool.completed p) (Pool.failed p) (<[pos := tk]> (tasks p)) (trace p ++ [e]).

Definition withStatus (b : SwarmBatch.t) (st : Status.t) (startTime : option Z)
    : SwarmBatch.t :=
  SwarmBatch.mk (SwarmBatch.index b) (SwarmBatch.items b) st
    (SwarmBatch.result b) (SwarmBatch.error b) startTime
    (SwarmBatch.endTime b) (SwarmBatch.retries b).

Definition withRetries (b : SwarmBatch.t) (n : nat) : SwarmBatch.t :=
  SwarmBatch.mk (SwarmBatch.index b) (SwarmBatch.items b) (SwarmBatch.status b)
    (SwarmBatch.result b) (SwarmBatch.error b) (SwarmBatch.startTime b)
    (SwarmBatch.endTime b) n.

(** The backoff before attempt [k]. *)
Definition backoff (k : nat) : Z := 2000 * 2 ^ Z.of_nat (k - 1).

(** The five ways a task can be resumed. *)
Inductive transition (worker : Worker) (opts : WorkerPoolOptions) (p : Pool.t)
    (pos : nat) (now : Z) : Pool.t → Prop :=
| T_start b :
    batches p !! pos = Some b → tasks p !! pos = Some Granted →
    transition worker opts p pos now
      (localStep p pos (withStatus b Status.processing (Some now))
         (Invoking 0 now None) (Invoke pos 0))
| T_wake b attempt startTime lastError :
    batches p !! pos = Some b →
    tasks p !! pos = Some (Sleeping attempt startTime lastError) →
    transition worker opts p pos now
      (localStep p pos b (Invoking attempt startTime lastError) (Invoke pos attempt))
| T_retry b attempt startTime lastError message :
    batches p !! pos = Some b →
    tasks p !! pos = Some (Invoking attempt startTime lastError) →
    worker pos attempt = Rejected message →
    (attempt + 1 ≤ SWARM_DEFAULTS.max_retries)%nat →
    transition worker opts p pos now
      (localStep p pos (withRetries b (attempt + 1))
         (Sleeping (attempt + 1) startTime (Some message))
         (Sleep pos (backoff (attempt + 1))))
| T_success b attempt startTime lastError value :
    batches p !! pos = Some b →
    tasks p !! pos = Some (Invoking attempt startTime lastError) →
    worker pos attempt = Resolved value →
    transition worker opts p pos now
      (finishBatch opts p pos b now startTime true (Some value) lastError)
| T_exhausted b attempt startTime lastError message :
    batches p !! pos = Some b →
    tasks p !! pos = Some (Invoking attempt startTime lastError) →
    worker pos attempt = Rejected message →
    (SWARM_DEFAULTS.max_retries < attempt + 1)%nat →
    transition worker opts p pos now
      (finishBatch opts p pos (withRetries b (attempt + 1)) now startTime
         false None (Some message)).

(** The number of tasks of a list that satisfy a test. *)
Definition countb (f : task → bool) (l : list task) : nat :=
  length (filter (λ tk, f tk = true) l).
Definition weight (f : task → bool) (tk : task) : nat := if f tk then 1 else 0.

(** The number of slots a list of tasks holds. *)
Abbreviation slots := (countb holdsSlot).
Abbreviation slot := (weight holdsSlot).

(** The [BatchResult] a task builds, and the batch record it leaves. *)
Definition batchResultOf (b : SwarmBatch.t) (now startTime : Z) (success : bool)
    (result lastError : option string) : BatchResult.t :=
  BatchResult.mk (SwarmBatch.index b) success
    (if success then result else None) (if success then None else lastError)
    (now - startTime).

Definition closed (b : SwarmBatch.t) (now : Z) (success : bool)
    (result lastError : option string) : SwarmBatch.t :=
  if success
  then SwarmBatch.mk (SwarmBatch.index b) (SwarmBatch.items b) Status.completed
         result (SwarmBatch.error b) (SwarmBatch.startTime b) (Some now)
         (SwarmBatch.retries b)
  else SwarmBatch.mk (SwarmBatch.index b) (SwarmBatch.items b) Status.failed
         (SwarmBatch.result b) lastError (SwarmBatch.startTime b) (Some now)
         (SwarmBatch.retries b).

(** Whether the completion callback throws when this task calls it. *)
Definition callbackThrows (opts : WorkerPoolOptions) (p : Pool.t) (b : SwarmBatch.t)
    (now startTime : Z) (success : bool) (result lastError : option string) : bool :=
  match onBatchComplete opts with
  | Some callback =>
      callback (batchResultOf b now startTime success result lastError)
        (mkProgress (if success then S (Pool.completed p) else Pool.completed p)
           (length (batches p))
           (if success then Pool.failed p else S (Pool.failed p)))
  | None => false
  end.

(** The semaphore counts the tasks between [acquire] and [release], never
    more than the limit; the queue holds the tasks still waiting, which are
    the last ones of the array, in the order of the array; and nobody waits
    while a slot is free. *)
Record semInv (opts : WorkerPoolOptions) (p : Pool.t) : Prop := {
  sem_max : Semaphore.max (semaphore p) = concurrencyOf opts;
  sem_current : Semaphore.current (semaphore p) = Z.of_nat (slots (tasks p));
  sem_bound : Z.of_nat (slots (tasks p)) ≤ concurrencyOf opts;
  sem_queue_len :
    (length (Semaphore.queue (semaphore p)) ≤ length (tasks p))%nat;
  sem_queue :
    Semaphore.queue (semaphore p)
    = seq (length (tasks p) - length (Semaphore.queue (semaphore p)))
          (length (Semaphore.queue (semaphore p)));
  sem_queued : ∀ pos tk,
    tasks p !! pos = Some tk →
    (tk = Queued
     ↔ (length (tasks p) - length (Semaphore.queue (semaphore p)) ≤ pos)%nat);
  sem_full :
    Semaphore.queue (semaphore p) ≠ [] →
    Semaphore.current (semaphore p) = Semaphore.max (semaphore p)
}.

Definition isDone (tk : task) : bool :=
  match tk with Finished | Threw => true | _ => false end.
Definition isLive (tk : task) : bool :=
  match tk with Granted | Invoking _ _ _ | Sleeping _ _ _ => true | _ => false end.
Definition isActive (tk : task) : bool :=
  match tk with Invoking _ _ _ | Sleeping _ _ _ => true | _ => false end.

(** A step of the task at [pos] either moves it to its next [await], or
    ends it: then the batch is terminal, its result is written at the
    index of the batch, one of the two counters grows, and the slot is
    kept (the callback threw), released, or handed to the first waiter. *)
Inductive change (p : Pool.t) (pos : nat) (p' : Pool.t) : Prop :=
| change_local b b' tk tk' :
    batches p !! pos = Some b → tasks p !! pos = Some tk →
    isLive tk = true → isActive tk' = true →
    SwarmBatch.index b' = SwarmBatch.index b →
    batches p' = <[pos := b']> (batches p) →
    tasks p' = <[pos := tk']> (tasks p) →
    semaphore p' = semaphore p → results p' = results p →
    Pool.completed p' = Pool.completed p → Pool.failed p' = Pool.failed p →
    change p pos p'
| change_finish b b' tk br :
    batches p !! pos = Some b → tasks p !! pos = Some tk →
    isLive tk = true →
    SwarmBatch.index b' = SwarmBatch.index b →
    terminal (SwarmBatch.status b') = true →
    BatchResult.batchIndex br = SwarmBatch.index b →
    batches p' = <[pos := b']> (batches p) →
    results p' = arraySet (results p) (SwarmBatch.index b) br →
    (Pool.completed p' + Pool.failed p' = S (Pool.completed p + Pool.failed p))%nat →
    (tasks p' = <[pos := Threw]> (tasks p)
     ∨ tasks p' = <[pos := Finished]> (tasks p)
     ∨ ∃ next, tasks p !! next = Some Queued ∧ pos ≠ next
               ∧ tasks p' = <[next := Granted]> (<[pos := Finished]> (tasks p))) →
    change p pos p'.

Record resInv (bs : list SwarmBatch.t) (p : Pool.t) : Prop := {
  res_batches : length (batches p) = length bs;
  res_index : SwarmBatch.index <$> batches p = SwarmBatch.index <$> bs;
  res_own : ∀ i br, results p !! i = Some (Some br) → BatchResult.batchIndex br = i;
  res_done : ∀ pos b tk,
    batches p !! pos = Some b → tasks p !! pos = Some tk → isDone tk = true →
    terminal (SwarmBatch.status b) = true
    ∧ ∃ br, results p !! SwarmBatch.index b = Some (Some br);
  res_length_ge : (length bs ≤ length (results p))%nat;
  res_length :
    (∀ b, b ∈ bs → (SwarmBatch.index b < length bs)%nat) →
    length (results p) = length bs;
  res_count : (Pool.completed p + Pool.failed p = countb isDone (tasks p))%nat
}.

(** Two batches, a worker that answers at once, and a schedule on which
    the second batch ends before the first. *)
Definition twoBatches : list SwarmBatch.t :=
  [SwarmBatch.mk 0 ["x1"] Status.pending None None None None 0;
   SwarmBatch.mk 1 ["x2"] Status.pending None None None None 0].
Definition promptWorker : Worker := λ _ _, Resolved "done".
Definition twoSlots : WorkerPoolOptions := mkOptions (Some 2%nat) None.
Definition invertedSchedule : list (nat * Z) :=
  [(0%nat, 10); (1%nat, 11); (1%nat, 12); (0%nat, 13)].

(** Three batches on two slots; the first batch ends and hands its slot to
    the third. *)
Definition threeBatches : list SwarmBatch.t :=
  twoBatches ++ [SwarmBatch.mk 2 ["x3"] Status.pending None None None None 0].

(** The completion callback, if there is one, never throws. *)
Definition quiet (opts : WorkerPoolOptions) : Prop :=
  ∀ callback br pr, onBatchComplete opts = Some callback → callback br pr = false.

(** The steps a task can still take. *)
Definition remaining (tk : task) : nat :=
  match tk with
  | Queued => 7
  | Granted => 6
  | Invoking attempt _ _ => 1 + 2 * (SWARM_DEFAULTS.max_retries - attempt)
  | Sleeping attempt _ _ => 2 + 2 * (SWARM_DEFAULTS.max_retries - attempt)
  | Finished | Threw => 0
  end.
Definition workLeft (p : Pool.t) : nat := sum_list_with remaining (tasks p).

(** One slot, and a completion callback that always throws. *)
Definition throwingOptions : WorkerPoolOptions :=
  mkOptions (Some 1%nat) (Some (λ _ _, true)).

(** What the pool asked of its environment for the batch at [pos]. *)
Definition effectsOf (pos : nat) (tr : list effect) : list effect :=
  filter (λ e, effectPos e = pos) tr.

(** All a task can ever ask: the first call of the worker and, for every
    retry, the backoff and the next call. *)
Definition script (pos : nat) : list effect :=
  Invoke pos 0
  :: flat_map (λ k, [Sleep pos (backoff k); Invoke pos k])
       (seq 1 SWARM_DEFAULTS.max_retries).



(** The worker fails the attempts before [attempt]. *)
Definition rejectedBefore (worker : Worker) (pos attempt : nat) : Prop :=
  ∀ j, (j < attempt)%nat → ∃ message, worker pos j = Rejected message.

(** [lastError] is the message of the attempt before [attempt]. *)
Definition lastErrorOf (worker : Worker) (pos attempt : nat) (lastError : option string)
    : Prop :=
  ∃ message, worker pos (attempt - 1)%nat = Rejected message ∧ lastError = Some message.

(** What is known of a batch from where its task stands. *)
Definition taskInv (worker : Worker) (pos : nat) (b : SwarmBatch.t) (tk : task)
    (tr : list effect) : Prop :=
  match tk with
  | Queued | Granted => effectsOf pos tr = []
  | Invoking a _ le =>
      (a ≤ SWARM_DEFAULTS.max_retries)%nat
      ∧ effectsOf pos tr = take (2 * a + 1) (script pos)
      ∧ rejectedBefore worker pos a
      ∧ ((0 < a)%nat → SwarmBatch.retries b = a ∧ lastErrorOf worker pos a le)
  | Sleeping a _ le =>
      (1 ≤ a ≤ SWARM_DEFAULTS.max_retries)%nat
      ∧ effectsOf pos tr = take (2 * a) (script pos)
      ∧ rejectedBefore worker pos a
      ∧ SwarmBatch.retries b = a ∧ lastErrorOf worker pos a le
  | Finished | Threw =>
      (∃ a value,
         (a ≤ SWARM_DEFAULTS.max_retries)%nat
         ∧ worker pos a = Resolved value ∧ rejectedBefore worker pos a
         ∧ SwarmBatch.status b = Status.completed
         ∧ SwarmBatch.result b = Some value
         ∧ ((0 < a)%nat → SwarmBatch.retries b = a)
         ∧ effectsOf pos tr = take (2 * a + 1) (script pos))
      ∨ (∃ message,
           rejectedBefore worker pos (S SWARM_DEFAULTS.max_retries)
           ∧ worker pos SWARM_DEFAULTS.max_retries = Rejected message
           ∧ SwarmBatch.status b = Status.failed
           ∧ SwarmBatch.error b = Some message
           ∧ SwarmBatch.retries b = S SWARM_DEFAULTS.max_retries
           ∧ effectsOf pos tr = script pos)
  end.

Definition traceInv (worker : Worker) (p : Pool.t) : Prop :=
  ∀ pos b tk,
    batches p !! pos = Some b → tasks p !! pos = Some tk →
    taskInv worker pos b tk (trace p).

(** The first batch fails twice and then succeeds, the second fails every
    attempt, the third succeeds at once. *)
Definition flakyWorker : Worker :=
  λ pos attempt,
    match pos, attempt with
    | O, O => Rejected "first failure"
    | O, S O => Rejected "second failure"
    | S O, _ => Rejected "always failing"
    | _, _ => Resolved "done"
    end.

Definition flakySchedule : list (nat * Z) :=
  [(0%nat, 0); (1%nat, 0); (0%nat, 1); (1%nat, 1); (0%nat, 2001); (1%nat, 2001);
   (0%nat, 2002); (1%nat, 2002); (0%nat, 6002); (1%nat, 6002); (0%nat, 6003);
   (1%nat, 6003); (2%nat, 6004); (2%nat, 6005)].

(** ** Input resolution *)

(** A string without the character [x]. *)
Definition lacks (x : ascii) (s : string) : Prop :=
  Forall (λ c, Regex.chr x c = false) (JsString.chars s).

(** A line as [parseItems] returns it: not empty, without a line feed, and
    with no white space at either end. *)
Definition cleanLine (s : list ascii) : Prop :=
  s ≠ [] ∧ Forall (λ c, Regex.chr "010" c = false) s
  ∧ (∀ c, head s = Some c → Regex.space c = false)
  ∧ (∀ c, last s = Some c → Regex.space c = false).

(** [pieces.join(sep)] on lists of code units. *)
Fixpoint joinChars (sep : list ascii) (pieces : list (list ascii)) : list ascii :=
  match pieces with
  | [] => []
  | [piece] => piece
  | piece :: rest => piece ++ sep ++ joinChars sep rest
  end.

(** No file is found at any path, and every command prints nothing. *)
Definition emptyEnv : Input.Env :=
  Input.mkEnv (λ _, None) (λ _, Input.Absent) (λ _, Resolved EmptyString).

(** A shell where [gh pr list] prints two lines and every other command
    fails. *)
Definition ghEnv : Input.Env :=
  Input.mkEnv (λ _, None) (λ _, Input.Absent)
    (λ cmd, if decide (cmd = "gh pr list")
            then Resolved ("#1 fix" +:+ nl +:+ "#2 docs" +:+ nl)
            else Rejected "Command exited with code 127: ").

(** ** The worker pool: what the results say *)

(** What the result of the batch at [pos] says of the worker: the first
    attempt of the three that the worker answers gives the result; or the
    worker fails all three, and the error is the message of the last. *)
Definition verdict (worker : Worker) (pos : nat) (br : BatchResult.t) : Prop :=
  (∃ a value,
     (a ≤ SWARM_DEFAULTS.max_retries)%nat ∧ rejectedBefore worker pos a
     ∧ worker pos a = Resolved value
     ∧ BatchResult.success br = true ∧ BatchResult.result br = Some value
     ∧ BatchResult.error br = None)
  ∨ (∃ message,
       rejectedBefore worker pos (S SWARM_DEFAULTS.max_retries)
       ∧ worker pos SWARM_DEFAULTS.max_retries = Rejected message
       ∧ BatchResult.success br = false ∧ BatchResult.result br = None
       ∧ BatchResult.error br = Some message).

(** The batch record and the result of the batch tell the same story. *)
Definition recorded (b : SwarmBatch.t) (br : BatchResult.t) : Prop :=
  BatchResult.batchIndex br = SwarmBatch.index b
  ∧ (if BatchResult.success br
     then SwarmBatch.status b = Status.completed
          ∧ SwarmBatch.result b = BatchResult.result br
     else SwarmBatch.status b = Status.failed
          ∧ SwarmBatch.error b = BatchResult.error br)
  ∧ ∃ st et, SwarmBatch.startTime b = Some st ∧ SwarmBatch.endTime b = Some et
             ∧ BatchResult.duration br = et - st.

(** The batch record [b] at a position where the caller passed [b0],
    by where the task of the batch stands. *)
Definition recordInv (worker : Worker) (bs : list SwarmBatch.t) (p : Pool.t)
    (pos : nat) (b0 b : SwarmBatch.t) (tk : task) : Prop :=
  SwarmBatch.index b = SwarmBatch.index b0
  ∧ SwarmBatch.items b = SwarmBatch.items b0
  ∧ match tk with
    | Queued | Granted => b = b0
    | Invoking _ st _ | Sleeping _ st _ =>
        SwarmBatch.status b = Status.processing ∧ SwarmBatch.startTime b = Some st
    | Finished | Threw =>
        ∃ br, recorded b br ∧ verdict worker pos br
              ∧ (NoDup (SwarmBatch.index <$> bs) →
                 results p !! SwarmBatch.index b = Some (Some br))
    end.

Definition recInv (worker : Worker) (bs : list SwarmBatch.t) (p : Pool.t) : Prop :=
  ∀ pos b0 b tk,
    bs !! pos = Some b0 → batches p !! pos = Some b → tasks p !! pos = Some tk →
    recordInv worker bs p pos b0 b tk.

(** The number of tasks that ended by an exception of the callback. *)
Abbreviation thrown := (countb isThrew).

(** ** Prompt rendering *)

(** The placeholders of a prompt template, in the order in which
    [renderBatchPrompt] replaces them. *)
Inductive marker :=
| Items | ItemsJson | BatchIndex | BatchNumber | TotalBatches | BatchSize | UserMessage.

Definition placeholderName (h : marker) : string :=
  match h with
  | Items => "{{items}}"
  | ItemsJson => "{{items_json}}"
  | BatchIndex => "{{batch_index}}"
  | BatchNumber => "{{batch_number}}"
  | TotalBatches => "{{total_batches}}"
  | BatchSize => "{{batch_size}}"
  | UserMessage => "{{user_message}}"
  end.

(** What the documentation of [renderBatchPrompt] says each placeholder
    stands for. *)
Definition placeholderValue (batch : SwarmBatch.t) (totalBatches : nat)
    (userMessage : string) (h : marker) : string :=
  match h with
  | Items => String.concat nl (SwarmBatch.items batch)
  | ItemsJson => Json.stringify (SwarmBatch.items batch)
  | BatchIndex => str (SwarmBatch.index batch)
  | BatchNumber => str (SwarmBatch.index batch + 1)
  | TotalBatches => str totalBatches
  | BatchSize => str (length (SwarmBatch.items batch))
  | UserMessage => userMessage
  end.

(** A template as a sequence of plain text and placeholders. *)
Inductive piece := Text (s : string) | Hole (h : marker).

Definition templateOf (pieces : list piece) : string :=
  String.concat EmptyString
    ((λ pc, match pc with Text s => s | Hole h => placeholderName h end) <$> pieces).

(** The template with every placeholder filled in at once. *)
Definition filled (batch : SwarmBatch.t) (totalBatches : nat) (userMessage : string)
    (pieces : list piece) : string :=
  String.concat EmptyString
    ((λ pc, match pc with
            | Text s => s
            | Hole h => placeholderValue batch totalBatches userMessage h
            end) <$> pieces).

(** Plain text: no opening brace, so no placeholder, and no dollar sign,
    so no replacement pattern. *)
Definition plain (s : string) : Prop := lacks "{" s ∧ lacks "$" s.

(** No occurrence of [pat] starts within [seg], whatever follows. *)
Definition barren (pat seg : list ascii) : Prop :=
  ∀ j rest, (j < length seg)%nat →
    JsString.startsWith pat (drop j seg ++ rest) = false.

(** A text cut at the occurrences of a pattern: [None] is an occurrence,
    [Some seg] the text up to the next one. *)
Definition segment := option (list ascii).
Definition unsegment (occurrence : list ascii) (segs : list segment) : list ascii :=
  concat ((λ o : segment, default occurrence o) <$> segs).
Definition occurrences (segs : list segment) : nat :=
  length (filter (λ o : segment, o = None) segs).

(** The pattern differs from the text before the text ends. *)
Fixpoint mismatch (pat s : list ascii) : bool :=
  match pat, s with
  | a :: pat', b :: s' => negb (Ascii.eqb a b) || mismatch pat' s'
  | _, _ => false
  end.

(** The place of a placeholder in the order of replacement. *)
Definition rank (h : marker) : nat :=
  match h with
  | Items => 0 | ItemsJson => 1 | BatchIndex => 2 | BatchNumber => 3
  | TotalBatches => 4 | BatchSize => 5 | UserMessage => 6
  end.

(** The template after the first [stage] replacements. *)
Definition shown (batch : SwarmBatch.t) (totalBatches : nat) (userMessage : string)
    (stage : nat) (pc : piece) : string :=
  match pc with
  | Text s => s
  | Hole h =>
      if (rank h <? stage)%nat
      then placeholderValue batch totalBatches userMessage h
      else placeholderName h
  end.
Definition rendered (batch : SwarmBatch.t) (totalBatches : nat) (userMessage : string)
    (stage : nat) (pieces : list piece) : string :=
  String.concat EmptyString (shown batch totalBatches userMessage stage <$> pieces).

(** The pieces as segments for the replacement of [h]. *)
Definition segmentOf (batch : SwarmBatch.t) (totalBatches : nat) (userMessage : string)
    (h : marker) (pc : piece) : segment :=
  match pc with
  | Text s => Some (JsString.chars s)
  | Hole h' =>
      if (rank h' =? rank h)%nat then None
      else Some (JsString.chars (shown batch totalBatches userMessage (rank h) pc))
  end.

(** ** When the reduction ends *)

(** The consecutive pieces of [n] elements of a list; the last one is
    shorter when the length is no multiple of [n]. *)
Fixpoint chunks {A} (fuel n : nat) (l : list A) : list (list A) :=
  match fuel, l with
  | S fuel', _ :: _ => take n l :: chunks fuel' n (drop n l)
  | _, _ => []
  end.
Definition chunksOf {A} (n : nat) (l : list A) : list (list A) := chunks (length l) n l.

(** The worker answers every prompt, with at most [limit] characters. *)
Definition brief {W : Type} (limit : Z) (invokeAgent : W → string → outcome * W)
    : Prop :=
  ∀ w prompt, ∃ value,
    (invokeAgent w prompt).1 = Resolved value ∧ Z.of_nat (String.length value) ≤ limit.

(** ** What a match needs *)


(* ===================================================================== *)
(** * Properties *)
(* ===================================================================== *)

(** ** Batch splitting *)

Lemma ceil_div_spec a b :
  0 < b → (ceil_div a b - 1) * b < a ≤ ceil_div a b * b.
Proof.
  intros Hb. unfold ceil_div.
  pose proof (Z.div_mod (a + b - 1) b ltac:(lia)) as Hdm.
  pose proof (Z.mod_pos_bound (a + b - 1) b Hb) as Hm.
  nia.
Qed.

Lemma ceil_div_step a b : 0 < b → ceil_div a b = 1 + ceil_div (a - b) b.
Proof.
  intros Hb. unfold ceil_div.
  replace (a + b - 1) with ((a - b + b - 1) + 1 * b) by lia.
  rewrite Z.div_add by lia. lia.
Qed.

Lemma ceil_div_nonpos a b : 0 < b → -b < a ≤ 0 → ceil_div a b = 0.
Proof. intros Hb Ha. unfold ceil_div. apply Z.div_small. lia. Qed.

Lemma js_slice_chunk {A} (l : list A) (i size : Z) :
  0 ≤ i → 0 < size →
  js_slice l i (i + size) = take (Z.to_nat size) (drop (Z.to_nat i) l).
Proof.
  intros Hi Hs. unfold js_slice.
  destruct (Z.ltb_spec i 0); [lia|].
  destruct (Z.ltb_spec (i + size) 0); [lia|].
  set (len := Z.of_nat (length l)).
  destruct (Z_le_gt_dec len i) as [Hle|Hgt].
  - rewrite (drop_ge l (Z.to_nat i)) by (subst len; lia).
    rewrite Z.min_r by lia. rewrite (drop_ge l) by (subst len; lia).
    by rewrite !take_nil.
  - rewrite (Z.min_l i len) by lia.
    destruct (Z_le_gt_dec (i + size) len).
    + rewrite Z.min_l by lia. f_equal. lia.
    + rewrite Z.min_r by lia.
      rewrite !take_ge; [done| |]; rewrite length_drop; subst len; lia.
Qed.

Section split_loop.
Variable items : list string.
Variable size : Z.
Hypothesis size_pos : 1 ≤ size.

Let len := Z.of_nat (length items).

(** What one full run of the loop appends to the batches built so far. *)
Lemma splitLoop_spec (fuel : nat) : ∀ (i : Z) (acc : list SwarmBatch.t),
  0 ≤ i < len + size → len - i ≤ Z.of_nat fuel →
  ∃ new,
    splitLoop fuel items size i acc = Some (acc ++ new) ∧
    Z.of_nat (length new) = ceil_div (len - i) size ∧
    concat (SwarmBatch.items <$> new) = drop (Z.to_nat i) items ∧
    ∀ (k : nat) b, new !! k = Some b →
      SwarmBatch.index b = (length acc + k)%nat ∧
      SwarmBatch.status b = Status.pending ∧
      SwarmBatch.retries b = 0%nat ∧
      SwarmBatch.result b = None ∧ SwarmBatch.error b = None ∧
      ((S k < length new)%nat → Z.of_nat (length (SwarmBatch.items b)) = size) ∧
      1 ≤ Z.of_nat (length (SwarmBatch.items b)) ≤ size.
Proof.
  induction fuel as [|fuel IH]; intros i acc Hi Hfuel.
  - exists []. simpl. destruct (Z.ltb_spec i (Z.of_nat (length items))); [lia|].
    rewrite app_nil_r. split_and!; [done| |by rewrite drop_ge by lia|by intros k b; rewrite lookup_nil].
    simpl. symmetry. apply ceil_div_nonpos; lia.
  - simpl. destruct (Z.ltb_spec i (Z.of_nat (length items))) as [Hlt|Hge].
    + set (b0 := SwarmBatch.mk _ _ _ _ _ _ _ _).
      destruct (IH (i + size) (acc ++ [b0])) as (new & Hrun & Hlen & Hcat & Hall);
        [lia|lia|].
      exists (b0 :: new). split_and!.
      * rewrite Hrun. by rewrite <- app_assoc.
      * rewrite (ceil_div_step (len - i)) by lia. simpl length.
        replace (len - i - size) with (len - (i + size)) by lia. lia.
      * change (concat (SwarmBatch.items <$> b0 :: new))
          with (js_slice items i (i + size) ++ concat (SwarmBatch.items <$> new)).
        rewrite Hcat. rewrite js_slice_chunk by lia.
        replace (Z.to_nat (i + size)) with (Z.to_nat i + Z.to_nat size)%nat by lia.
        rewrite <- drop_drop. apply take_drop.
      * assert (Hb0 : Z.of_nat (length (SwarmBatch.items b0)) = Z.min size (len - i)).
        { subst b0; simpl. rewrite js_slice_chunk by lia.
          rewrite length_take, length_drop. lia. }
        intros [|k] b Hk; simpl in Hk.
        -- inversion Hk; subst b. split_and!; try done; try lia.
           rewrite length_cons. intros Hmore.
              assert (1 ≤ ceil_div (len - (i + size)) size) by lia.
              pose proof (ceil_div_spec (len - (i + size)) size ltac:(lia)). nia.
        -- destruct (Hall k b Hk) as (Hidx & Hst & Hre & Hr & He & Hfull & Hsz).
           split_and!; try done; try lia.
           ++ rewrite Hidx, length_app. simpl. lia.
           ++ rewrite length_cons. intros Hmore. apply Hfull. lia.
    + exists []. rewrite app_nil_r. split_and!; [done| |by rewrite drop_ge by lia|by intros k b; rewrite lookup_nil].
      simpl. symmetry. apply ceil_div_nonpos; lia.
Qed.
End split_loop.

(** C1. For a non-empty item list of length L and a batch size B >= 1,
    [splitIntoBatches] returns (with L iterations of fuel) exactly
    ceil(L/B) batches; batch k carries index k, status pending and
    retries 0; every batch but the last holds exactly B items, the last
    between 1 and B; and the batches' items, concatenated in index order,
    are the original list. *)
Theorem splitIntoBatches_complete (items : list string) (B : Z) (fuel : nat) :
  items ≠ [] → 1 ≤ B → (length items ≤ fuel)%nat →
  ∃ batches,
    splitIntoBatches fuel items B = Some batches ∧
    Z.of_nat (length batches) = ceil_div (Z.of_nat (length items)) B ∧
    (∀ (k : nat) b, batches !! k = Some b →
       SwarmBatch.index b = k ∧
       SwarmBatch.status b = Status.pending ∧
       SwarmBatch.retries b = 0%nat ∧
       ((S k < length batches)%nat → Z.of_nat (length (SwarmBatch.items b)) = B) ∧
       1 ≤ Z.of_nat (length (SwarmBatch.items b)) ≤ B) ∧
    concat (SwarmBatch.items <$> batches) = items.
Proof.
  intros Hne HB Hfuel. unfold splitIntoBatches.
  destruct (Z.eqb_spec B 0); [lia|].
  destruct (splitLoop_spec items B HB fuel 0 []) as (new & Hrun & Hlen & Hcat & Hall);
    [lia|lia|].
  exists new. split_and!.
  - by rewrite Hrun.
  - rewrite Hlen. f_equal. lia.
  - intros k b Hk. destruct (Hall k b Hk) as (Hidx & Hst & Hre & _ & _ & Hfull & Hsz).
    simpl in Hidx. done.
  - by rewrite Hcat.
Qed.

Lemma splitIntoBatches_complete_witness :
  ∃ batches,
    splitIntoBatches 5 ["a"; "b"; "c"; "d"; "e"] 2 = Some batches ∧
    Z.of_nat (length batches) = ceil_div (Z.of_nat (length ["a"; "b"; "c"; "d"; "e"])) 2 ∧
    (∀ (k : nat) b, batches !! k = Some b →
       SwarmBatch.index b = k ∧
       SwarmBatch.status b = Status.pending ∧
       SwarmBatch.retries b = 0%nat ∧
       ((S k < length batches)%nat → Z.of_nat (length (SwarmBatch.items b)) = 2) ∧
       1 ≤ Z.of_nat (length (SwarmBatch.items b)) ≤ 2) ∧
    concat (SwarmBatch.items <$> batches) = ["a"; "b"; "c"; "d"; "e"].
Proof.
  apply (splitIntoBatches_complete ["a"; "b"; "c"; "d"; "e"] 2 5); [done | lia | simpl; lia].
Defined.

(** ** The reduce prompt *)

Import Reducer.

Lemma append_assoc (a b c : string) : (a +:+ b) +:+ c = a +:+ b +:+ c.
Proof.
  induction a as [|x a IH]; [done|].
  change (String x ((a +:+ b) +:+ c) = String x (a +:+ b +:+ c)). by rewrite IH.
Qed.

(** C9 fails on the code without a custom prompt: the context sentence comes
    before the default instruction, so the prompt does not have the
    instruction-first layout. *)
Lemma buildReducePrompt_default_not_instruction_first :
  ¬ instructionFirstLayout (mkOptions None None "count the words")
      (topLevelContext 2) "r1"
      (buildReducePrompt "r1" 2 (mkOptions None None "count the words") None None None).
Proof.
  intros (s1 & s2 & s3 & s4 & H).
  apply (f_equal firstChar) in H. vm_compute in H. discriminate H.
Qed.

(** C9 (as amended). A reduce prompt is, in this order: with a non-empty
    custom prompt, the custom prompt and then the context sentence; without
    one, the context sentence and then the default synthesis instruction;
    then, in both cases, "Original task: <task>", the divider and the
    combined content, all separated by blank lines.  The context sentence is
    the top-level one when no level and group are passed, as
    [reduceSummarize] does, and the group one -- group G+1 of T at level
    L+1 -- for the group pass of [reduceHierarchical]. *)
Theorem buildReducePrompt_layout (combined : string) (n : nat) (options : ReduceOptions) :
  let blank := nl +:+ nl in
  let head (context : string) :=
    match Resolver.truthy (Reducer.prompt options) with
    | Some custom => custom +:+ blank +:+ context
    | None => context +:+ blank +:+ defaultInstruction
    end in
  let tail :=
    blank +:+ "Original task: " +:+ userMessage options +:+ blank +:+ "---" +:+ blank
    +:+ combined in
  buildReducePrompt combined n options None None None
    = head (topLevelContext n) +:+ tail
  ∧ ∀ level groupIndex totalGroups,
      buildReducePrompt combined n options (Some level) (Some groupIndex) (Some totalGroups)
      = head (groupContext n level groupIndex totalGroups) +:+ tail.
Proof.
  intros blank head tail. subst head tail blank. unfold buildReducePrompt.
  split; [|intros level groupIndex totalGroups];
    destruct (Resolver.truthy (prompt options)); by rewrite !append_assoc.
Qed.

(** ** The reducer *)

Lemma tooLarge_spec (combined : string) :
  tooLarge combined = true ↔ 600000 < Z.of_nat (String.length combined).
Proof.
  unfold tooLarge, estimatedTokens. rewrite negb_true_iff.
  set (n := Z.of_nat (String.length combined)).
  destruct (Qle_bool (inject_Z n / 4) 150000) eqn:Hle.
  - apply Qle_bool_iff in Hle. unfold Qle in Hle. simpl in Hle. split; [done|lia].
  - split; [intros _|done].
    destruct (Z_lt_le_dec 600000 n) as [|Hn]; [done|].
    assert (Hq : (inject_Z n / 4 <= 150000)%Q) by (unfold Qle; simpl; lia).
    apply Qle_bool_iff in Hq. congruence.
Qed.

Section reducer_facts.
Context {W : Type}.
Variable invokeAgent : W → string → outcome * W.
Variable options : ReduceOptions.

Lemma tryCatch_invoke (prompt fallback : string) (w : @world W) :
  tryCatch (invoke invokeAgent prompt) (λ _, ret fallback) w
  = Some (Fulfilled (askOrElse invokeAgent prompt fallback w).1,
          (askOrElse invokeAgent prompt fallback w).2).
Proof.
  unfold tryCatch, invoke, askOrElse, ret.
  by destruct (invokeAgent (worker w) prompt) as [[v|e] worker'].
Qed.

Lemma groupPass_length level total groups : ∀ i w,
  length (groupPass invokeAgent options level total i groups w).1 = length groups.
Proof.
  induction groups as [|g groups IH]; intros i w; simpl; [done|].
  destruct (groupOutcome invokeAgent options level total i g w) as [s w1].
  specialize (IH (S i) w1).
  destruct (groupPass invokeAgent options level total (S i) groups w1) as [ss w2]. simpl in *. lia.
Qed.

Lemma promiseAll_groups level total groups : ∀ i w,
  promiseAll (reduceGroup invokeAgent options level total) i groups w
  = Some (Fulfilled (groupPass invokeAgent options level total i groups w).1,
          (groupPass invokeAgent options level total i groups w).2).
Proof.
  induction groups as [|g groups IH]; intros i w; simpl; [done|].
  unfold bind at 1, reduceGroup at 1. rewrite tryCatch_invoke.
  fold (groupOutcome invokeAgent options level total i g w).
  destruct (groupOutcome invokeAgent options level total i g w) as [s w1]. simpl.
  unfold bind at 1. rewrite IH.
  by destruct (groupPass invokeAgent options level total (S i) groups w1) as [ss w2].
Qed.

Lemma reduceSummarize_unfold fuel results :
  reduceSummarize invokeAgent (S fuel) results options
  = if tooLarge (reduceConcatenate results)
    then reduceHierarchical invokeAgent fuel results options 0
    else tryCatch
           (invoke invokeAgent
              (buildReducePrompt (reduceConcatenate results) (length results) options
                 None None None))
           (λ _, ret (reduceConcatenate results)).
Proof. reflexivity. Qed.

Lemma reduceHierarchical_unfold fuel results level :
  reduceHierarchical invokeAgent (S fuel) results options level
  = if (length results <=? SWARM_DEFAULTS.hierarchical_reduce_fanin)%nat
    then reduceSummarize invokeAgent fuel results options
    else
      match groupLoop (length results) results
              (Z.of_nat SWARM_DEFAULTS.hierarchical_reduce_fanin) 0 [] with
      | None => λ _, None
      | Some groups =>
          bind (promiseAll (reduceGroup invokeAgent options level (length groups)) 0 groups)
            (λ groupSummaries,
               if (SWARM_DEFAULTS.hierarchical_reduce_fanin <? length groupSummaries)%nat
               then reduceHierarchical invokeAgent fuel groupSummaries options (level + 1)
               else reduceSummarize invokeAgent fuel groupSummaries options)
      end.
Proof. reflexivity. Qed.

(** Neither function ever ends by an exception, whatever the worker
    does. *)
Lemma reducer_never_throws (fuel : nat) :
  ∀ results level w e w',
    reduceSummarize invokeAgent fuel results options w ≠ Some (Threw e, w')
    ∧ reduceHierarchical invokeAgent fuel results options level w ≠ Some (Threw e, w').
Proof.
  induction fuel as [|fuel IH]; intros results level w e w'; [done|].
  rewrite reduceSummarize_unfold, reduceHierarchical_unfold. split.
  - destruct (tooLarge _); [apply (IH results 0%nat)|]. by rewrite tryCatch_invoke.
  - destruct (_ <=? _)%nat; [apply (IH results level)|].
    destruct (groupLoop _ _ _ _ _) as [groups|]; [|done].
    unfold bind. rewrite promiseAll_groups.
    destruct (_ <? _)%nat; [apply IH|].
    apply (IH _ level).
Qed.
End reducer_facts.

(** C7. [reduceSummarize] builds the concatenated form first. When its
    length divided by 4 exceeds 150000, that is when it is longer than
    600000 characters, the call is the call of [reduceHierarchical] on the
    same inputs in the same world: the worker is not asked by
    [reduceSummarize] itself. Otherwise the worker is asked exactly once,
    with the top-level reduce prompt, and the call is fulfilled with the
    worker's answer, or with the plain concatenation when the worker
    fails. Neither [reduceSummarize] nor [reduceBatchResults] ever ends
    by an exception. *)
Theorem reduceSummarize_recovers {W : Type} (invokeAgent : W → string → outcome * W)
    (options : ReduceOptions) (results : list string) (fuel : nat) (w : @world W) :
  let combined := reduceConcatenate results in
  let reducePrompt := buildReducePrompt combined (length results) options None None None in
  (tooLarge combined = true ↔ 150000 * 4 < Z.of_nat (String.length combined))
  ∧ reduceSummarize invokeAgent (S fuel) results options w
    = (if tooLarge combined
       then reduceHierarchical invokeAgent fuel results options 0 w
       else Some (Fulfilled
                    match (invokeAgent (worker w) reducePrompt).1 with
                    | Resolved value => value
                    | Rejected _ => combined
                    end,
                  mkWorld (invokeAgent (worker w) reducePrompt).2
                          (asked w ++ [reducePrompt])))
  ∧ (∀ e w', reduceSummarize invokeAgent fuel results options w ≠ Some (Threw e, w'))
  ∧ (∀ e w', reduceBatchResults invokeAgent fuel results options w ≠ Some (Threw e, w')).
Proof.
  intros combined reducePrompt. split_and!.
  - apply tooLarge_spec.
  - rewrite reduceSummarize_unfold. fold combined.
    destruct (tooLarge combined); [done|].
    fold reducePrompt. rewrite tryCatch_invoke. unfold askOrElse.
    by destruct (invokeAgent (worker w) reducePrompt) as [[v|e] worker'].
  - intros e w'. apply (reducer_never_throws invokeAgent options fuel results 0%nat).
  - intros e w'. unfold reduceBatchResults.
    destruct (strategy options) as [[| |]|]; try done.
    + apply (reducer_never_throws invokeAgent options fuel results 0%nat).
    + apply (reducer_never_throws invokeAgent options fuel results 0%nat).
Qed.



(** ** The two reducers call each other for ever *)

Lemma length_iter_String (c : ascii) (s : string) (n : N) :
  String.length (N.iter n (String c) s) = (N.to_nat n + String.length s)%nat.
Proof.
  induction n as [|n IH] using N.peano_ind; [done|].
  rewrite N.iter_succ, N2Nat.inj_succ. simpl. by rewrite IH.
Qed.

Lemma tooLarge_oversized : tooLarge oversized = true.
Proof.
  apply tooLarge_spec. unfold oversized. rewrite length_iter_String.
  rewrite Nat.add_0_r, N_nat_Z. reflexivity.
Qed.

(** When at most 20 results have a concatenated form of more than 600000
    characters, [reduceSummarize] hands them to [reduceHierarchical] and
    [reduceHierarchical] hands them back unchanged: no amount of fuel lets
    either call end. *)
Lemma reducers_bounce {W : Type} (invokeAgent : W → string → outcome * W)
    (options : ReduceOptions) (results : list string) :
  (length results ≤ SWARM_DEFAULTS.hierarchical_reduce_fanin)%nat →
  tooLarge (reduceConcatenate results) = true →
  ∀ fuel level w,
    reduceSummarize invokeAgent fuel results options w = None
    ∧ reduceHierarchical invokeAgent fuel results options level w = None.
Proof.
  intros Hfew Hbig fuel. induction fuel as [|fuel IH]; intros level w; [done|].
  rewrite reduceSummarize_unfold, reduceHierarchical_unfold, Hbig.
  apply Nat.leb_le in Hfew. rewrite Hfew. split; apply IH; exact 0%nat.
Qed.

(** C10 fails on the code: on the single result [oversized] neither
    [reduceSummarize] nor [reduceHierarchical] nor [reduceBatchResults]
    with either of the two strategies returns, whatever the fuel and the
    worker. *)
Theorem reduce_oversized_never_returns {W : Type} (invokeAgent : W → string → outcome * W)
    (message : string) (fuel level : nat) (w : @world W) :
  reduceSummarize invokeAgent fuel [oversized] (mkOptions (Some summarize) None message) w
    = None
  ∧ reduceHierarchical invokeAgent fuel [oversized]
      (mkOptions (Some hierarchical) None message) level w = None
  ∧ reduceBatchResults invokeAgent fuel [oversized]
      (mkOptions (Some summarize) None message) w = None
  ∧ reduceBatchResults invokeAgent fuel [oversized]
      (mkOptions (Some hierarchical) None message) w = None.
Proof.
  assert (Hfew : (length [oversized] ≤ SWARM_DEFAULTS.hierarchical_reduce_fanin)%nat)
    by (unfold SWARM_DEFAULTS.hierarchical_reduce_fanin; simpl; lia).
  assert (Hbig : tooLarge (reduceConcatenate [oversized]) = true)
    by (change (reduceConcatenate [oversized]) with oversized; apply tooLarge_oversized).
  split_and!.
  - apply (reducers_bounce invokeAgent _ _ Hfew Hbig fuel level w).
  - apply (reducers_bounce invokeAgent _ _ Hfew Hbig fuel level w).
  - apply (reducers_bounce invokeAgent _ _ Hfew Hbig fuel 0%nat w).
  - apply (reducers_bounce invokeAgent _ _ Hfew Hbig fuel 0%nat w).
Qed.

(** ** The regular expression matcher *)

Import Regex.

Lemma tryDown_Some {R} (n min : nat) (k : nat → option R) (x : R) :
  (min ≤ n)%nat → tryDown n min k = Some x →
  ∃ j : nat, (min ≤ j ≤ n)%nat ∧ k j = Some x.
Proof.
  induction n as [|n IH]; intros Hmin; simpl.
  - destruct (k 0%nat) eqn:Hk; [|done]. intros [= ->]. exists 0%nat. split; [lia|done].
  - destruct (k (S n)) eqn:Hk.
    + intros [= ->]. exists (S n). split; [lia|done].
    + destruct (Nat.leb_spec min n); [|done].
      intros (j & Hj & Hkj)%IH; [|done]. exists j. split; [lia|done].
Qed.

Lemma matchAt_advances (r : Regex.t) (input : list ascii) :
  ∀ pos e ms, matchAt r input pos = Some (e, ms) → (pos + minLen r ≤ e)%nat.
Proof.
  induction r as [|a r IH]; intros pos e ms; simpl.
  - intros [= -> _]. lia.
  - destruct a as [p|p min|p| |]; simpl.
    + destruct (input !! pos); [|done]. destruct (p a); [|done].
      intros ?%IH. lia.
    + destruct (Nat.leb_spec min (run p (drop pos input))); [|done].
      intros (j & Hj & ?%IH)%tryDown_Some; [lia|done].
    + destruct (match input !! pos with
                | Some c => if p c then matchAt r input (S pos) else None
                | None => None
                end) as [[e' ms']|] eqn:Htaken.
      * intros [= -> ->]. destruct (input !! pos); [|done].
        destruct (p a); [|done]. apply IH in Htaken. lia.
      * apply IH.
    + destruct (boundary input pos); [|done]. apply IH.
    + destruct (matchAt r input pos) as [[e' ms']|] eqn:Hm; [|done].
      intros [= -> _]. by apply IH in Hm.
Qed.

Lemma searchFrom_advances (r : Regex.t) (input : list ascii) (n : nat) :
  ∀ pos m, searchFrom r input n pos = Some m →
    (pos ≤ start m ∧ start m + minLen r ≤ stop m)%nat.
Proof.
  induction n as [|n IH]; intros pos m; simpl;
    destruct (matchAt r input pos) as [[e ms]|] eqn:Hm;
    try (intros [= <-]; simpl; apply matchAt_advances in Hm; lia); try done.
  intros ?%IH. lia.
Qed.

(** A loop over the matches of a regular expression that consumes at least
    one character ends within one iteration per character. *)
Lemma execLoop_total {A} (r : Regex.t) (input : list ascii) (f : result → A) :
  (1 ≤ minLen r)%nat →
  ∀ fuel lastIndex acc,
    (S (length input) - lastIndex ≤ fuel)%nat →
    is_Some (execLoop fuel r input f lastIndex acc).
Proof.
  intros Hmin fuel. induction fuel as [|fuel IH]; intros lastIndex acc Hfuel; simpl.
  - unfold exec. destruct (Nat.leb_spec lastIndex (length input)); [lia|done].
  - unfold exec. destruct (Nat.leb_spec lastIndex (length input)); [|done].
    destruct (searchFrom r input _ lastIndex) as [m|] eqn:Hs; [|done].
    apply searchFrom_advances in Hs. apply IH. lia.
Qed.

(** ** The backtick short-circuit of the template resolver *)

Import Resolver.

Lemma length_chars (s : string) : length (JsString.chars s) = String.length s.
Proof. induction s as [|c s IH]; simpl; [done|]. by rewrite IH. Qed.






(** ** The worker pool: the shape of a step *)

Import Pool.

Lemma resume_transition worker opts p pos now p' :
  resume worker opts p pos now = Some p' ↔ transition worker opts p pos now p'.
Proof.
  split.
  - unfold resume. destruct (batches p !! pos) as [b|] eqn:Hb; [|done].
    destruct (tasks p !! pos) as [tk|] eqn:Htk; [|done]. simpl.
    destruct tk as [| |attempt st le|attempt st le| |]; try done.
    + intros [= <-]. by apply T_start.
    + destruct (worker pos attempt) as [value|message] eqn:Hw; intros [= <-].
      * by eapply T_success.
      * unfold enterAttempt.
        destruct (Nat.leb_spec (attempt + 1) SWARM_DEFAULTS.max_retries).
        -- replace (0 <? attempt + 1)%nat with true
             by (symmetry; apply Nat.ltb_lt; lia).
           by eapply T_retry.
        -- by eapply T_exhausted.
    + intros [= <-]. by eapply T_wake.
  - unfold resume. intros [b Hb Htk|b a st le Hb Htk|b a st le m Hb Htk Hw Ha
                          |b a st le v Hb Htk Hw|b a st le m Hb Htk Hw Ha];
      rewrite Hb, Htk; simpl; try done; rewrite Hw; try done.
    + unfold enterAttempt. apply Nat.leb_le in Ha. rewrite Ha.
      by replace (0 <? a + 1)%nat with true by (symmetry; apply Nat.ltb_lt; lia).
    + unfold enterAttempt. apply Nat.leb_gt in Ha. by rewrite Ha.
Qed.

(** ** The worker pool: arrays and counting *)

Lemma length_arraySet {A} (a : list (option A)) (i : nat) (v : A) :
  length (arraySet a i v) = Nat.max (length a) (S i).
Proof.
  unfold arraySet. destruct (decide (i < length a)%nat).
  - rewrite length_insert. lia.
  - rewrite !length_app, length_replicate. simpl. lia.
Qed.

Lemma lookup_arraySet_eq {A} (a : list (option A)) (i : nat) (v : A) :
  arraySet a i v !! i = Some (Some v).
Proof.
  unfold arraySet. destruct (decide (i < length a)%nat).
  - by apply list_lookup_insert_eq.
  - rewrite lookup_app_r by lia. rewrite lookup_app_r by (rewrite length_replicate; lia).
    rewrite length_replicate. by replace (i - length a - (i - length a))%nat with 0%nat by lia.
Qed.

Lemma lookup_arraySet_ne {A} (a : list (option A)) (i j : nat) (v x : A) :
  i ≠ j → arraySet a i v !! j = Some (Some x) ↔ a !! j = Some (Some x).
Proof.
  intros Hij. unfold arraySet. destruct (decide (i < length a)%nat).
  - by rewrite list_lookup_insert_ne.
  - destruct (decide (j < length a)%nat).
    + by rewrite lookup_app_l.
    + rewrite (lookup_ge_None_2 a j) by lia. rewrite lookup_app_r by lia.
      split; [|done]. intros H.
      destruct (decide (j - length a < i - length a)%nat).
      * rewrite lookup_app_l in H by (rewrite length_replicate; lia).
        apply lookup_replicate in H as [? _]. done.
      * rewrite lookup_app_r in H by (rewrite length_replicate; lia).
        rewrite length_replicate in H.
        destruct (j - length a - (i - length a))%nat eqn:E; [lia|done].
Qed.

Section counting.
Variable f : task → bool.

Lemma countb_cons tk l : countb f (tk :: l) = (weight f tk + countb f l)%nat.
Proof.
  unfold countb, weight. rewrite filter_cons.
  destruct (decide (f tk = true)) as [->|Hn]; [done|].
  by destruct (f tk).
Qed.

Lemma countb_app l k : countb f (l ++ k) = (countb f l + countb f k)%nat.
Proof. unfold countb. by rewrite filter_app, length_app. Qed.

Lemma countb_insert l i x y :
  l !! i = Some x → (countb f (<[i:=y]> l) + weight f x = countb f l + weight f y)%nat.
Proof.
  intros Hx. pose proof (lookup_lt_Some _ _ _ Hx) as Hi.
  rewrite insert_take_drop by done.
  rewrite <- (take_drop_middle l i x Hx) at 3.
  rewrite !countb_app, !countb_cons. lia.
Qed.

Lemma countb_exists l : (1 ≤ countb f l)%nat → ∃ i x, l !! i = Some x ∧ f x = true.
Proof.
  induction l as [|x l IH]; [unfold countb; simpl; lia|].
  rewrite countb_cons. unfold weight. destruct (f x) eqn:Hx.
  - intros _. by exists 0%nat, x.
  - intros (i & y & Hy & Hh)%IH. by exists (S i), y.
Qed.

Lemma countb_all l : Forall (λ x, f x = true) l → countb f l = length l.
Proof.
  induction 1 as [|x l Hx _ IH]; [done|].
  rewrite countb_cons, IH. unfold weight. rewrite Hx. simpl. lia.
Qed.

Lemma countb_none l : Forall (λ x, f x = false) l → countb f l = 0%nat.
Proof.
  induction 1 as [|x l Hx _ IH]; [done|].
  rewrite countb_cons, IH. unfold weight. by rewrite Hx.
Qed.
End counting.

Lemma slots_cons tk l : slots (tk :: l) = (slot tk + slots l)%nat.
Proof. apply countb_cons. Qed.

Lemma slots_app l k : slots (l ++ k) = (slots l + slots k)%nat.
Proof. apply countb_app. Qed.

Lemma slots_insert l i x y :
  l !! i = Some x → (slots (<[i:=y]> l) + slot x = slots l + slot y)%nat.
Proof. apply countb_insert. Qed.

(** ** The worker pool: the end of a task *)

Lemma finishBatch_shape opts p pos b now startTime success result lastError :
  let p' := finishBatch opts p pos b now startTime success result lastError in
  batches p' = <[pos := closed b now success result lastError]> (batches p)
  ∧ results p' = arraySet (results p) (SwarmBatch.index b)
                   (batchResultOf b now startTime success result lastError)
  ∧ Pool.completed p' = (if success then S (Pool.completed p) else Pool.completed p)
  ∧ Pool.failed p' = (if success then Pool.failed p else S (Pool.failed p))
  ∧ trace p' = trace p
  ∧ ((callbackThrows opts p b now startTime success result lastError = true
      ∧ semaphore p' = semaphore p
      ∧ tasks p' = <[pos := Threw]> (tasks p))
     ∨ (callbackThrows opts p b now startTime success result lastError = false
        ∧ Semaphore.queue (semaphore p) = []
        ∧ semaphore p' = Semaphore.mk [] (Semaphore.current (semaphore p) - 1)
                           (Semaphore.max (semaphore p))
        ∧ tasks p' = <[pos := Finished]> (tasks p))
     ∨ (∃ next rest,
          callbackThrows opts p b now startTime success result lastError = false
          ∧ Semaphore.queue (semaphore p) = next :: rest
          ∧ semaphore p' = Semaphore.mk rest (Semaphore.current (semaphore p) - 1 + 1)
                             (Semaphore.max (semaphore p))
          ∧ tasks p' = <[next := Granted]> (<[pos := Finished]> (tasks p)))).
Proof.
  unfold finishBatch, callbackThrows, batchResultOf, closed.
  set (threw := match onBatchComplete opts with Some _ => _ | None => false end).
  destruct threw.
  - simpl. split_and!; try done. by left.
  - unfold Semaphore.release.
    destruct (Semaphore.queue (semaphore p)) as [|next rest] eqn:Hq; simpl.
    + split_and!; try done. right; left. done.
    + split_and!; try done. right; right. by exists next, rest.
Qed.

(** ** The worker pool: the semaphore and the tasks *)

Lemma spawn_semInv opts p :
  semInv opts p → semInv opts (spawn p (length (tasks p))).
Proof.
  intros [Hmax Hcur Hbound Hlen Hq Hqd Hfull]. unfold spawn, Semaphore.acquire.
  destruct (Z.ltb_spec (Semaphore.current (semaphore p)) (Semaphore.max (semaphore p)))
    as [Hfree|Hbusy]; simpl.
  - assert (Hempty : Semaphore.queue (semaphore p) = []).
    { destruct (Semaphore.queue (semaphore p)) eqn:E; [done|].
      assert (Semaphore.current (semaphore p) = Semaphore.max (semaphore p))
        by (by apply Hfull). lia. }
    split; simpl; rewrite ?Hempty, ?length_app, ?slots_app, ?slots_cons; simpl;
      try done; try lia.
    + change (countb holdsSlot []) with 0%nat. lia.
    + change (countb holdsSlot []) with 0%nat. lia.
    + intros pos tk Htk. rewrite Hempty in Hqd. simpl in Hqd.
      apply lookup_app_Some in Htk as [Htk|[Hge Htk]].
      * pose proof (lookup_lt_Some _ _ _ Htk). apply Hqd in Htk.
        split; [intros HQ; apply Htk in HQ; lia | lia].
      * apply list_lookup_singleton_Some in Htk as [? <-]. split; [done|lia].
  - split; simpl; rewrite ?length_app, ?slots_app, ?slots_cons; simpl;
      try done; try lia.
    + change (countb holdsSlot []) with 0%nat. lia.
    + change (countb holdsSlot []) with 0%nat. lia.
    + rewrite Hq at 1.
      replace (length (tasks p) + 1 - (length (Semaphore.queue (semaphore p)) + 1))%nat
        with (length (tasks p) - length (Semaphore.queue (semaphore p)))%nat by lia.
      rewrite Nat.add_1_r, seq_S. do 2 f_equal. lia.
    + intros pos tk Htk.
      apply lookup_app_Some in Htk as [Htk|[Hge Htk]].
      * pose proof (lookup_lt_Some _ _ _ Htk). apply Hqd in Htk.
        rewrite Htk. lia.
      * apply list_lookup_singleton_Some in Htk as [? <-]. split; [lia|done].
Qed.

Lemma concurrencyOf_pos opts : 1 ≤ concurrencyOf opts.
Proof.
  unfold concurrencyOf, SWARM_DEFAULTS.concurrency.
  destruct (concurrency opts) as [[|c]|]; lia.
Qed.

(** The pool before any task is resumed: every task has made its call of
    [acquire], and nothing else has happened. *)
Lemma start_prefix opts bs (k : nat) :
  let p := foldl spawn
             (Pool.mk bs (Semaphore.new (concurrencyOf opts))
                (replicate (length bs) None) 0 0 [] [])
             (seq 0 k) in
  length (tasks p) = k ∧ semInv opts p ∧ batches p = bs
  ∧ results p = replicate (length bs) None
  ∧ Pool.completed p = 0%nat ∧ Pool.failed p = 0%nat ∧ trace p = []
  ∧ Forall (λ tk, tk = Granted ∨ tk = Queued) (tasks p).
Proof.
  induction k as [|k IH].
  - simpl. split_and!; try done.
    pose proof (concurrencyOf_pos opts).
    split; simpl; try done; try (change (countb holdsSlot []) with 0%nat; lia).
  - rewrite seq_S, foldl_snoc. simpl.
    destruct IH as (Hlen & Hinv & Hb & Hr & Hc & Hf & Ht & Hall).
    set (p := foldl spawn _ _) in *.
    pose proof (spawn_semInv opts p Hinv) as Hinv'.
    rewrite Hlen in Hinv'. split_and!; try done;
      unfold spawn; destruct (Semaphore.acquire _ _) as [s [|]]; simpl; try done;
      rewrite ?length_app, ?Hlen; simpl; try lia;
      (apply Forall_app; split; [done|]; apply Forall_singleton; auto).
Qed.

Lemma holdsSlot_not_Queued tk : holdsSlot tk = true → tk ≠ Queued.
Proof. by destruct tk. Qed.

(** A task that holds a slot moves on and keeps the slot. *)
Lemma semInv_same_sem opts p p' pos tk tk' :
  semInv opts p → tasks p !! pos = Some tk →
  holdsSlot tk = true → holdsSlot tk' = true →
  semaphore p' = semaphore p → tasks p' = <[pos := tk']> (tasks p) →
  semInv opts p'.
Proof.
  intros [Hmax Hcur Hbound Hlen Hq Hqd Hfull] Htk Hh Hh' Hsem Htasks.
  pose proof (slots_insert _ _ _ tk' Htk) as Hslots.
  unfold weight in Hslots. rewrite Hh, Hh' in Hslots.
  split; rewrite ?Hsem, ?Htasks, ?length_insert; try done; try lia.
  intros j x Hx. destruct (decide (pos = j)) as [<-|Hne].
  - rewrite list_lookup_insert_eq in Hx by (by eapply lookup_lt_Some).
    injection Hx as <-. specialize (Hqd pos tk Htk).
    pose proof (holdsSlot_not_Queued _ Hh). pose proof (holdsSlot_not_Queued _ Hh').
    tauto.
  - rewrite list_lookup_insert_ne in Hx by done. by apply Hqd.
Qed.

(** A task releases its slot while nobody waits. *)
Lemma semInv_release_empty opts p p' pos tk :
  semInv opts p → tasks p !! pos = Some tk → holdsSlot tk = true →
  Semaphore.queue (semaphore p) = [] →
  semaphore p' = Semaphore.mk [] (Semaphore.current (semaphore p) - 1)
                   (Semaphore.max (semaphore p)) →
  tasks p' = <[pos := Finished]> (tasks p) →
  semInv opts p'.
Proof.
  intros [Hmax Hcur Hbound Hlen Hq Hqd Hfull] Htk Hh Hempty Hsem Htasks.
  pose proof (slots_insert _ _ _ Finished Htk) as Hslots.
  unfold weight in Hslots. rewrite Hh in Hslots. simpl in Hslots.
  split; rewrite ?Hsem, ?Htasks, ?length_insert; simpl; try done; try lia.
  intros j x Hx. rewrite Hempty in Hqd. simpl in Hqd.
  destruct (decide (pos = j)) as [<-|Hne].
  - rewrite list_lookup_insert_eq in Hx by (by eapply lookup_lt_Some).
    injection Hx as <-. specialize (Hqd pos tk Htk).
    pose proof (holdsSlot_not_Queued _ Hh). split; [done|tauto].
  - rewrite list_lookup_insert_ne in Hx by done. by apply Hqd.
Qed.

(** A task releases its slot to the head of the queue. *)
Lemma semInv_release_handoff opts p p' pos tk next rest :
  semInv opts p → tasks p !! pos = Some tk → holdsSlot tk = true →
  Semaphore.queue (semaphore p) = next :: rest →
  semaphore p' = Semaphore.mk rest (Semaphore.current (semaphore p) - 1 + 1)
                   (Semaphore.max (semaphore p)) →
  tasks p' = <[next := Granted]> (<[pos := Finished]> (tasks p)) →
  semInv opts p' ∧ tasks p !! next = Some Queued ∧ pos ≠ next.
Proof.
  intros [Hmax Hcur Hbound Hlen Hq Hqd Hfull] Htk Hh Hqueue Hsem Htasks.
  rewrite Hqueue in Hq, Hlen, Hqd. simpl in Hq, Hlen, Hqd.
  injection Hq as Hnext Hrest.
  assert (Hnext_lt : (next < length (tasks p))%nat) by lia.
  destruct (lookup_lt_is_Some_2 _ _ Hnext_lt) as [tn Htn].
  assert (tn = Queued) as -> by (apply (Hqd next tn Htn); lia).
  assert (Hne : pos ≠ next).
  { intros ->. rewrite Htn in Htk. injection Htk as <-. done. }
  split_and!; [|done|done].
  pose proof (slots_insert _ _ _ Finished Htk) as Hs1.
  assert (Htn' : <[pos := Finished]> (tasks p) !! next = Some Queued)
    by (by rewrite list_lookup_insert_ne).
  pose proof (slots_insert _ _ _ Granted Htn') as Hs2.
  unfold weight in Hs1, Hs2. rewrite Hh in Hs1. simpl in Hs1, Hs2.
  split; rewrite ?Hsem, ?Htasks, ?length_insert; simpl; try done; try lia.
  - rewrite Hrest at 1. f_equal; lia.
  - intros j x Hx. destruct (decide (next = j)) as [<-|Hnj].
    + rewrite list_lookup_insert_eq in Hx by (rewrite length_insert; lia).
      injection Hx as <-. split; [done|lia].
    + rewrite list_lookup_insert_ne in Hx by done.
      destruct (decide (pos = j)) as [<-|Hpj].
      * rewrite list_lookup_insert_eq in Hx by (by eapply lookup_lt_Some).
        injection Hx as <-. specialize (Hqd pos tk Htk).
        pose proof (holdsSlot_not_Queued _ Hh). split; [done|]. intros ?.
        assert (tk = Queued) by (apply Hqd; lia). done.
      * rewrite list_lookup_insert_ne in Hx by done.
        specialize (Hqd j x Hx). rewrite Hqd. lia.
  - intros _. rewrite Hfull by (by rewrite Hqueue). lia.
Qed.

Lemma finishBatch_semInv opts p pos b tk now startTime success result lastError :
  semInv opts p → tasks p !! pos = Some tk → holdsSlot tk = true →
  semInv opts (finishBatch opts p pos b now startTime success result lastError).
Proof.
  intros Hinv Htk Hh.
  destruct (finishBatch_shape opts p pos b now startTime success result lastError)
    as (_ & _ & _ & _ & _ & [(_ & Hsem & Htasks)|[(_ & Hq & Hsem & Htasks)
                                                 |(next & rest & _ & Hq & Hsem & Htasks)]]).
  - by apply (semInv_same_sem opts p _ pos tk Threw).
  - by apply (semInv_release_empty opts p _ pos tk).
  - by apply (semInv_release_handoff opts p _ pos tk next rest).
Qed.

Lemma transition_semInv worker opts p pos now p' :
  semInv opts p → transition worker opts p pos now p' → semInv opts p'.
Proof.
  intros Hinv [b Hb Htk|b a st le Hb Htk|b a st le m Hb Htk Hw Ha
              |b a st le v Hb Htk Hw|b a st le m Hb Htk Hw Ha].
  - by apply (semInv_same_sem opts p _ pos Granted (Invoking 0 now None)).
  - by apply (semInv_same_sem opts p _ pos (Sleeping a st le) (Invoking a st le)).
  - by apply (semInv_same_sem opts p _ pos (Invoking a st le)
                (Sleeping (a + 1) st (Some m))).
  - by apply (finishBatch_semInv opts p pos b (Invoking a st le)).
  - by apply (finishBatch_semInv opts p pos _ (Invoking a st le)).
Qed.

Lemma reachable_semInv worker opts bs p :
  reachable worker opts bs p → semInv opts p ∧ length (tasks p) = length bs.
Proof.
  unfold reachable. revert p.
  apply (rtc_ind_r (λ p, semInv opts p ∧ length (tasks p) = length bs));
    [|intros p1 p2 Hsteps (pos & now & Hstep) [Hinv Hlen]].
  - pose proof (start_prefix opts bs (length bs)) as (Hlen & Hinv & _). done.
  - apply resume_transition in Hstep. split; [by eapply transition_semInv|].
    rewrite <- Hlen. clear -Hstep.
    destruct Hstep; unfold localStep; simpl; rewrite ?length_insert; try done;
      match goal with
      | |- context [finishBatch ?o ?p ?pos ?b ?n ?s ?su ?r ?l] =>
          destruct (finishBatch_shape o p pos b n s su r l)
            as (_ & _ & _ & _ & _ & [(_ & _ & ->)|[(_ & _ & _ & ->)
                                                  |(? & ? & _ & _ & _ & ->)]]);
          by rewrite ?length_insert
      end.
Qed.

(** ** The worker pool: what a step changes *)

Lemma finishBatch_change opts p pos b0 b tk now startTime success result lastError :
  semInv opts p →
  batches p !! pos = Some b0 → tasks p !! pos = Some tk → isLive tk = true →
  SwarmBatch.index b = SwarmBatch.index b0 →
  change p pos (finishBatch opts p pos b now startTime success result lastError).
Proof.
  intros Hinv Hb Htk Hl Hidx.
  assert (Hh : holdsSlot tk = true) by (by destruct tk).
  destruct (finishBatch_shape opts p pos b now startTime success result lastError)
    as (Hbs & Hres & Hc & Hf & _ & Hcases).
  apply (change_finish p pos _ b0 (closed b now success result lastError) tk
           (batchResultOf b now startTime success result lastError)); try done.
  - by destruct success.
  - by destruct success.
  - by rewrite <- Hidx.
  - rewrite Hc, Hf. destruct success; lia.
  - destruct Hcases as [(_ & _ & Htasks)|[(_ & _ & _ & Htasks)
                                         |(next & rest & _ & Hq & Hsem & Htasks)]].
    + by left.
    + right; by left.
    + right; right. exists next.
      by destruct (semInv_release_handoff opts p _ pos tk next rest Hinv Htk Hh Hq Hsem Htasks)
        as (_ & ? & ?).
Qed.

Lemma transition_change worker opts p pos now p' :
  semInv opts p → transition worker opts p pos now p' → change p pos p'.
Proof.
  intros Hinv [b Hb Htk|b a st le Hb Htk|b a st le m Hb Htk Hw Ha
              |b a st le v Hb Htk Hw|b a st le m Hb Htk Hw Ha].
  - by apply (change_local p pos _ b (withStatus b Status.processing (Some now))
                Granted (Invoking 0 now None)).
  - by apply (change_local p pos _ b b (Sleeping a st le) (Invoking a st le)).
  - by apply (change_local p pos _ b (withRetries b (a + 1)) (Invoking a st le)
                (Sleeping (a + 1) st (Some m))).
  - by apply (finishBatch_change opts p pos b b (Invoking a st le)).
  - by apply (finishBatch_change opts p pos b _ (Invoking a st le)).
Qed.

(** ** The worker pool: results, statuses and counters *)

Lemma index_insert (l : list SwarmBatch.t) pos b b' :
  l !! pos = Some b → SwarmBatch.index b' = SwarmBatch.index b →
  SwarmBatch.index <$> <[pos := b']> l = SwarmBatch.index <$> l.
Proof.
  intros Hb Hidx. rewrite list_fmap_insert, Hidx.
  apply list_insert_id. by rewrite list_lookup_fmap, Hb.
Qed.

Lemma holdsSlot_active tk : isActive tk = true → holdsSlot tk = true ∧ isDone tk = false.
Proof. by destruct tk. Qed.

Lemma change_resInv bs p pos p' :
  length (tasks p) = length bs →
  resInv bs p → change p pos p' → resInv bs p'.
Proof.
  intros Hlen [Hbl Hidx Hown Hdone Hge Hlength Hcount]
    [b b' tk tk' Hb Htk Hh Ha Hi Hbs Hts Hsem Hres Hc Hf
    |b b' tk br Hb Htk Hh Hi Hterm Hbr Hbs Hres Hcf Hts].
  - destruct (holdsSlot_active _ Ha) as [Hh' Hnd].
    pose proof (countb_insert isDone _ _ _ tk' Htk) as Hcnt.
    assert (Hnd0 : isDone tk = false) by (by destruct tk).
    unfold weight in Hcnt. rewrite Hnd, Hnd0 in Hcnt.
    split; rewrite ?Hbs, ?Hts, ?Hres, ?Hc, ?Hf, ?length_insert; try done; try lia.
    + by rewrite (index_insert _ _ b).
    + intros j bj tj Hbj Htj Hdj. rewrite ?Hbs in Hbj. rewrite ?Hts in Htj.
      destruct (decide (pos = j)) as [<-|Hne].
      * rewrite list_lookup_insert_eq in Htj by (by eapply lookup_lt_Some).
        injection Htj as <-. congruence.
      * rewrite list_lookup_insert_ne in Hbj by done.
        rewrite list_lookup_insert_ne in Htj by done. by eapply Hdone.
  - assert (Hpos : (pos < length bs)%nat) by (rewrite <- Hlen; by eapply lookup_lt_Some).
    assert (Hin : ∃ b0, b0 ∈ bs ∧ SwarmBatch.index b0 = SwarmBatch.index b).
    { destruct (lookup_lt_is_Some_2 bs pos Hpos) as [b0 Hb0]. exists b0.
      split; [by eapply list_elem_of_lookup_2|].
      assert (H1 : (SwarmBatch.index <$> batches p) !! pos = Some (SwarmBatch.index b))
        by (by rewrite list_lookup_fmap, Hb).
      rewrite Hidx, list_lookup_fmap, Hb0 in H1. by injection H1. }
    assert (Hdone' : ∀ j bj tj,
               batches p' !! j = Some bj → tasks p !! j = Some tj →
               (j = pos ∨ isDone tj = true) →
               terminal (SwarmBatch.status bj) = true
               ∧ ∃ br', results p' !! SwarmBatch.index bj = Some (Some br')).
    { intros j bj tj Hbj Htj Hor. rewrite Hbs in Hbj. rewrite Hres.
      destruct (decide (pos = j)) as [<-|Hne].
      - rewrite list_lookup_insert_eq in Hbj by (by eapply lookup_lt_Some).
        injection Hbj as <-. split; [done|]. rewrite Hi.
        eexists. apply lookup_arraySet_eq.
      - rewrite list_lookup_insert_ne in Hbj by done.
        destruct Hor as [->|Hdj]; [done|].
        destruct (Hdone j bj tj Hbj Htj Hdj) as [? [br' Hbr']]. split; [done|].
        destruct (decide (SwarmBatch.index b = SwarmBatch.index bj)) as [<-|Hd].
        + eexists. apply lookup_arraySet_eq.
        + exists br'. by apply lookup_arraySet_ne. }
    assert (Hnd0 : isDone tk = false) by (by destruct tk).
    split; rewrite ?Hbs, ?length_insert; try done.
    + by rewrite (index_insert _ _ b).
    + rewrite Hres. intros i br' Hlook.
      destruct (decide (SwarmBatch.index b = i)) as [<-|Hd].
      * rewrite lookup_arraySet_eq in Hlook. by injection Hlook as <-.
      * apply lookup_arraySet_ne in Hlook; [|done]. by apply Hown.
    + intros j bj tj Hbj Htj Hdj. rewrite <- ?Hbs in Hbj.
      destruct Hts as [Hts|[Hts|(next & Hn & Hne & Hts)]]; rewrite Hts in Htj.
      * destruct (decide (pos = j)) as [<-|Hnj].
        -- by eapply Hdone'; eauto.
        -- rewrite list_lookup_insert_ne in Htj by done. by eapply Hdone'; eauto.
      * destruct (decide (pos = j)) as [<-|Hnj].
        -- by eapply Hdone'; eauto.
        -- rewrite list_lookup_insert_ne in Htj by done. by eapply Hdone'; eauto.
      * destruct (decide (next = j)) as [<-|Hnj].
        { rewrite list_lookup_insert_eq in Htj
            by (rewrite length_insert; by eapply lookup_lt_Some).
          by injection Htj as <-. }
        rewrite list_lookup_insert_ne in Htj by done.
        destruct (decide (pos = j)) as [<-|Hpj].
        -- by eapply Hdone'; eauto.
        -- rewrite list_lookup_insert_ne in Htj by done. by eapply Hdone'; eauto.
    + rewrite Hres, length_arraySet. lia.
    + intros Hall. rewrite Hres, length_arraySet, (Hlength Hall).
      destruct Hin as (b0 & Hb0 & <-). specialize (Hall b0 Hb0). lia.
    + rewrite Hcf, Hcount.
      destruct Hts as [Hts|[Hts|(next & Hn & Hne & Hts)]]; rewrite Hts.
      * pose proof (countb_insert isDone _ _ _ Threw Htk) as Hcnt.
        unfold weight in Hcnt. rewrite Hnd0 in Hcnt. simpl in Hcnt. lia.
      * pose proof (countb_insert isDone _ _ _ Finished Htk) as Hcnt.
        unfold weight in Hcnt. rewrite Hnd0 in Hcnt. simpl in Hcnt. lia.
      * pose proof (countb_insert isDone _ _ _ Finished Htk) as Hcnt.
        assert (Hn' : <[pos := Finished]> (tasks p) !! next = Some Queued)
          by (by rewrite list_lookup_insert_ne).
        pose proof (countb_insert isDone _ _ _ Granted Hn') as Hcnt'.
        unfold weight in Hcnt, Hcnt'. rewrite Hnd0 in Hcnt. simpl in Hcnt, Hcnt'. lia.
Qed.

Lemma reachable_resInv worker opts bs p :
  reachable worker opts bs p → resInv bs p.
Proof.
  intros Hreach. pose proof Hreach as Hreach0. revert p Hreach Hreach0.
  unfold reachable at 1.
  apply (rtc_ind_r (λ p, reachable worker opts bs p → resInv bs p));
    [intros _|intros p1 p2 Hsteps Hstep IH _].
  - destruct (start_prefix opts bs (length bs))
      as (Hlen & Hinv & Hb & Hr & Hc & Hf & Ht & Hall).
    fold (start bs opts) in *.
    split; rewrite ?Hb, ?Hr, ?Hc, ?Hf, ?length_replicate; try done.
    + intros i br Hlook. apply lookup_replicate in Hlook as [? _]. done.
    + intros pos b tk _ Htk Hd. rewrite Forall_lookup in Hall.
      by destruct (Hall pos tk Htk) as [-> | ->].
    + rewrite countb_none; [done|]. eapply Forall_impl; [exact Hall|].
      by intros tk [-> | ->].
  - destruct (reachable_semInv worker opts bs p1 Hsteps) as [Hinv Hlen].
    destruct Hstep as (pos & now & Hstep%resume_transition).
    eapply change_resInv; [done|by apply IH|by eapply transition_change].
Qed.

(** ** The worker pool: runs *)

Lemma run_rtc worker opts (schedule : list (nat * Z)) : ∀ p p',
  run worker opts p schedule = Some p' → rtc (step worker opts) p p'.
Proof.
  induction schedule as [|[pos now] schedule IH]; intros p p'; simpl.
  - intros [= <-]. apply rtc_refl.
  - destruct (resume worker opts p pos now) as [p1|] eqn:Hstep; [|done]. simpl.
    intros Hrun. eapply rtc_l; [by exists pos, now|by apply IH].
Qed.

Lemma run_reachable worker opts bs schedule p :
  run worker opts (start bs opts) schedule = Some p → reachable worker opts bs p.
Proof. apply run_rtc. Qed.

Lemma poolCall_Returned p rs :
  poolCall p = Returned rs ↔
  Forall (λ tk, tk = Finished) (tasks p) ∧ rs = results p.
Proof.
  unfold poolCall. split.
  - destruct (existsb isThrew (tasks p)) eqn:Hthrew; [done|].
    destruct (forallb isFinished (tasks p)) eqn:Hfin; [|done].
    intros [= <-]. split; [|done].
    apply Is_true_true_2, forallb_True in Hfin.
    eapply Forall_impl; [exact Hfin|]. by intros [].
  - intros [Hall ->].
    assert (Hboth : existsb isThrew (tasks p) = false
                    ∧ forallb isFinished (tasks p) = true).
    { generalize (tasks p) Hall. clear. intros l Hall.
      induction Hall as [|tk l -> _ [IH1 IH2]]; [done|]. by simpl. }
    destruct Hboth as [-> ->]. done.
Qed.

(** ** Results are positioned by batch index *)

(** C2. When the indices of the batches are exactly 0..n-1 -- in any
    order -- then, whatever the worker does and in whatever order the
    tasks are resumed, the array that [processAllBatches] returns has
    length n and every slot [i] of it holds a result whose [batchIndex] is
    [i]. *)
Theorem results_positioned_by_index (worker : Worker) (opts : WorkerPoolOptions)
    (bs : list SwarmBatch.t) (p : Pool.t) (rs : list (option BatchResult.t)) :
  SwarmBatch.index <$> bs ≡ₚ seq 0 (length bs) →
  reachable worker opts bs p →
  poolCall p = Returned rs →
  length rs = length bs
  ∧ ∀ i, (i < length bs)%nat →
      ∃ br, rs !! i = Some (Some br) ∧ BatchResult.batchIndex br = i.
Proof.
  intros Hperm Hreach [Hfin ->]%poolCall_Returned.
  destruct (reachable_semInv worker opts bs p Hreach) as [_ Hlen].
  destruct (reachable_resInv worker opts bs p Hreach)
    as [Hbl Hidx Hown Hdone _ Hlength _].
  split.
  - apply Hlength. intros b Hb.
    assert (Hin : SwarmBatch.index b ∈ seq 0 (length bs)).
    { rewrite <- Hperm. by apply list_elem_of_fmap_2. }
    apply elem_of_seq in Hin. lia.
  - intros i Hi.
    assert (Hin : i ∈ SwarmBatch.index <$> batches p).
    { rewrite Hidx, Hperm. apply elem_of_seq. lia. }
    apply list_elem_of_fmap in Hin as (b & -> & Hb).
    apply list_elem_of_lookup in Hb as [pos Hb].
    assert (Hpos : (pos < length (tasks p))%nat)
      by (rewrite Hlen, <- Hbl; by eapply lookup_lt_Some).
    destruct (lookup_lt_is_Some_2 _ _ Hpos) as [tk Htk].
    rewrite Forall_lookup in Hfin. specialize (Hfin pos tk Htk). subst tk.
    destruct (Hdone pos b Finished Hb Htk eq_refl) as [_ [br Hbr]].
    exists br. split; [done|]. by apply Hown.
Qed.

Lemma results_positioned_by_index_witness :
  ∃ p rs,
    run promptWorker twoSlots (start twoBatches twoSlots) invertedSchedule = Some p
    ∧ poolCall p = Returned rs
    ∧ length rs = length twoBatches
    ∧ ∀ i, (i < length twoBatches)%nat →
        ∃ br, rs !! i = Some (Some br) ∧ BatchResult.batchIndex br = i.
Proof.
  destruct (run promptWorker twoSlots (start twoBatches twoSlots) invertedSchedule)
    as [p|] eqn:Hrun; [|by vm_compute in Hrun].
  exists p, (results p). split; [done|].
  assert (Hcall : poolCall p = Returned (results p))
    by (vm_compute in Hrun; injection Hrun as <-; reflexivity).
  split; [done|].
  apply (results_positioned_by_index promptWorker twoSlots twoBatches p);
    [reflexivity | by apply (run_reachable _ _ _ invertedSchedule) | done].
Defined.

(** ** The concurrency bound and the order of the queue *)

Lemma release_handoff (s : Semaphore.t) next rest :
  Semaphore.queue s = next :: rest →
  Semaphore.release s
  = (Semaphore.mk rest (Semaphore.current s) (Semaphore.max s), Some next).
Proof.
  intros Hq. unfold Semaphore.release. rewrite Hq.
  by replace (Semaphore.current s - 1 + 1) with (Semaphore.current s) by lia.
Qed.

Lemma transition_queue worker opts p pos now p' :
  semInv opts p → transition worker opts p pos now p' →
  Semaphore.queue (semaphore p') = Semaphore.queue (semaphore p)
  ∨ ∃ next,
      Semaphore.queue (semaphore p) = next :: Semaphore.queue (semaphore p')
      ∧ tasks p' !! next = Some Granted
      ∧ Semaphore.current (semaphore p') = Semaphore.current (semaphore p).
Proof.
  intros Hinv Htr.
  assert (Hfin : ∀ b tk st success result le,
            tasks p !! pos = Some tk → holdsSlot tk = true →
            let p' := finishBatch opts p pos b now st success result le in
            Semaphore.queue (semaphore p') = Semaphore.queue (semaphore p)
            ∨ ∃ next,
                Semaphore.queue (semaphore p) = next :: Semaphore.queue (semaphore p')
                ∧ tasks p' !! next = Some Granted
                ∧ Semaphore.current (semaphore p') = Semaphore.current (semaphore p)).
  { intros b tk st success result le Htk Hh.
    destruct (finishBatch_shape opts p pos b now st success result le)
      as (_ & _ & _ & _ & _ & [(_ & Hsem & Htasks)|[(_ & Hq & Hsem & Htasks)
                                                   |(next & rest & _ & Hq & Hsem & Htasks)]]).
    - left. by rewrite Hsem.
    - left. by rewrite Hsem, Hq.
    - right. exists next.
      destruct (semInv_release_handoff opts p _ pos tk next rest Hinv Htk Hh Hq Hsem Htasks)
        as (_ & Hnext & _).
      rewrite Hsem, Htasks. simpl. split_and!; [done| |lia].
      apply list_lookup_insert_eq. rewrite length_insert. by eapply lookup_lt_Some. }
  destruct Htr as [b Hb Htk|b a st le Hb Htk|b a st le m Hb Htk Hw Ha
                  |b a st le v Hb Htk Hw|b a st le m Hb Htk Hw Ha];
    try (by left); by eapply Hfin.
Qed.

(** C5. In every state of every run of [processAllBatches], the
    semaphore's count of slots in use is the number of tasks between
    [acquire] and [release] and lies between 0 and the limit, which is the
    configured concurrency; the waiting tasks are exactly the tasks in the
    queue, and they stand there in the order of their batches, so that no
    batch waits while a later one has its slot; [release] on a non-empty
    queue passes the slot to the head of the queue without changing the
    count; and a step of the pool changes the queue only by granting the
    slot to its head. *)
Theorem semaphore_bound_and_fifo (worker : Worker) (opts : WorkerPoolOptions)
    (bs : list SwarmBatch.t) (p : Pool.t) :
  reachable worker opts bs p →
  Semaphore.max (semaphore p) = concurrencyOf opts
  ∧ Semaphore.current (semaphore p) = Z.of_nat (inFlight p)
  ∧ 0 ≤ Semaphore.current (semaphore p) ≤ Semaphore.max (semaphore p)
  ∧ Z.of_nat (inFlight p) ≤ concurrencyOf opts
  ∧ Semaphore.queue (semaphore p)
    = seq (length bs - length (Semaphore.queue (semaphore p)))
          (length (Semaphore.queue (semaphore p)))
  ∧ (∀ pos, tasks p !! pos = Some Queued ↔ pos ∈ Semaphore.queue (semaphore p))
  ∧ (∀ pos1 pos2 tk2,
       (pos1 < pos2)%nat → tasks p !! pos2 = Some tk2 → tk2 ≠ Queued →
       tasks p !! pos1 ≠ Some Queued)
  ∧ (∀ next rest,
       Semaphore.queue (semaphore p) = next :: rest →
       Semaphore.release (semaphore p)
       = (Semaphore.mk rest (Semaphore.current (semaphore p))
            (Semaphore.max (semaphore p)), Some next))
  ∧ (∀ p', step worker opts p p' →
       Semaphore.queue (semaphore p') = Semaphore.queue (semaphore p)
       ∨ ∃ next,
           Semaphore.queue (semaphore p) = next :: Semaphore.queue (semaphore p')
           ∧ tasks p' !! next = Some Granted
           ∧ Semaphore.current (semaphore p') = Semaphore.current (semaphore p)).
Proof.
  intros Hreach.
  destruct (reachable_semInv worker opts bs p Hreach) as [Hinv Hlen].
  pose proof Hinv as [Hmax Hcur Hbound Hqlen Hq Hqd Hfull].
  rewrite Hlen in Hq, Hqd, Hqlen.
  split_and!; try done.
  - change (inFlight p) with (slots (tasks p)) in *. lia.
  - change (inFlight p) with (slots (tasks p)) in *. lia.
  - intros pos. rewrite Hq at 1. rewrite elem_of_seq. split.
    + intros Htk. pose proof (lookup_lt_Some _ _ _ Htk).
      assert (length bs - length (Semaphore.queue (semaphore p)) ≤ pos)%nat
        by (by apply (Hqd pos Queued Htk)). lia.
    + intros Hpos.
      assert (Hlt : (pos < length (tasks p))%nat) by lia.
      destruct (lookup_lt_is_Some_2 _ _ Hlt) as [tk Htk].
      rewrite Htk. f_equal. apply (Hqd pos tk Htk). lia.
  - intros pos1 pos2 tk2 Hlt Htk2 Hnq Htk1.
    assert (length bs - length (Semaphore.queue (semaphore p)) ≤ pos1)%nat
      by (by apply (Hqd pos1 Queued Htk1)).
    apply Hnq, (Hqd pos2 tk2 Htk2). lia.
  - apply release_handoff.
  - intros p' (pos & now & Hstep%resume_transition).
    by eapply transition_queue.
Qed.

Lemma semaphore_bound_and_fifo_witness :
  ∃ p,
    run promptWorker twoSlots (start threeBatches twoSlots)
      [(0%nat, 10); (1%nat, 11); (0%nat, 12)] = Some p
    ∧ Semaphore.current (semaphore p) = Z.of_nat (inFlight p)
    ∧ 0 ≤ Semaphore.current (semaphore p) ≤ Semaphore.max (semaphore p).
Proof.
  destruct (run promptWorker twoSlots (start threeBatches twoSlots)
              [(0%nat, 10); (1%nat, 11); (0%nat, 12)]) as [p|] eqn:Hrun;
    [|by vm_compute in Hrun].
  exists p. split; [done|].
  destruct (semaphore_bound_and_fifo promptWorker twoSlots threeBatches p
              (run_reachable _ _ _ _ _ Hrun)) as (_ & Hcur & Hbound & _).
  by split.
Defined.

(** ** The worker pool: no task is left behind *)

Lemma quiet_callbackThrows opts p b now startTime success result lastError :
  quiet opts →
  callbackThrows opts p b now startTime success result lastError = false.
Proof.
  intros Hquiet. unfold callbackThrows.
  destruct (onBatchComplete opts) as [callback|] eqn:Hcb; [|done].
  by apply Hquiet.
Qed.

Lemma reachable_noThrew worker opts bs p :
  quiet opts → reachable worker opts bs p → Forall (λ tk, tk ≠ Threw) (tasks p).
Proof.
  intros Hquiet. unfold reachable. revert p.
  apply (rtc_ind_r (λ p, Forall (λ tk, tk ≠ Threw) (tasks p)));
    [|intros p1 p2 Hsteps (pos & now & Hstep%resume_transition) IH].
  - destruct (start_prefix opts bs (length bs)) as (_ & _ & _ & _ & _ & _ & _ & Hall).
    eapply Forall_impl; [exact Hall|]. by intros tk [-> | ->].
  - assert (Hfin : ∀ b st success result le,
              Forall (λ tk, tk ≠ Threw)
                (tasks (finishBatch opts p1 pos b now st success result le))).
    { intros b st success result le.
      destruct (finishBatch_shape opts p1 pos b now st success result le)
        as (_ & _ & _ & _ & _ & [(Hthrew & _)|[(_ & _ & _ & ->)
                                              |(next & rest & _ & _ & _ & ->)]]).
      - by rewrite quiet_callbackThrows in Hthrew.
      - by apply Forall_insert.
      - by repeat apply Forall_insert. }
    destruct Hstep; try apply Hfin; by apply Forall_insert.
Qed.

(** A task that holds a slot and has not ended can be resumed. *)
Lemma live_can_step worker opts p pos tk now :
  length (batches p) = length (tasks p) →
  tasks p !! pos = Some tk → isLive tk = true →
  is_Some (resume worker opts p pos now).
Proof.
  intros Hlen Htk Hlive.
  assert (Hpos : (pos < length (batches p))%nat)
    by (rewrite Hlen; by eapply lookup_lt_Some).
  destruct (lookup_lt_is_Some_2 _ _ Hpos) as [b Hb].
  unfold resume. rewrite Hb, Htk. simpl.
  destruct tk as [| |a st le|a st le| |]; try done.
  by destruct (worker pos a).
Qed.

(** As long as one task has not returned, some task can be resumed. *)
Lemma pool_progress worker opts bs p pos tk :
  quiet opts → reachable worker opts bs p →
  tasks p !! pos = Some tk → tk ≠ Finished →
  ∃ p', step worker opts p p'.
Proof.
  intros Hquiet Hreach Htk Hnf.
  destruct (reachable_semInv worker opts bs p Hreach) as [Hinv Hlen].
  destruct (reachable_resInv worker opts bs p Hreach) as [Hbl _ _ _ _ _ _].
  pose proof (reachable_noThrew worker opts bs p Hquiet Hreach) as Hnt.
  rewrite Forall_lookup in Hnt.
  assert (Hlens : length (batches p) = length (tasks p)) by lia.
  assert (Hlive : ∃ pos' tk', tasks p !! pos' = Some tk' ∧ isLive tk' = true).
  { destruct (isLive tk) eqn:Hl; [by exists pos, tk|].
    assert (tk = Queued) as ->.
    { pose proof (Hnt pos tk Htk). by destruct tk. }
    destruct Hinv as [Hmax Hcur Hbound Hqlen Hq Hqd Hfull].
    assert (Hne : Semaphore.queue (semaphore p) ≠ []).
    { intros Hempty. pose proof (lookup_lt_Some _ _ _ Htk).
      assert (length (tasks p) - length (Semaphore.queue (semaphore p)) ≤ pos)%nat
        by (by apply (Hqd pos Queued Htk)).
      rewrite Hempty in *. simpl in *. lia. }
    pose proof (concurrencyOf_pos opts).
    specialize (Hfull Hne).
    destruct (countb_exists holdsSlot (tasks p)) as (pos' & tk' & Htk' & Hh); [lia|].
    exists pos', tk'. split; [done|].
    pose proof (Hnt pos' tk' Htk'). by destruct tk'. }
  destruct Hlive as (pos' & tk' & Htk' & Hl).
  destruct (live_can_step worker opts p pos' tk' 0 Hlens Htk' Hl) as [p' Hp'].
  exists p'. by exists pos', 0.
Qed.

Lemma workLeft_insert (l : list task) i tk tk' :
  l !! i = Some tk →
  (sum_list_with remaining (<[i:=tk']> l) + remaining tk
   = sum_list_with remaining l + remaining tk')%nat.
Proof.
  intros Hx. pose proof (lookup_lt_Some _ _ _ Hx).
  rewrite insert_take_drop by done. rewrite <- (take_drop_middle l i tk Hx) at 3.
  rewrite !sum_list_with_app. simpl. lia.
Qed.

Lemma finishBatch_tasks opts p pos b tk now startTime success result lastError :
  semInv opts p → tasks p !! pos = Some tk → holdsSlot tk = true →
  let p' := finishBatch opts p pos b now startTime success result lastError in
  tasks p' = <[pos := Threw]> (tasks p)
  ∨ tasks p' = <[pos := Finished]> (tasks p)
  ∨ ∃ next, tasks p !! next = Some Queued ∧ pos ≠ next
            ∧ tasks p' = <[next := Granted]> (<[pos := Finished]> (tasks p)).
Proof.
  intros Hinv Htk Hh.
  destruct (finishBatch_shape opts p pos b now startTime success result lastError)
    as (_ & _ & _ & _ & _ & [(_ & _ & Htasks)|[(_ & _ & _ & Htasks)
                                             |(next & rest & _ & Hq & Hsem & Htasks)]]).
  - by left.
  - right; by left.
  - right; right. exists next.
    by destruct (semInv_release_handoff opts p _ pos tk next rest Hinv Htk Hh Hq Hsem Htasks)
      as (_ & ? & ?).
Qed.

(** Every step uses up some of the work left: a run of the pool has at
    most seven steps for each batch. *)
Lemma step_workLeft worker opts p p' :
  semInv opts p → step worker opts p p' → (workLeft p' < workLeft p)%nat.
Proof.
  intros Hinv (pos & now & Hstep%resume_transition).
  assert (Hfin : ∀ b a st le success result lastError,
            tasks p !! pos = Some (Invoking a st le) →
            (workLeft (finishBatch opts p pos b now st success result lastError)
             < workLeft p)%nat).
  { intros b a st le success result lastError Htk. unfold workLeft.
    destruct (finishBatch_tasks opts p pos b (Invoking a st le) now st success result
                lastError Hinv Htk eq_refl) as [Hts|[Hts|(next & Hn & Hne & Hts)]];
      rewrite Hts.
    - pose proof (workLeft_insert _ _ _ Threw Htk) as Hsum. simpl in Hsum. lia.
    - pose proof (workLeft_insert _ _ _ Finished Htk) as Hsum. simpl in Hsum. lia.
    - pose proof (workLeft_insert _ _ _ Finished Htk) as Hsum.
      assert (Hn' : <[pos := Finished]> (tasks p) !! next = Some Queued)
        by (by rewrite list_lookup_insert_ne).
      pose proof (workLeft_insert _ _ _ Granted Hn') as Hsum'.
      simpl in Hsum, Hsum'. lia. }
  destruct Hstep as [b Hb Htk|b a st le Hb Htk|b a st le m Hb Htk Hw Ha
                    |b a st le v Hb Htk Hw|b a st le m Hb Htk Hw Ha];
    try (by eapply Hfin); unfold workLeft, localStep; simpl.
  - pose proof (workLeft_insert _ _ _ (Invoking 0 now None) Htk) as Hsum.
    simpl in Hsum. lia.
  - pose proof (workLeft_insert _ _ _ (Invoking a st le) Htk) as Hsum.
    simpl in Hsum. lia.
  - pose proof (workLeft_insert _ _ _ (Sleeping (a + 1) st (Some m)) Htk) as Hsum.
    unfold remaining, SWARM_DEFAULTS.max_retries in *. lia.
Qed.

Lemma reachable_step worker opts bs p p' :
  reachable worker opts bs p → step worker opts p p' → reachable worker opts bs p'.
Proof. intros Hreach Hstep. by eapply rtc_r. Qed.

Lemma run_workLeft worker opts bs (schedule : list (nat * Z)) : ∀ p p',
  reachable worker opts bs p →
  run worker opts p schedule = Some p' →
  (length schedule + workLeft p' ≤ workLeft p)%nat.
Proof.
  induction schedule as [|[pos now] schedule IH]; intros p p' Hreach; simpl.
  - intros [= <-]. lia.
  - destruct (resume worker opts p pos now) as [p1|] eqn:Hstep; [|done]. simpl.
    intros Hrun.
    assert (Hs : step worker opts p p1) by (by exists pos, now).
    destruct (reachable_semInv worker opts bs p Hreach) as [Hinv _].
    pose proof (step_workLeft worker opts p p1 Hinv Hs).
    pose proof (IH p1 p' (reachable_step _ _ _ _ _ Hreach Hs) Hrun). lia.
Qed.

Lemma workLeft_start opts bs : (workLeft (start bs opts) ≤ 7 * length bs)%nat.
Proof.
  destruct (start_prefix opts bs (length bs)) as (Hlen & _ & _ & _ & _ & _ & _ & Hall).
  fold (start bs opts) in *. unfold workLeft. rewrite <- Hlen.
  generalize (tasks (start bs opts)) Hall. clear. intros l Hall.
  induction Hall as [|tk l Htk _ IH]; [simpl; lia|].
  change (sum_list_with remaining (tk :: l))
    with (remaining tk + sum_list_with remaining l)%nat.
  rewrite length_cons.
  assert (remaining tk ≤ 7)%nat by (destruct Htk as [-> | ->]; simpl; lia). lia.
Qed.

Lemma forallb_false_lookup {A} (f : A → bool) (l : list A) :
  forallb f l = false → ∃ i x, l !! i = Some x ∧ f x = false.
Proof.
  induction l as [|x l IH]; simpl; [done|].
  destruct (f x) eqn:Hx; simpl.
  - intros (i & y & Hy & Hf)%IH. by exists (S i), y.
  - intros _. by exists 0%nat, x.
Qed.

(** ** The pool call itself *)

(** C4 fails on the code when the callback throws: with one slot and two
    batches, the first task ends by the exception of the callback, the call
    of [processAllBatches] is rejected, the slot is never released, and the
    second batch stays [pending] with no step left to take. *)
Lemma callback_throw_fails_the_pool :
  ∃ p,
    run promptWorker throwingOptions (start twoBatches throwingOptions)
      [(0%nat, 10); (0%nat, 11)] = Some p
    ∧ poolCall p = Failed
    ∧ (SwarmBatch.status <$> batches p) !! 1%nat = Some Status.pending
    ∧ ∀ pos now, resume promptWorker throwingOptions p pos now = None.
Proof.
  eexists. split; [vm_compute; reflexivity|].
  split; [reflexivity|]. split; [reflexivity|].
  intros [|[|pos]] now; reflexivity.
Qed.

(** C4 (as amended). When the completion callback, if any, does not throw,
    then whatever the worker does: the call of [processAllBatches] never
    fails; when it returns, it returns the results array, every task has
    returned, every batch is [completed] or [failed], and the two counters
    add up to the number of batches; as long as it has not returned, some
    task can be resumed; and a run has at most seven steps for each
    batch. *)
Theorem pool_returns_when_all_terminal (worker : Worker) (opts : WorkerPoolOptions)
    (bs : list SwarmBatch.t) (p : Pool.t) :
  quiet opts → reachable worker opts bs p →
  poolCall p ≠ Failed
  ∧ (∀ rs, poolCall p = Returned rs →
       rs = results p
       ∧ Forall (λ tk, tk = Finished) (tasks p)
       ∧ Forall (λ b, terminal (SwarmBatch.status b) = true) (batches p)
       ∧ (Pool.completed p + Pool.failed p = length bs)%nat)
  ∧ (poolCall p = Running → ∃ p', step worker opts p p')
  ∧ (∀ schedule p', run worker opts p schedule = Some p' →
       (length schedule + workLeft p' ≤ workLeft p)%nat)
  ∧ (workLeft p ≤ 7 * length bs)%nat.
Proof.
  intros Hquiet Hreach.
  destruct (reachable_semInv worker opts bs p Hreach) as [Hinv Hlen].
  destruct (reachable_resInv worker opts bs p Hreach)
    as [Hbl _ _ Hdone _ _ Hcount].
  pose proof (reachable_noThrew worker opts bs p Hquiet Hreach) as Hnt.
  assert (Hthrew : existsb isThrew (tasks p) = false).
  { generalize (tasks p) Hnt. clear. intros l Hnt.
    induction Hnt as [|tk l Htk _ IH]; [done|]. simpl.
    rewrite IH. by destruct tk. }
  split_and!.
  - unfold poolCall. rewrite Hthrew. by destruct (forallb isFinished (tasks p)).
  - intros rs [Hfin ->]%poolCall_Returned. split_and!; try done.
    + apply Forall_lookup. intros pos b Hb.
      assert (Hpos : (pos < length (tasks p))%nat)
        by (rewrite Hlen, <- Hbl; by eapply lookup_lt_Some).
      destruct (lookup_lt_is_Some_2 _ _ Hpos) as [tk Htk].
      rewrite Forall_lookup in Hfin. specialize (Hfin pos tk Htk). subst tk.
      by destruct (Hdone pos b Finished Hb Htk eq_refl).
    + rewrite Hcount, <- Hlen. apply countb_all.
      eapply Forall_impl; [exact Hfin|]. by intros tk ->.
  - unfold poolCall. rewrite Hthrew.
    destruct (forallb isFinished (tasks p)) eqn:Hfin; [done|]. intros _.
    apply forallb_false_lookup in Hfin as (pos & tk & Htk & Hf).
    apply (pool_progress worker opts bs p pos tk); try done. by intros ->.
  - intros schedule p'. by apply (run_workLeft worker opts bs).
  - clear -Hreach. unfold reachable in Hreach. revert p Hreach.
    apply (rtc_ind_r (λ p, workLeft p ≤ 7 * length bs)%nat);
      [apply workLeft_start|].
    intros p1 p2 Hsteps Hstep IH.
    destruct (reachable_semInv worker opts bs p1 Hsteps) as [Hinv _].
    pose proof (step_workLeft worker opts p1 p2 Hinv Hstep). lia.
Qed.

Lemma pool_returns_when_all_terminal_witness :
  ∃ p,
    run promptWorker twoSlots (start twoBatches twoSlots) invertedSchedule = Some p
    ∧ poolCall p ≠ Failed
    ∧ (Pool.completed p + Pool.failed p = length twoBatches)%nat.
Proof.
  destruct (run promptWorker twoSlots (start twoBatches twoSlots) invertedSchedule)
    as [p|] eqn:Hrun; [|by vm_compute in Hrun].
  exists p. split; [done|].
  assert (Hcall : poolCall p = Returned (results p))
    by (vm_compute in Hrun; injection Hrun as <-; reflexivity).
  assert (Hquiet : quiet twoSlots) by (by intros callback br pr).
  destruct (pool_returns_when_all_terminal promptWorker twoSlots twoBatches p
              Hquiet (run_reachable _ _ _ _ _ Hrun)) as (Hnf & Hret & _).
  split; [done|]. by destruct (Hret _ Hcall) as (_ & _ & _ & ?).
Defined.

(** ** The worker pool: attempts, backoff and the fate of a batch *)

Lemma effectsOf_snoc pos tr e :
  effectsOf pos (tr ++ [e])
  = effectsOf pos tr ++ (if decide (effectPos e = pos) then [e] else []).
Proof.
  unfold effectsOf. rewrite filter_app. f_equal.
Qed.

Lemma taskInv_effects worker pos b tk tr tr' :
  effectsOf pos tr' = effectsOf pos tr →
  taskInv worker pos b tk tr → taskInv worker pos b tk tr'.
Proof. intros Heq. unfold taskInv. by rewrite Heq. Qed.

Lemma rejectedBefore_S worker pos a message :
  rejectedBefore worker pos a → worker pos a = Rejected message →
  rejectedBefore worker pos (S a).
Proof.
  intros Hbefore Hw j Hj. destruct (decide (j = a)) as [->|Hne]; [by eexists|].
  apply Hbefore. lia.
Qed.

(** A local step keeps what is known of the other batches and moves the
    knowledge of its own batch along the script. *)
Lemma localStep_traceInv worker p pos b b' tk tk' e :
  traceInv worker p →
  batches p !! pos = Some b → tasks p !! pos = Some tk →
  effectPos e = pos →
  taskInv worker pos b' tk' (trace p ++ [e]) →
  traceInv worker (localStep p pos b' tk' e).
Proof.
  intros Hinv Hb Htk He Hnew j bj tj. unfold localStep; simpl.
  destruct (decide (pos = j)) as [<-|Hne].
  - rewrite !list_lookup_insert_eq by (by eapply lookup_lt_Some).
    by intros [= <-] [= <-].
  - rewrite !list_lookup_insert_ne by done. intros Hbj Htj.
    eapply taskInv_effects; [|by apply Hinv].
    rewrite effectsOf_snoc. rewrite decide_False by congruence. by rewrite app_nil_r.
Qed.

Lemma finishBatch_traceInv worker opts p pos b0 b a st le now success result lastError :
  semInv opts p → traceInv worker p →
  batches p !! pos = Some b0 → tasks p !! pos = Some (Invoking a st le) →
  taskInv worker pos (closed b now success result lastError) Finished (trace p) →
  traceInv worker (finishBatch opts p pos b now st success result lastError).
Proof.
  intros Hsem Hinv Hb Htk Hnew j bj tj.
  destruct (finishBatch_shape opts p pos b now st success result lastError)
    as (Hbs & _ & _ & _ & Htr & _).
  pose proof (finishBatch_tasks opts p pos b (Invoking a st le) now st success result
                lastError Hsem Htk eq_refl) as Hts.
  rewrite Hbs, Htr. intros Hbj Htj.
  destruct (decide (pos = j)) as [<-|Hne].
  - rewrite list_lookup_insert_eq in Hbj by (by eapply lookup_lt_Some).
    injection Hbj as <-.
    assert (Hdone : tj = Finished ∨ tj = Threw).
    { destruct Hts as [Hts|[Hts|(next & Hn & Hnp & Hts)]]; rewrite Hts in Htj.
      - rewrite list_lookup_insert_eq in Htj by (by eapply lookup_lt_Some).
        injection Htj as <-. by right.
      - rewrite list_lookup_insert_eq in Htj by (by eapply lookup_lt_Some).
        injection Htj as <-. by left.
      - rewrite list_lookup_insert_ne in Htj by done.
        rewrite list_lookup_insert_eq in Htj by (by eapply lookup_lt_Some).
        injection Htj as <-. by left. }
    by destruct Hdone as [-> | ->].
  - rewrite list_lookup_insert_ne in Hbj by done.
    destruct Hts as [Hts|[Hts|(next & Hn & Hnp & Hts)]]; rewrite Hts in Htj.
    + rewrite list_lookup_insert_ne in Htj by done. by apply Hinv.
    + rewrite list_lookup_insert_ne in Htj by done. by apply Hinv.
    + destruct (decide (next = j)) as [<-|Hnj].
      * rewrite list_lookup_insert_eq in Htj
          by (rewrite length_insert; by eapply lookup_lt_Some).
        injection Htj as <-. apply (Hinv next bj Queued Hbj Hn).
      * rewrite !list_lookup_insert_ne in Htj by done. by apply Hinv.
Qed.

Lemma attempt_cases (a : nat) :
  (a ≤ SWARM_DEFAULTS.max_retries)%nat → a = 0%nat ∨ a = 1%nat ∨ a = 2%nat.
Proof. unfold SWARM_DEFAULTS.max_retries. lia. Qed.

Lemma transition_traceInv worker opts p pos now p' :
  semInv opts p → traceInv worker p →
  transition worker opts p pos now p' → traceInv worker p'.
Proof.
  intros Hsem Hinv [b Hb Htk|b a st le Hb Htk|b a st le m Hb Htk Hw Ha
                   |b a st le v Hb Htk Hw|b a st le m Hb Htk Hw Ha];
    pose proof (Hinv pos b _ Hb Htk) as Hold; simpl in Hold.
  - eapply localStep_traceInv; try done. simpl.
    rewrite effectsOf_snoc, Hold, decide_True by done.
    split_and!; try done; try lia.
    intros j; lia.
  - destruct Hold as (Ha & Heff & Hrej & Hret & Hle).
    eapply localStep_traceInv; try done. simpl.
    rewrite effectsOf_snoc, Heff, decide_True by done.
    split_and!; try done; try lia.
    destruct (attempt_cases a) as [->|[->| ->]]; try lia; reflexivity.
  - destruct Hold as (Ha' & Heff & Hrej & Hret).
    eapply localStep_traceInv; try done. simpl.
    rewrite effectsOf_snoc, Heff, decide_True by done.
    replace (a + 1 - 1)%nat with a by lia.
    split_and!; try done; try lia.
    + destruct (attempt_cases a) as [->|[->| ->]]; try lia;
        unfold SWARM_DEFAULTS.max_retries in *; try lia; reflexivity.
    + rewrite Nat.add_1_r. by eapply rejectedBefore_S.
    + exists m. by replace (a + 1 - 1)%nat with a by lia.
  - destruct Hold as (Ha & Heff & Hrej & Hret).
    eapply finishBatch_traceInv; try done. simpl. left. exists a, v.
    split_and!; try done. intros Hpos. by destruct (Hret Hpos).
  - destruct Hold as (Ha' & Heff & Hrej & Hret).
    assert (a = SWARM_DEFAULTS.max_retries) as -> by lia.
    eapply finishBatch_traceInv; try done. simpl. right. exists m.
    split_and!; try done. by eapply rejectedBefore_S.
Qed.

Lemma reachable_traceInv worker opts bs p :
  reachable worker opts bs p → traceInv worker p.
Proof.
  intros Hreach. pose proof Hreach as Hreach0. revert p Hreach Hreach0.
  unfold reachable at 1.
  apply (rtc_ind_r (λ p, reachable worker opts bs p → traceInv worker p));
    [intros _|intros p1 p2 Hsteps Hstep IH _].
  - destruct (start_prefix opts bs (length bs))
      as (_ & _ & _ & _ & _ & _ & Htr & Hall).
    fold (start bs opts) in *. intros pos b tk _ Htk.
    rewrite Forall_lookup in Hall. unfold taskInv. rewrite Htr.
    by destruct (Hall pos tk Htk) as [-> | ->].
  - destruct (reachable_semInv worker opts bs p1 Hsteps) as [Hinv _].
    destruct Hstep as (pos & now & Hstep%resume_transition).
    eapply transition_traceInv; [done|by apply IH|done].
Qed.






(** ** The stated test cases, run on the embedding *)

Import Reducer.
Import Regex.
Import Resolver.
Import Pool.

Example resolve_without_placeholder :
  resolveTemplateParams 50 "gh pr list" "anything `ls` a/b 42" = Some "gh pr list".
Proof. vm_compute. reflexivity. Qed.

Example resolve_repo :
  resolveTemplateParams 50 "cmd --repo {{repo}}" "review owner/repo please"
  = Some "cmd --repo owner/repo".
Proof. vm_compute. reflexivity. Qed.

Example resolve_kv_before_number :
  resolveTemplateParams 50 "{{limit}}" "limit=50 but also 9999" = Some "50".
Proof. vm_compute. reflexivity. Qed.

Example resolve_unresolved_left_in_place :
  resolveTemplateParams 50 "{{repo}} {{who}}" "see owner/repo" = Some "owner/repo {{who}}".
Proof. vm_compute. reflexivity. Qed.

Example repo_match_gives_back_a_character :
  (λ m : Regex.result, group (JsString.chars "see a/b. now") m 1)
    <$> jsMatch repoRegex "see a/b. now"
  = Some "a/b".
Proof. vm_compute. reflexivity. Qed.

Example concatenate_one : reduceConcatenate ["only one"] = "only one".
Proof. reflexivity. Qed.

Example concatenate_two :
  reduceConcatenate ["a"; "b"]
  = "## Batch 1 of 2" +:+ nl +:+ nl +:+ "a" +:+ nl +:+ nl +:+ "---" +:+ nl +:+ nl
    +:+ "## Batch 2 of 2" +:+ nl +:+ nl +:+ "b".
Proof. vm_compute. reflexivity. Qed.

Example split_47_by_10 :
  (λ bs : list SwarmBatch.t, (λ b, length (SwarmBatch.items b)) <$> bs)
    <$> splitIntoBatches 47 ((λ i : nat, "x" +:+ str i) <$> seq 1 47) 10
  = Some [10; 10; 10; 10; 7]%nat.
Proof. vm_compute. reflexivity. Qed.

Example split_default_size :
  (λ bs : list SwarmBatch.t, length bs) <$> splitIntoBatches 60 (replicate 60 "x") 0
  = Some 3%nat.
Proof. vm_compute. reflexivity. Qed.

Example flaky_run_ends :
  (λ p : Pool.t, (SwarmBatch.status <$> batches p, SwarmBatch.retries <$> batches p,
                  Pool.completed p, Pool.failed p))
    <$> run flakyWorker twoSlots (start threeBatches twoSlots) flakySchedule
  = Some ([Status.completed; Status.failed; Status.completed], [2; 3; 0], 2, 1)%nat.
Proof. vm_compute. reflexivity. Qed.

(** ** More on batch splitting *)

Lemma splitLoop_extends (items : list string) (size : Z) (fuel : nat) :
  ∀ i acc out, splitLoop fuel items size i acc = Some out → ∃ new, out = acc ++ new.
Proof.
  induction fuel as [|fuel IH]; intros i acc out; simpl;
    destruct (Z.ltb_spec i (Z.of_nat (length items))); try done.
  - intros [= <-]. exists []. by rewrite app_nil_r.
  - intros (new & ->)%IH. eexists. by rewrite <- app_assoc.
  - intros [= <-]. exists []. by rewrite app_nil_r.
Qed.

Lemma splitLoop_slices (items : list string) (size : Z) (fuel : nat) :
  1 ≤ size →
  ∀ i acc out,
    0 ≤ i → splitLoop fuel items size i acc = Some out →
    ∀ (k : nat) b, out !! (length acc + k)%nat = Some b →
      SwarmBatch.items b
      = take (Z.to_nat size) (drop (Z.to_nat i + k * Z.to_nat size) items).
Proof.
  intros Hsize. induction fuel as [|fuel IH]; intros i acc out Hi; simpl;
    destruct (Z.ltb_spec i (Z.of_nat (length items))); try done.
  - intros [= <-] k b Hk. apply lookup_lt_Some in Hk. lia.
  - intros Hrun k b Hk.
    destruct (splitLoop_extends _ _ _ _ _ _ Hrun) as (new & ->).
    destruct k as [|k].
    + rewrite Nat.add_0_r in Hk.
      rewrite <- app_assoc, lookup_app_r, Nat.sub_diag in Hk by lia.
      simpl in Hk. injection Hk as <-. simpl.
      rewrite js_slice_chunk by lia. do 2 f_equal. lia.
    + specialize (IH (i + size) _ _ ltac:(lia) Hrun k b).
      rewrite length_app in IH. simpl in IH.
      rewrite IH by (rewrite <- Hk; f_equal; lia).
      do 2 f_equal. lia.
  - intros [= <-] k b Hk. apply lookup_lt_Some in Hk. lia.
Qed.



Lemma splitLoop_backwards (items : list string) (size : Z) (fuel : nat) :
  size < 0 → items ≠ [] →
  ∀ i acc, i ≤ 0 → splitLoop fuel items size i acc = None.
Proof.
  intros Hsize Hne. induction fuel as [|fuel IH]; intros i acc Hi; simpl;
    destruct (Z.ltb_spec i (Z.of_nat (length items))) as [|Hge]; try done.
  - destruct items; [done|]. simpl in Hge. lia.
  - apply IH. lia.
  - destruct items; [done|]. simpl in Hge. lia.
Qed.

(** X2. With a negative batch size the loop of [splitIntoBatches] walks
    away from the end of a non-empty list: no amount of fuel lets the call
    return. *)
Theorem splitIntoBatches_negative_never_returns (items : list string) (B : Z)
    (fuel : nat) :
  B < 0 → items ≠ [] → splitIntoBatches fuel items B = None.
Proof.
  intros HB Hne. unfold splitIntoBatches.
  destruct (Z.eqb_spec B 0); [lia|]. by apply splitLoop_backwards.
Qed.

Lemma splitIntoBatches_negative_never_returns_witness :
  splitIntoBatches 1000 ["a"; "b"] (-1) = None.
Proof.
  apply (splitIntoBatches_negative_never_returns ["a"; "b"] (-1) 1000); [lia | done].
Defined.

(** ** A regular expression that starts with a character *)

Lemma searchFrom_no_first (p : ascii → bool) (r : Regex.t) (input : list ascii) :
  Forall (λ c, p c = false) input →
  ∀ n pos, searchFrom (Chr p :: r) input n pos = None.
Proof.
  intros Hnone n. induction n as [|n IH]; intros pos; simpl.
  - destruct (input !! pos) as [c|] eqn:Hc; [|done].
    rewrite Forall_lookup in Hnone. by rewrite (Hnone pos c Hc).
  - destruct (input !! pos) as [c|] eqn:Hc; [|by apply IH].
    rewrite Forall_lookup in Hnone. rewrite (Hnone pos c Hc). apply IH.
Qed.

Lemma jsMatch_no_first (p : ascii → bool) (r : Regex.t) (s : string) :
  Forall (λ c, p c = false) (JsString.chars s) → jsMatch (Chr p :: r) s = None.
Proof.
  intros Hnone. unfold jsMatch, exec. destruct (_ <=? _)%nat; [|done].
  by apply searchFrom_no_first.
Qed.

Lemma execLoop_no_first {A} (p : ascii → bool) (r : Regex.t) (input : list ascii)
    (f : Regex.result → A) (fuel : nat) (acc : list A) :
  Forall (λ c, p c = false) input →
  execLoop fuel (Chr p :: r) input f 0 acc = Some acc.
Proof.
  intros Hnone.
  assert (Hexec : exec (Chr p :: r) input 0 = None).
  { unfold exec. destruct (_ <=? _)%nat; [|done]. by apply searchFrom_no_first. }
  destruct fuel; simpl; by rewrite Hexec.
Qed.

Lemma extractParams_without_brace (template : string) (fuel : nat) :
  lacks "{" template → extractParams fuel template = Some [].
Proof. intros Hnone. unfold extractParams, paramRegex. by rewrite execLoop_no_first. Qed.

(** X3. A template without an opening brace has no parameter: whatever the
    message says -- name=value tokens, backticks -- and whatever the fuel,
    [resolveTemplateParams] returns the template unchanged. *)
Theorem resolveTemplateParams_without_brace (template userMessage : string) (fuel : nat) :
  lacks "{" template →
  resolveTemplateParams fuel template userMessage = Some template.
Proof.
  intros Hnone. unfold resolveTemplateParams.
  by rewrite extractParams_without_brace.
Qed.

Lemma resolveTemplateParams_without_brace_witness :
  resolveTemplateParams 0 "gh pr list --limit 50" "limit=7 `rm -rf /`"
  = Some "gh pr list --limit 50".
Proof.
  apply (resolveTemplateParams_without_brace "gh pr list --limit 50" "limit=7 `rm -rf /`" 0).
  unfold lacks. apply Forall_forall. intros c Hc.
  vm_compute in Hc. by repeat (apply elem_of_cons in Hc as [->|Hc]; [reflexivity|]);
    apply elem_of_nil in Hc.
Defined.

(** ** Lines *)

Lemma split_cons_ne sep c s :
  Ascii.eqb c sep = false →
  ∃ piece pieces, Lines.split sep s = piece :: pieces
                  ∧ Lines.split sep (c :: s) = (c :: piece) :: pieces.
Proof.
  intros Hc. simpl. rewrite Hc.
  destruct s as [|d s]; simpl; [by eexists _, _|].
  destruct (Ascii.eqb d sep); [by eexists _, _|].
  destruct (Lines.split sep s); by eexists _, _.
Qed.

Lemma split_nonempty sep s : Lines.split sep s ≠ [].
Proof.
  destruct s as [|c s]; simpl; [done|].
  destruct (Ascii.eqb c sep); [done|]. by destruct (Lines.split sep s).
Qed.

Lemma split_no_sep sep s piece :
  piece ∈ Lines.split sep s → Forall (λ c, Ascii.eqb c sep = false) piece.
Proof.
  revert piece. induction s as [|c s IH]; intros piece; simpl.
  - intros ->%list_elem_of_singleton. constructor.
  - destruct (Ascii.eqb c sep) eqn:Hc.
    + intros [->|Hin]%elem_of_cons; [constructor|by apply IH].
    + destruct (Lines.split sep s) as [|p ps] eqn:Hs.
      * intros ->%list_elem_of_singleton. by repeat constructor.
      * intros [->|Hin]%elem_of_cons.
        -- constructor; [done|]. apply IH. by left.
        -- apply IH. by right.
Qed.

Lemma split_join sep pieces :
  pieces ≠ [] →
  Forall (Forall (λ c, Ascii.eqb c sep = false)) pieces →
  Lines.split sep (joinChars [sep] pieces) = pieces.
Proof.
  intros Hne Hall. induction Hall as [|piece rest Hpiece Hrest IH]; [done|].
  clear Hne. destruct rest as [|q rest].
  - simpl. clear IH Hrest. induction Hpiece as [|c piece Hc _ IHp]; [done|].
    destruct (split_cons_ne sep c piece Hc) as (p & ps & Hs & ->).
    rewrite IHp in Hs. by injection Hs as <- <-.
  - specialize (IH ltac:(done)).
    change (joinChars [sep] (piece :: q :: rest))
      with (piece ++ sep :: joinChars [sep] (q :: rest)).
    induction Hpiece as [|c piece Hc _ IHp].
    + remember (joinChars [sep] (q :: rest)) as j. simpl.
      rewrite Ascii.eqb_refl. by rewrite IH.
    + change ((c :: piece) ++ sep :: joinChars [sep] (q :: rest))
        with (c :: (piece ++ sep :: joinChars [sep] (q :: rest))).
      destruct (split_cons_ne sep c (piece ++ sep :: joinChars [sep] (q :: rest)) Hc)
        as (p & ps & Hs & ->).
      rewrite IHp in Hs. by injection Hs as <- <-.
Qed.

Lemma dropSpace_suffix s : ∃ pre, s = pre ++ Lines.dropSpace s.
Proof.
  induction s as [|c s [pre IH]]; simpl; [by exists []|].
  destruct (space c); [|by exists []].
  exists (c :: pre). simpl. by rewrite <- IH.
Qed.

Lemma dropSpace_head s c : head (Lines.dropSpace s) = Some c → space c = false.
Proof.
  induction s as [|d s IH]; simpl; [done|].
  destruct (space d) eqn:Hd; [done|]. simpl. by intros [= <-].
Qed.

Lemma dropSpace_id s :
  (∀ c, head s = Some c → space c = false) → Lines.dropSpace s = s.
Proof. destruct s as [|c s]; simpl; [done|]. intros H. by rewrite (H c). Qed.

Lemma head_reverse {A} (l : list A) : head (reverse l) = last l.
Proof.
  induction l as [|x l IH] using rev_ind; [done|].
  by rewrite reverse_snoc, last_snoc.
Qed.

Lemma last_reverse {A} (l : list A) : last (reverse l) = head l.
Proof. by rewrite <- head_reverse, reverse_involutive. Qed.

Lemma trim_id s :
  (∀ c, head s = Some c → space c = false) →
  (∀ c, last s = Some c → space c = false) →
  Lines.trim s = s.
Proof.
  intros Hh Hl. unfold Lines.trim. rewrite (dropSpace_id s Hh).
  rewrite dropSpace_id; [apply reverse_involutive|].
  intros c. rewrite head_reverse. apply Hl.
Qed.

Lemma trim_infix s : ∃ pre post, s = pre ++ Lines.trim s ++ post.
Proof.
  unfold Lines.trim.
  destruct (dropSpace_suffix s) as [pre Hpre].
  destruct (dropSpace_suffix (reverse (Lines.dropSpace s))) as [post Hpost].
  exists pre, (reverse post). rewrite Hpre at 1. f_equal.
  rewrite <- (reverse_involutive (Lines.dropSpace s)) at 1.
  rewrite Hpost at 1. by rewrite reverse_app.
Qed.

Lemma trim_ends s :
  (∀ c, head (Lines.trim s) = Some c → space c = false)
  ∧ (∀ c, last (Lines.trim s) = Some c → space c = false).
Proof.
  unfold Lines.trim. split; intros c.
  - set (u := Lines.dropSpace s).
    destruct (dropSpace_suffix (reverse u)) as [pre Hpre].
    set (v := Lines.dropSpace (reverse u)) in *.
    intros Hhead.
    assert (Hu : u = reverse v ++ reverse pre)
      by (by rewrite <- reverse_app, <- Hpre, reverse_involutive).
    apply (dropSpace_head s c). fold u. rewrite Hu.
    destruct (reverse v); [done|]. exact Hhead.
  - rewrite last_reverse. apply dropSpace_head.
Qed.

Lemma chars_ofChars (l : list ascii) : JsString.chars (JsString.ofChars l) = l.
Proof. apply String.list_ascii_of_string_of_list_ascii. Qed.

Lemma ofChars_chars (s : string) : JsString.ofChars (JsString.chars s) = s.
Proof. apply String.string_of_list_ascii_of_string. Qed.

Lemma chars_app (a b : string) :
  JsString.chars (a +:+ b) = JsString.chars a ++ JsString.chars b.
Proof.
  induction a as [|x a IH]; [done|].
  change (x :: JsString.chars (a +:+ b) = x :: (JsString.chars a ++ JsString.chars b)).
  by rewrite IH.
Qed.

Lemma chars_concat (sep : string) (items : list string) :
  JsString.chars (String.concat sep items)
  = joinChars (JsString.chars sep) (JsString.chars <$> items).
Proof.
  induction items as [|a [|b items] IH]; [done..|].
  change (JsString.chars (a +:+ sep +:+ String.concat sep (b :: items))
          = JsString.chars a ++ JsString.chars sep
            ++ joinChars (JsString.chars sep) (JsString.chars <$> b :: items)).
  by rewrite !chars_app, IH.
Qed.

Lemma filter_all {A} (P : A → Prop) `{∀ x, Decision (P x)} (l : list A) :
  Forall P l → filter P l = l.
Proof.
  induction 1 as [|x l Hx _ IH]; [done|]. by rewrite filter_cons_True, IH.
Qed.

Lemma cleanLine_trim (s : list ascii) : cleanLine s → Lines.trim s = s.
Proof. intros (_ & _ & Hh & Hl). by apply trim_id. Qed.

(** X4. Every item that line splitting returns is a clean line: it is not
    empty, holds no line feed, and neither starts nor ends with white space. *)
Theorem lines_clean (raw : string) :
  Forall (λ item, cleanLine (JsString.chars item)) (Lines.lines raw).
Proof.
  unfold Lines.lines, Lines.nonEmpty.
  apply Forall_fmap, Forall_forall. intros s [Hs Hin]%list_elem_of_filter.
  apply list_elem_of_fmap in Hin as (piece & -> & Hin). simpl.
  rewrite chars_ofChars. split_and!; [done| |apply trim_ends..].
  apply split_no_sep in Hin.
  destruct (trim_infix piece) as (pre & post & Heq). rewrite Heq in Hin.
  by apply Forall_app in Hin as [_ [Hin _]%Forall_app].
Qed.

Lemma lines_of_pieces (pieces : list (list ascii)) :
  Forall cleanLine pieces →
  Lines.nonEmpty (Lines.trim <$> Lines.split "010" (joinChars ["010"%char] pieces))
  = pieces.
Proof.
  intros Hclean. destruct pieces as [|a pieces]; [done|].
  rewrite split_join.
  - assert (Htrim : Lines.trim <$> a :: pieces = a :: pieces).
    { rewrite <- (list_fmap_id (a :: pieces)) at 2. apply list_fmap_ext.
      intros i x Hx. simpl. apply cleanLine_trim.
      by apply (Forall_lookup_1 _ _ _ _ Hclean Hx). }
    rewrite Htrim. unfold Lines.nonEmpty. rewrite filter_all; [done|].
    eapply Forall_impl; [exact Hclean|]. by intros x (Hne & _).
  - done.
  - eapply Forall_impl; [exact Hclean|]. by intros x (_ & Hlf & _).
Qed.

Lemma fmap_ofChars_chars (items : list string) :
  JsString.ofChars <$> (JsString.chars <$> items) = items.
Proof.
  rewrite <- list_fmap_compose. rewrite <- (list_fmap_id items) at 2.
  apply list_fmap_ext. intros i x _. apply ofChars_chars.
Qed.

(** X5. Line splitting undoes joining: clean lines joined with line feeds
    are split into exactly those lines, in order. *)
Theorem lines_join (items : list string) :
  Forall (λ item, cleanLine (JsString.chars item)) items →
  Lines.lines (String.concat nl items) = items.
Proof.
  intros Hclean. unfold Lines.lines. rewrite chars_concat.
  change (JsString.chars nl) with ["010"%char].
  rewrite lines_of_pieces; [apply fmap_ofChars_chars|].
  by apply Forall_fmap.
Qed.

Lemma lines_join_witness :
  Lines.lines (String.concat nl ["alpha beta"; "gamma"; "d"])
  = ["alpha beta"; "gamma"; "d"].
Proof.
  apply (lines_join ["alpha beta"; "gamma"; "d"]).
  repeat constructor; try done; by intros c [= <-].
Defined.

(** ** Input resolution *)

Lemma lacks_concat (x : ascii) (sep : string) (items : list string) :
  lacks x sep → Forall (lacks x) items → lacks x (String.concat sep items).
Proof.
  unfold lacks. intros Hsep Hitems. rewrite chars_concat.
  induction Hitems as [|a items Ha Hitems IH]; [constructor|].
  destruct items as [|b items]; [done|].
  change (Forall (λ c, chr x c = false)
            (JsString.chars a ++ JsString.chars sep
             ++ joinChars (JsString.chars sep) (JsString.chars <$> b :: items))).
  by rewrite !Forall_app.
Qed.

Lemma extractInlineItems_without_bracket (env : Input.Env) (message : string) :
  lacks "[" message → Input.extractInlineItems env message = None.
Proof.
  intros Hnone. unfold Input.extractInlineItems, Input.arrayRegex.
  by rewrite jsMatch_no_first.
Qed.

Lemma readFiles_absent env type paths allItems :
  Forall (λ path, Input.files env path = Input.Absent) paths →
  Input.readFiles env type paths allItems = inl allItems.
Proof. induction 1 as [|path paths Hp _ IH]; simpl; [done|]. by rewrite Hp. Qed.

(** X6. Attached files that do not exist are skipped without a word: the
    outcome is that of a call with no files attached. *)
Theorem resolveInputItems_absent_files (fuel : nat) (env : Input.Env)
    (input : option Input.InputConfig) (userMessage : string) (paths : list string) :
  Forall (λ path, Input.files env path = Input.Absent) paths →
  Input.resolveInputItems fuel env input userMessage (Some paths)
  = Input.resolveInputItems fuel env input userMessage None.
Proof.
  intros Habsent. unfold Input.resolveInputItems.
  destruct (Input.extractInlineItems env userMessage); [done|].
  destruct paths as [|path paths]; [done|].
  rewrite readFiles_absent; [|done].
  by destruct (Input.afterFiles fuel env input userMessage).
Qed.

Lemma resolveInputItems_absent_files_witness :
  Input.resolveInputItems 9 ghEnv (Some (Input.mkInput (Some "gh pr list") None))
    "review them" (Some ["/tmp/a.txt"; "/tmp/b.txt"])
  = Input.resolveInputItems 9 ghEnv (Some (Input.mkInput (Some "gh pr list") None))
    "review them" None.
Proof.
  apply (resolveInputItems_absent_files 9 ghEnv
           (Some (Input.mkInput (Some "gh pr list") None)) "review them"
           ["/tmp/a.txt"; "/tmp/b.txt"]).
  by repeat constructor.
Defined.

(** X7. A configured command without an opening brace is run as it stands,
    once, when the message holds no bracket and no file is attached:
    backticks and [name=value] tokens of the message change nothing, the
    items are the parsed output whatever it is (an empty output gives no
    items and no further attempt), and a failure of the command is the
    failure of the call. *)
Theorem resolveInputItems_configured_command (fuel : nat) (env : Input.Env)
    (config : Input.InputConfig) (userMessage cmd : string) :
  lacks "[" userMessage →
  Input.command config = Some cmd →
  cmd ≠ EmptyString →
  lacks "{" cmd →
  Input.resolveInputItems fuel env (Some config) userMessage None
  = Some (Input.mkRun
            match Input.runShellCommand env cmd with
            | Resolved output =>
                Input.Items (Input.parseItems env output (Input.typeOf (Some config)))
            | Rejected message => Input.Threw message
            end
            [cmd]).
Proof.
  intros Hmsg Hcmd Hne Hbrace. unfold Input.resolveInputItems.
  rewrite extractInlineItems_without_bracket; [|done].
  unfold Input.afterFiles. simpl. rewrite Hcmd. simpl.
  destruct (decide (cmd = EmptyString)); [done|].
  unfold resolveTemplateParams. rewrite extractParams_without_brace; [|done]. simpl.
  unfold Input.fromCommand. by destruct (Input.runShellCommand env cmd).
Qed.

Lemma resolveInputItems_configured_command_witness :
  Input.resolveInputItems 0 ghEnv (Some (Input.mkInput (Some "gh pr list") None))
    "limit=7 `rm -rf /`" None
  = Some (Input.mkRun (Input.Items ["#1 fix"; "#2 docs"]) ["gh pr list"]).
Proof.
  apply (resolveInputItems_configured_command 0 ghEnv
           (Input.mkInput (Some "gh pr list") None) "limit=7 `rm -rf /`" "gh pr list").
  - unfold lacks. vm_compute. by repeat constructor.
  - reflexivity.
  - done.
  - unfold lacks. vm_compute. by repeat constructor.
Defined.

(** X8. With no command configured and no file attached, a message of two
    or more clean lines without bracket and backtick is its own list of
    items; a message of one such line gives no items at all.  No command is
    run. *)
Theorem resolveInputItems_message_lines (fuel : nat) (env : Input.Env)
    (input : option Input.InputConfig) (items : list string) :
  Forall (λ item, cleanLine (JsString.chars item)) items →
  Forall (lacks "[") items →
  Forall (lacks "`") items →
  truthy (input ≫= Input.command) = None →
  Input.resolveInputItems fuel env input (String.concat nl items) None
  = Some (Input.mkRun (Input.Items (if (1 <? length items)%nat then items else [])) []).
Proof.
  intros Hclean Hbr Hbt Hcmd. unfold Input.resolveInputItems.
  rewrite extractInlineItems_without_bracket
    by (apply lacks_concat; [by repeat constructor|done]).
  unfold Input.afterFiles. rewrite Hcmd.
  unfold backtickRegex. rewrite jsMatch_no_first
    by (apply (lacks_concat "`"); [by repeat constructor|done]).
  unfold Lines.lines. rewrite chars_concat.
  change (JsString.chars nl) with ["010"%char].
  rewrite lines_of_pieces by (by apply Forall_fmap).
  by rewrite fmap_ofChars_chars.
Qed.

Lemma resolveInputItems_message_lines_witness :
  Input.resolveInputItems 0 emptyEnv None
    (String.concat nl ["alpha beta"; "gamma"; "d"]) None
  = Some (Input.mkRun (Input.Items ["alpha beta"; "gamma"; "d"]) []).
Proof.
  apply (resolveInputItems_message_lines 0 emptyEnv None ["alpha beta"; "gamma"; "d"]).
  - repeat constructor; try done; by intros c [= <-].
  - unfold lacks. vm_compute. by repeat constructor.
  - unfold lacks. vm_compute. by repeat constructor.
  - reflexivity.
Defined.

(** X9. The two scanning loops of [resolveTemplateParams] end on every
    input: each match of either regular expression consumes a character, so
    with more fuel than the longer of the two strings the function returns. *)
Theorem resolveTemplateParams_returns (template userMessage : string) (fuel : nat) :
  (String.length template < fuel)%nat →
  (String.length userMessage < fuel)%nat →
  is_Some (resolveTemplateParams fuel template userMessage).
Proof.
  intros Ht Hm. unfold resolveTemplateParams, extractParams, extractKv.
  destruct (execLoop_total paramRegex (JsString.chars template)
              (λ m, group (JsString.chars template) m 1) ltac:(simpl; lia)
              fuel 0%nat []) as [params ->].
  { rewrite length_chars. lia. }
  destruct params as [|param params]; [done|]. simpl.
  destruct (execLoop_total kvRegex (JsString.chars userMessage)
              (λ m, (group (JsString.chars userMessage) m 1,
                     group (JsString.chars userMessage) m 2)) ltac:(simpl; lia)
              fuel 0%nat []) as [pairs ->].
  { rewrite length_chars. lia. }
  done.
Qed.

Lemma resolveTemplateParams_returns_witness :
  is_Some (resolveTemplateParams 30 "gh {{repo}} {{limit}}" "a/b limit=5 limit=77").
Proof.
  apply (resolveTemplateParams_returns "gh {{repo}} {{limit}}" "a/b limit=5 limit=77" 30);
    simpl; lia.
Defined.

(** ** The worker pool: what the results say *)

Lemma NoDup_index_ne (bs : list SwarmBatch.t) i j bi bj :
  NoDup (SwarmBatch.index <$> bs) → i ≠ j →
  bs !! i = Some bi → bs !! j = Some bj → SwarmBatch.index bi ≠ SwarmBatch.index bj.
Proof.
  intros Hnd Hne Hi Hj Heq. apply Hne.
  eapply (NoDup_lookup _ i j); [exact Hnd| |].
  - by rewrite list_lookup_fmap, Hi.
  - by rewrite list_lookup_fmap, Hj, Heq.
Qed.

(** A step that changes the batch and the task at [pos] only, and no
    result. *)
Lemma local_recInv worker bs p p' pos b0 b' tk' :
  recInv worker bs p →
  bs !! pos = Some b0 →
  batches p' = <[pos := b']> (batches p) →
  tasks p' = <[pos := tk']> (tasks p) →
  results p' = results p →
  isActive tk' = true →
  recordInv worker bs p' pos b0 b' tk' →
  recInv worker bs p'.
Proof.
  intros Hinv Hb0 Hbs Hts Hrs Hact Hnew j c0 c tj Hc0. rewrite Hbs, Hts.
  destruct (decide (pos = j)) as [<-|Hne].
  - intros Hc Htj.
    apply list_lookup_insert_Some in Hc as [(_ & <- & _)|[? _]]; [|done].
    apply list_lookup_insert_Some in Htj as [(_ & <- & _)|[? _]]; [|done].
    by replace c0 with b0 by congruence.
  - rewrite !list_lookup_insert_ne by done. intros Hc Htj.
    pose proof (Hinv j c0 c tj Hc0 Hc Htj) as Hold.
    unfold recordInv in *. by rewrite Hrs.
Qed.

(** The step that ends the task at [pos]. *)
Lemma finish_recInv worker opts bs p pos b0 b a st le now success result lastError :
  semInv opts p → recInv worker bs p →
  bs !! pos = Some b0 → tasks p !! pos = Some (Invoking a st le) →
  SwarmBatch.index b = SwarmBatch.index b0 →
  SwarmBatch.items b = SwarmBatch.items b0 →
  SwarmBatch.startTime b = Some st →
  (pos < length (batches p))%nat →
  verdict worker pos (batchResultOf b now st success result lastError) →
  recInv worker bs (finishBatch opts p pos b now st success result lastError).
Proof.
  intros Hsem Hinv Hb0 Htk Hidx Hitems Hst Hlen Hverdict j c0 c tj Hc0.
  destruct (finishBatch_shape opts p pos b now st success result lastError)
    as (Hbs & Hrs & _ & _ & _ & _).
  pose proof (finishBatch_tasks opts p pos b (Invoking a st le) now st success result
                lastError Hsem Htk eq_refl) as Hts.
  rewrite Hbs. intros Hc Htj.
  destruct (decide (pos = j)) as [<-|Hne].
  - rewrite list_lookup_insert_eq in Hc by done. injection Hc as <-.
    replace c0 with b0 by congruence.
    assert (Hdone : tj = Finished ∨ tj = Threw).
    { destruct Hts as [Hts|[Hts|(next & Hn & Hnp & Hts)]]; rewrite Hts in Htj.
      - rewrite list_lookup_insert_eq in Htj by (by eapply lookup_lt_Some).
        injection Htj as <-. by right.
      - rewrite list_lookup_insert_eq in Htj by (by eapply lookup_lt_Some).
        injection Htj as <-. by left.
      - rewrite list_lookup_insert_ne in Htj by done.
        rewrite list_lookup_insert_eq in Htj by (by eapply lookup_lt_Some).
        injection Htj as <-. by left. }
    assert (Hrec : recordInv worker bs
                     (finishBatch opts p pos b now st success result lastError)
                     pos b0 (closed b now success result lastError) Finished).
    { unfold recordInv. split_and!.
      - by destruct success.
      - by destruct success.
      - exists (batchResultOf b now st success result lastError). split_and!.
        + unfold recorded. split_and!.
          * by destruct success.
          * by destruct success.
          * exists st, now. by destruct success.
        + done.
        + intros _. rewrite Hrs.
          replace (SwarmBatch.index (closed b now success result lastError))
            with (SwarmBatch.index b) by (by destruct success).
          apply lookup_arraySet_eq. }
    by destruct Hdone as [-> | ->].
  - rewrite list_lookup_insert_ne in Hc by done.
    assert (Hold : ∀ tj', tasks p !! j = Some tj' →
              (tj' = tj ∨ (tj' = Queued ∧ tj = Granted)) →
              recordInv worker bs
                (finishBatch opts p pos b now st success result lastError) j c0 c tj).
    { intros tj' Htj' Hcase. pose proof (Hinv j c0 c tj' Hc0 Hc Htj') as Hold.
      destruct Hcase as [->|[-> ->]]; [|exact Hold].
      unfold recordInv in *. destruct Hold as (Hi & Hit & Hold). split_and!; try done.
      destruct tj; try done.
      all: destruct Hold as (br & Hrec & Hv & Hres); exists br; split_and!; try done.
      all: intros Hnd; rewrite Hrs; apply lookup_arraySet_ne; [|by apply Hres].
      all: rewrite Hidx, Hi; by eapply NoDup_index_ne. }
    destruct Hts as [Hts|[Hts|(next & Hn & Hnp & Hts)]]; rewrite Hts in Htj.
    + rewrite list_lookup_insert_ne in Htj by done. eapply Hold; [done|by left].
    + rewrite list_lookup_insert_ne in Htj by done. eapply Hold; [done|by left].
    + destruct (decide (next = j)) as [<-|Hnj].
      * rewrite list_lookup_insert_eq in Htj
          by (rewrite length_insert; by eapply lookup_lt_Some).
        injection Htj as <-. eapply Hold; [done|by right].
      * rewrite !list_lookup_insert_ne in Htj by done.
        eapply Hold; [done|by left].
Qed.

Lemma transition_recInv worker opts bs p pos now p' :
  semInv opts p → traceInv worker p → recInv worker bs p →
  length (batches p) = length bs →
  transition worker opts p pos now p' → recInv worker bs p'.
Proof.
  intros Hsem Htrace Hinv Hlen Hstep.
  assert (Hb0 : ∀ b, batches p !! pos = Some b → ∃ b0, bs !! pos = Some b0).
  { intros b Hb. apply lookup_lt_is_Some. rewrite <- Hlen. by eapply lookup_lt_Some. }
  destruct Hstep as [b Hb Htk|b a st le Hb Htk|b a st le m Hb Htk Hw Ha
                    |b a st le v Hb Htk Hw|b a st le m Hb Htk Hw Ha];
    destruct (Hb0 b Hb) as [b0 Hbs];
    pose proof (Hinv pos b0 b _ Hbs Hb Htk) as (Hidx & Hitems & Hold);
    pose proof (Htrace pos b _ Hb Htk) as Hknown; simpl in Hknown.
  - eapply (local_recInv _ _ p _ pos b0); try done.
  - eapply (local_recInv _ _ p _ pos b0); try done.
  - eapply (local_recInv _ _ p _ pos b0); try done.
  - destruct Hknown as (Ha & _ & Hrej & _). destruct Hold as [_ Hst].
    eapply finish_recInv; try done; [by eapply lookup_lt_Some|].
    left. exists a, v. by split_and!.
  - destruct Hknown as (Ha' & _ & Hrej & _). destruct Hold as [_ Hst].
    assert (a = SWARM_DEFAULTS.max_retries) as -> by lia.
    eapply finish_recInv; try done; [by eapply lookup_lt_Some|].
    right. exists m. split_and!; try done. by eapply rejectedBefore_S.
Qed.

Lemma reachable_recInv worker opts bs p :
  reachable worker opts bs p → recInv worker bs p.
Proof.
  intros Hreach. pose proof Hreach as Hreach0. revert p Hreach Hreach0.
  unfold reachable at 1.
  apply (rtc_ind_r (λ p, reachable worker opts bs p → recInv worker bs p));
    [intros _|intros p1 p2 Hsteps Hstep IH _].
  - destruct (start_prefix opts bs (length bs))
      as (_ & _ & Hbs & _ & _ & _ & _ & Hall).
    fold (start bs opts) in *. intros pos b0 b tk Hb0 Hb Htk.
    rewrite Hbs in Hb. replace b0 with b by congruence.
    rewrite Forall_lookup in Hall. unfold recordInv.
    by destruct (Hall pos tk Htk) as [-> | ->].
  - destruct (reachable_semInv worker opts bs p1 Hsteps) as [Hsem _].
    destruct Hstep as (pos & now & Hstep%resume_transition).
    eapply transition_recInv; try done.
    + by eapply reachable_traceInv.
    + by apply IH.
    + apply (res_batches _ _ (reachable_resInv worker opts bs p1 Hsteps)).
Qed.

Lemma recordInv_done worker bs p pos b0 b tk :
  isDone tk = true → recordInv worker bs p pos b0 b tk →
  ∃ br, recorded b br ∧ verdict worker pos br
        ∧ (NoDup (SwarmBatch.index <$> bs) →
           results p !! SwarmBatch.index b0 = Some (Some br)).
Proof.
  intros Hdone (Hidx & _ & Hcase). rewrite <- Hidx. by destruct tk.
Qed.

Lemma returned_results worker opts bs p rs :
  NoDup (SwarmBatch.index <$> bs) →
  reachable worker opts bs p →
  poolCall p = Returned rs →
  ∀ pos b0, bs !! pos = Some b0 →
    ∃ b br,
      batches p !! pos = Some b
      ∧ rs !! SwarmBatch.index b0 = Some (Some br)
      ∧ SwarmBatch.items b = SwarmBatch.items b0
      ∧ recorded b br ∧ verdict worker pos br.
Proof.
  intros Hnd Hreach [Hfin ->]%poolCall_Returned pos b0 Hb0.
  destruct (reachable_semInv worker opts bs p Hreach) as [_ Hlen].
  pose proof (res_batches _ _ (reachable_resInv worker opts bs p Hreach)) as Hlenb.
  pose proof (lookup_lt_Some _ _ _ Hb0) as Hpos.
  destruct (lookup_lt_is_Some_2 (batches p) pos ltac:(lia)) as [b Hb].
  destruct (lookup_lt_is_Some_2 (tasks p) pos ltac:(lia)) as [tk Htk].
  pose proof (Forall_lookup_1 _ _ _ _ Hfin Htk) as ->.
  pose proof (reachable_recInv worker opts bs p Hreach pos b0 b Finished Hb0 Hb Htk)
    as Hrec.
  destruct (recordInv_done worker bs p pos b0 b Finished eq_refl Hrec)
    as (br & Hr & Hv & Hres).
  destruct Hrec as (_ & Hitems & _).
  exists b, br. split_and!; try done. by apply Hres.
Qed.

(** X10. The results are those of the worker.  When the indices of the
    batches are distinct, every batch whose task has ended -- and so, when
    the pool returns, every batch -- has its result at its own index; the
    result is a success with the value of the first of the three attempts
    that the worker answered, all earlier ones having failed, or a failure
    with the message of the third failed attempt; the batch record agrees
    with it on status, result and error, and the duration is the time
    between the recorded start and end. *)
Theorem results_tell_the_worker (worker : Worker) (opts : WorkerPoolOptions)
    (bs : list SwarmBatch.t) (p : Pool.t) :
  NoDup (SwarmBatch.index <$> bs) →
  reachable worker opts bs p →
  (∀ pos b0 b tk,
     bs !! pos = Some b0 → batches p !! pos = Some b → tasks p !! pos = Some tk →
     isDone tk = true →
     ∃ br, results p !! SwarmBatch.index b0 = Some (Some br)
           ∧ recorded b br ∧ verdict worker pos br)
  ∧ (∀ rs, poolCall p = Returned rs →
       ∀ pos b0, bs !! pos = Some b0 →
         ∃ b br,
           batches p !! pos = Some b
           ∧ rs !! SwarmBatch.index b0 = Some (Some br)
           ∧ SwarmBatch.items b = SwarmBatch.items b0
           ∧ recorded b br ∧ verdict worker pos br).
Proof.
  intros Hnd Hreach. split.
  - intros pos b0 b tk Hb0 Hb Htk Hdone.
    pose proof (reachable_recInv worker opts bs p Hreach pos b0 b tk Hb0 Hb Htk) as Hrec.
    destruct (recordInv_done _ _ _ _ _ _ _ Hdone Hrec) as (br & Hr & Hv & Hres).
    exists br. split_and!; try done. by apply Hres.
  - intros rs Hcall. by eapply returned_results.
Qed.

Lemma results_tell_the_worker_witness :
  ∃ p,
    run flakyWorker twoSlots (start threeBatches twoSlots) flakySchedule = Some p
    ∧ ∀ rs, poolCall p = Returned rs →
        ∀ pos b0, threeBatches !! pos = Some b0 →
          ∃ b br,
            batches p !! pos = Some b
            ∧ rs !! SwarmBatch.index b0 = Some (Some br)
            ∧ SwarmBatch.items b = SwarmBatch.items b0
            ∧ recorded b br ∧ verdict flakyWorker pos br.
Proof.
  destruct (run flakyWorker twoSlots (start threeBatches twoSlots) flakySchedule)
    as [p|] eqn:Hrun; [|by vm_compute in Hrun].
  exists p. split; [done|].
  apply (results_tell_the_worker flakyWorker twoSlots threeBatches p).
  - by apply (bool_decide_unpack _).
  - by apply (run_reachable _ _ _ flakySchedule).
Defined.

(** X11. The pool changes neither the index nor the items of a batch, and
    the record follows the task: untouched while the task waits for a slot,
    [processing] with a start time between the first call of the worker and
    the end, and [completed] or [failed] with start and end time once the
    task has ended. *)
Theorem batch_records_follow_tasks (worker : Worker) (opts : WorkerPoolOptions)
    (bs : list SwarmBatch.t) (p : Pool.t) (pos : nat) (b0 b : SwarmBatch.t) (tk : task) :
  reachable worker opts bs p →
  bs !! pos = Some b0 → batches p !! pos = Some b → tasks p !! pos = Some tk →
  SwarmBatch.index b = SwarmBatch.index b0
  ∧ SwarmBatch.items b = SwarmBatch.items b0
  ∧ (tk = Queued ∨ tk = Granted → b = b0)
  ∧ (isActive tk = true →
     SwarmBatch.status b = Status.processing
     ∧ ∃ st, SwarmBatch.startTime b = Some st)
  ∧ (isDone tk = true →
     terminal (SwarmBatch.status b) = true
     ∧ ∃ st et, SwarmBatch.startTime b = Some st ∧ SwarmBatch.endTime b = Some et).
Proof.
  intros Hreach Hb0 Hb Htk.
  destruct (reachable_recInv worker opts bs p Hreach pos b0 b tk Hb0 Hb Htk)
    as (Hidx & Hitems & Hcase).
  split_and!; try done.
  - by intros [-> | ->].
  - destruct tk; try done; destruct Hcase as [? ?]; eauto.
  - intros Hdone.
    assert (∃ br, recorded b br) as (br & _ & Hst & st & et & Hs & He & _).
    { destruct tk; try done; destruct Hcase as (br & ? & _); eauto. }
    split; [|by eauto].
    destruct (BatchResult.success br); destruct Hst as [-> _]; done.
Qed.

Lemma batch_records_follow_tasks_witness :
  ∃ p,
    run flakyWorker twoSlots (start threeBatches twoSlots) (take 5 flakySchedule) = Some p
    ∧ tasks p !! 2%nat = Some Queued
    ∧ batches p !! 2%nat = threeBatches !! 2%nat.
Proof.
  destruct (run flakyWorker twoSlots (start threeBatches twoSlots) (take 5 flakySchedule))
    as [p|] eqn:Hrun; [|by vm_compute in Hrun].
  assert (Htk : tasks p !! 2%nat = Some Queued)
    by (vm_compute in Hrun; injection Hrun as <-; reflexivity).
  destruct (batches p !! 2%nat) as [b|] eqn:Hb;
    [|by vm_compute in Hrun; injection Hrun as <-].
  exists p. split_and!; try done.
  destruct (batch_records_follow_tasks flakyWorker twoSlots threeBatches p 2
              (SwarmBatch.mk 2 ["x3"] Status.pending None None None None 0) b Queued
              (run_reachable _ _ _ (take 5 flakySchedule) _ Hrun) eq_refl Hb Htk)
    as (_ & _ & Hsame & _).
  rewrite Hb, Hsame; [reflexivity|by left].
Defined.

Lemma index_seq (bs : list SwarmBatch.t) :
  (∀ (k : nat) b, bs !! k = Some b → SwarmBatch.index b = k) →
  SwarmBatch.index <$> bs = seq 0 (length bs).
Proof.
  intros Hidx. apply list_eq. intros k. rewrite list_lookup_fmap.
  destruct (bs !! k) as [b|] eqn:Hb; simpl.
  - rewrite (Hidx k b Hb). symmetry. apply lookup_seq. split; [done|].
    by eapply lookup_lt_Some.
  - symmetry. apply lookup_seq_ge. by apply lookup_ge_None.
Qed.

(** X12. Splitting and processing compose.  The batches that
    [splitIntoBatches] makes of a list, for a batch size [B >= 0], can be
    handed to the pool as they are; when the pool returns, the array has one
    result for each batch, [ceil (L / size)] of them, and the result at [k]
    is that of the worker for the batch at [k], whose items are the [k]-th
    slice of the list. *)
Theorem split_then_process (worker : Worker) (opts : WorkerPoolOptions)
    (items : list string) (B : Z) (fuel : nat) :
  0 ≤ B → (length items ≤ fuel)%nat →
  ∃ bs,
    splitIntoBatches fuel items B = Some bs
    ∧ ∀ p rs,
        reachable worker opts bs p → poolCall p = Returned rs →
        Z.of_nat (length rs)
        = ceil_div (Z.of_nat (length items)) (if B =? 0 then 25 else B)
        ∧ ∀ k, (k < length rs)%nat →
            ∃ b br,
              batches p !! k = Some b
              ∧ SwarmBatch.items b
                = take (Z.to_nat (if B =? 0 then 25 else B))
                    (drop (k * Z.to_nat (if B =? 0 then 25 else B)) items)
              ∧ rs !! k = Some (Some br)
              ∧ BatchResult.batchIndex br = k
              ∧ recorded b br ∧ verdict worker k br.
Proof.
  intros HB Hfuel. unfold splitIntoBatches.
  change SWARM_DEFAULTS.batch_size with 25.
  set (size := if B =? 0 then 25 else B).
  assert (Hsize : 1 ≤ size) by (subst size; destruct (Z.eqb_spec B 0); lia).
  destruct (splitLoop_spec items size Hsize fuel 0 [])
    as (bs & Hrun & Hlen & _ & Hall); [lia|lia|].
  simpl in Hrun. exists bs. split; [done|]. intros p rs Hreach Hcall.
  assert (Hidx : ∀ (k : nat) b, bs !! k = Some b → SwarmBatch.index b = k).
  { intros k b Hk. by destruct (Hall k b Hk) as [-> _]. }
  assert (Hnd : NoDup (SwarmBatch.index <$> bs)).
  { rewrite index_seq by done. apply NoDup_seq. }
  pose proof (reachable_resInv worker opts bs p Hreach) as Hres.
  pose proof Hcall as [_ ->]%poolCall_Returned.
  assert (Hlenr : length (results p) = length bs).
  { apply (res_length _ _ Hres). intros b [k Hk]%list_elem_of_lookup.
    rewrite (Hidx k b Hk). by eapply lookup_lt_Some. }
  split; [by rewrite Hlenr, Hlen, Z.sub_0_r|].
  intros k Hk. rewrite Hlenr in Hk.
  destruct (lookup_lt_is_Some_2 bs k Hk) as [b0 Hb0].
  destruct (returned_results worker opts bs p (results p) Hnd Hreach Hcall k b0 Hb0)
    as (b & br & Hb & Hbr & Hitems & Hrec & Hv).
  rewrite (Hidx k b0 Hb0) in Hbr.
  exists b, br. split_and!; try done.
  - rewrite Hitems.
    by rewrite (splitLoop_slices items size fuel Hsize 0 [] bs ltac:(lia) Hrun k b0 Hb0).
  - by apply (res_own _ _ Hres).
Qed.

Lemma split_then_process_witness :
  ∃ bs p,
    splitIntoBatches 5 ["a"; "b"; "c"; "d"; "e"] 2 = Some bs
    ∧ run promptWorker twoSlots (start bs twoSlots)
        [(0%nat, 1); (0%nat, 2); (1%nat, 3); (1%nat, 4); (2%nat, 5); (2%nat, 6)] = Some p
    ∧ Z.of_nat (length (results p)) = ceil_div 5 2.
Proof.
  destruct (split_then_process promptWorker twoSlots ["a"; "b"; "c"; "d"; "e"] 2 5)
    as (bs & Hbs & Hall); [lia|simpl; lia|].
  exists bs.
  assert (Hbs' := Hbs). vm_compute in Hbs'. injection Hbs' as Hbs'.
  destruct (run promptWorker twoSlots (start bs twoSlots)
              [(0%nat, 1); (0%nat, 2); (1%nat, 3); (1%nat, 4); (2%nat, 5); (2%nat, 6)])
    as [p|] eqn:Hrun; [|by rewrite <- Hbs' in Hrun; vm_compute in Hrun].
  exists p. split_and!; try done.
  assert (Hcall : poolCall p = Returned (results p)).
  { clear Hall Hbs. subst bs. vm_compute in Hrun. by injection Hrun as <-. }
  by destruct (Hall p (results p) (run_reachable _ _ _ _ _ Hrun) Hcall) as [Hlen _].
Defined.

(** ** The worker pool: slots lost to a throwing callback *)

Lemma slots_live_thrown (l : list task) :
  slots l = (countb isLive l + thrown l)%nat.
Proof.
  induction l as [|tk l IH]; [done|].
  rewrite !countb_cons, IH. destruct tk; simpl; lia.
Qed.

Lemma countb_pos (f : task → bool) (l : list task) i tk :
  l !! i = Some tk → f tk = true → (1 ≤ countb f l)%nat.
Proof.
  intros Hi Hf. unfold countb.
  assert (Hin : tk ∈ filter (λ tk, f tk = true) l).
  { apply list_elem_of_filter. split; [done|]. by eapply list_elem_of_lookup_2. }
  destruct (filter _ l); [by apply elem_of_nil in Hin|simpl; lia].
Qed.

(** X13. A completion callback that throws costs a slot for good: the
    task ends without [release], so the tasks that can still run and the
    tasks that threw together never exceed the concurrency limit, the call
    has failed as soon as one task threw, and once as many tasks threw as
    there are slots nothing can be resumed any more -- the batches still
    queued are never processed. *)
Theorem thrown_callbacks_hold_slots (worker : Worker) (opts : WorkerPoolOptions)
    (bs : list SwarmBatch.t) (p : Pool.t) :
  reachable worker opts bs p →
  Z.of_nat (countb isLive (tasks p)) + Z.of_nat (thrown (tasks p)) ≤ concurrencyOf opts
  ∧ ((1 ≤ thrown (tasks p))%nat → poolCall p = Failed)
  ∧ (Z.of_nat (thrown (tasks p)) = concurrencyOf opts →
     ∀ pos now, resume worker opts p pos now = None).
Proof.
  intros Hreach.
  destruct (reachable_semInv worker opts bs p Hreach) as [Hsem _].
  pose proof (sem_bound _ _ Hsem) as Hbound.
  rewrite slots_live_thrown in Hbound.
  split_and!.
  - lia.
  - intros (i & tk & Hi & Htk)%countb_exists. unfold poolCall.
    replace (existsb isThrew (tasks p)) with true; [done|].
    symmetry. apply existsb_exists. exists tk. split; [|done].
    apply list_elem_of_In. by eapply list_elem_of_lookup_2.
  - intros Hall pos now. unfold resume.
    destruct (batches p !! pos) as [b|]; [|done].
    destruct (tasks p !! pos) as [tk|] eqn:Htk; [|done]. simpl.
    assert (Hdead : isLive tk = false).
    { destruct (isLive tk) eqn:Hlive; [|done].
      pose proof (countb_pos isLive _ _ _ Htk Hlive). lia. }
    by destruct tk.
Qed.

Lemma thrown_callbacks_hold_slots_witness :
  ∃ p,
    run promptWorker throwingOptions (start threeBatches throwingOptions)
      [(0%nat, 10); (0%nat, 11)] = Some p
    ∧ SwarmBatch.status <$> batches p
      = [Status.completed; Status.pending; Status.pending]
    ∧ ∀ pos now, resume promptWorker throwingOptions p pos now = None.
Proof.
  destruct (run promptWorker throwingOptions (start threeBatches throwingOptions)
              [(0%nat, 10); (0%nat, 11)]) as [p|] eqn:Hrun; [|by vm_compute in Hrun].
  exists p. split; [done|].
  destruct (thrown_callbacks_hold_slots promptWorker throwingOptions threeBatches p
              (run_reachable _ _ _ _ _ Hrun)) as (_ & _ & Hstuck).
  assert (Hp := Hrun). vm_compute in Hp. injection Hp as Hp.
  split; [by rewrite <- Hp|].
  apply Hstuck. by rewrite <- Hp.
Defined.

(** ** Prompt rendering: one pass of replacement *)

Lemma matchAt_literal (pat : string) (input : list ascii) : ∀ pos,
  matchAt (Prompt.literal pat) input pos
  = if JsString.startsWith (JsString.chars pat) (drop pos input)
    then Some ((pos + String.length pat)%nat, [])
    else None.
Proof.
  unfold Prompt.literal.
  induction pat as [|x pat IH]; intros pos.
  - simpl. by rewrite Nat.add_0_r.
  - change (JsString.chars (String x pat)) with (x :: JsString.chars pat).
    rewrite fmap_cons.
    change (matchAt (Chr (chr x) :: ?r) input pos)
      with (match input !! pos with
            | Some c => if chr x c then matchAt r input (S pos) else None
            | None => None
            end).
    destruct (input !! pos) as [c|] eqn:Hc.
    + rewrite (drop_S _ _ _ Hc). simpl JsString.startsWith.
      unfold chr. rewrite (Ascii.eqb_sym x c).
      destruct (Ascii.eqb c x); [|done]. rewrite IH. simpl.
      by rewrite Nat.add_succ_r.
    + rewrite drop_ge by (by apply lookup_ge_None). done.
Qed.

Lemma searchFrom_found (r : Regex.t) (input : list ascii) e ms : ∀ k n pos,
  (∀ j, (j < k)%nat → matchAt r input (pos + j) = None) →
  matchAt r input (pos + k) = Some (e, ms) →
  (k ≤ n)%nat →
  searchFrom r input n pos = Some (mkResult (pos + k) e ms).
Proof.
  induction k as [|k IH]; intros n pos Hnone Hhit Hk.
  - rewrite Nat.add_0_r in *. destruct n; simpl; by rewrite Hhit.
  - destruct n as [|n]; [lia|]. simpl.
    rewrite <- (Nat.add_0_r pos) at 1. rewrite Hnone by lia.
    replace (pos + S k)%nat with (S pos + k)%nat in * by lia.
    apply IH; [|done|lia].
    intros j Hj. replace (S pos + j)%nat with (pos + S j)%nat by lia.
    apply Hnone. lia.
Qed.

Lemma searchFrom_nowhere (r : Regex.t) (input : list ascii) : ∀ n pos,
  (∀ j, (j ≤ n)%nat → matchAt r input (pos + j) = None) →
  searchFrom r input n pos = None.
Proof.
  induction n as [|n IH]; intros pos Hnone; simpl.
  - rewrite <- (Nat.add_0_r pos) at 1. by rewrite Hnone.
  - rewrite <- (Nat.add_0_r pos) at 1. rewrite Hnone by lia.
    apply IH. intros j Hj. replace (S pos + j)%nat with (pos + S j)%nat by lia.
    apply Hnone. lia.
Qed.

Lemma startsWith_app (pat rest : list ascii) : JsString.startsWith pat (pat ++ rest) = true.
Proof. induction pat as [|x pat IH]; [done|]. simpl. by rewrite Ascii.eqb_refl. Qed.

Lemma barren_nil (pat : list ascii) : barren pat [].
Proof. intros j rest Hj. simpl in Hj. lia. Qed.

Lemma barren_app (pat s1 s2 : list ascii) :
  barren pat s1 → barren pat s2 → barren pat (s1 ++ s2).
Proof.
  intros H1 H2 j rest Hj. rewrite length_app in Hj.
  destruct (decide (j < length s1)%nat) as [Hlt|Hge].
  - rewrite drop_app_le by lia. rewrite <- app_assoc. by apply H1.
  - rewrite drop_app_ge by lia. apply H2. lia.
Qed.

Lemma barren_lacks (x : ascii) (pat seg : list ascii) :
  Forall (λ c, chr x c = false) seg → barren (x :: pat) seg.
Proof.
  intros Hseg j rest Hj.
  destruct (lookup_lt_is_Some_2 seg j Hj) as [c Hc].
  rewrite (drop_S _ _ _ Hc). simpl.
  pose proof (Forall_lookup_1 _ _ _ _ Hseg Hc) as Hx. unfold chr in Hx.
  by rewrite Ascii.eqb_sym, Hx.
Qed.

Lemma exec_hit (pat : string) (pre pending rest : list ascii) :
  barren (JsString.chars pat) pending →
  exec (Prompt.literal pat) (pre ++ pending ++ JsString.chars pat ++ rest) (length pre)
  = Some (mkResult (length pre + length pending)
            (length pre + length pending + String.length pat) []).
Proof.
  intros Hbarren. unfold exec. rewrite !length_app.
  replace (length pre <=? _)%nat with true by (symmetry; apply Nat.leb_le; lia).
  apply searchFrom_found.
  - intros j Hj. rewrite matchAt_literal, drop_app_add, drop_app_le by lia.
    by rewrite Hbarren.
  - rewrite matchAt_literal, drop_app_add, drop_app_length. by rewrite startsWith_app.
  - lia.
Qed.

Lemma exec_miss (pat : string) (pre pending : list ascii) :
  pat ≠ EmptyString →
  barren (JsString.chars pat) pending →
  exec (Prompt.literal pat) (pre ++ pending) (length pre) = None.
Proof.
  intros Hpat Hbarren. unfold exec. rewrite !length_app.
  replace (length pre <=? _)%nat with true by (symmetry; apply Nat.leb_le; lia).
  apply searchFrom_nowhere. intros j Hj.
  rewrite matchAt_literal, drop_app_add.
  destruct (decide (j < length pending)%nat) as [Hlt|Hge].
  - specialize (Hbarren j [] Hlt). rewrite app_nil_r in Hbarren. by rewrite Hbarren.
  - rewrite drop_ge by lia. by destruct pat.
Qed.

Lemma getSubstitution_plain (matched before after repl : list ascii) :
  Forall (λ c, chr "$" c = false) repl →
  JsString.getSubstitution matched before after repl = repl.
Proof.
  induction 1 as [|c repl Hc _ IH]; [done|]. simpl.
  unfold chr in Hc. by rewrite Hc, IH.
Qed.

Lemma replaceLoop_segments (pat : string) (repl : list ascii) :
  pat ≠ EmptyString →
  Forall (λ c, chr "$" c = false) repl →
  ∀ (segs : list segment) (pre pending acc : list ascii) (fuel : nat),
    Forall (λ o : segment, ∀ seg, o = Some seg → barren (JsString.chars pat) seg) segs →
    barren (JsString.chars pat) pending →
    (occurrences segs < fuel)%nat →
    Prompt.replaceLoop fuel (Prompt.literal pat)
      (pre ++ pending ++ unsegment (JsString.chars pat) segs) repl
      (length pre) (length pre) acc
    = Some (acc ++ pending ++ unsegment repl segs).
Proof.
  intros Hpat Hrepl segs.
  induction segs as [|[seg|] segs IH]; intros pre pending acc fuel Hsegs Hpending Hfuel.
  - unfold unsegment. simpl. rewrite !app_nil_r.
    destruct fuel as [|fuel]; [simpl in Hfuel; lia|]. simpl.
    rewrite exec_miss by done. by rewrite drop_app_length.
  - apply Forall_cons in Hsegs as [Hseg Hsegs].
    unfold unsegment in *. rewrite !fmap_cons. simpl concat.
    rewrite !(app_assoc pending). apply IH; [done| |].
    + apply barren_app; [done|by apply Hseg].
    + unfold occurrences in *. by rewrite filter_cons_False in Hfuel.
  - apply Forall_cons in Hsegs as [_ Hsegs].
    unfold occurrences in Hfuel. rewrite filter_cons_True in Hfuel by done.
    destruct fuel as [|fuel]; [simpl in Hfuel; lia|]. simpl in Hfuel.
    unfold unsegment in *. rewrite !fmap_cons. simpl concat.
    change (Prompt.replaceLoop (S fuel) ?r ?input ?rp ?li ?nx ?ac)
      with (match exec r input li with
            | None => Some (ac ++ drop nx input)
            | Some m =>
                Prompt.replaceLoop fuel r input rp
                  (if (Regex.stop m =? Regex.start m)%nat then S (Regex.stop m) else Regex.stop m) (Regex.stop m)
                  (ac ++ take (Regex.start m - nx) (drop nx input)
                   ++ JsString.getSubstitution
                        (take (Regex.stop m - Regex.start m) (drop (Regex.start m) input))
                        (take (Regex.start m) input) (drop (Regex.stop m) input) rp)
            end).
    rewrite exec_hit by done. cbn [Regex.start Regex.stop].
    rewrite getSubstitution_plain by done.
    replace (_ =? _)%nat with false
      by (symmetry; apply Nat.eqb_neq; destruct pat; [done|simpl; lia]).
    rewrite drop_app_length.
    replace (length pre + length pending - length pre)%nat with (length pending) by lia.
    rewrite take_app_length.
    specialize (IH (pre ++ pending ++ JsString.chars pat) [] (acc ++ pending ++ repl) fuel
                  Hsegs (barren_nil _) ltac:(unfold occurrences; lia)).
    rewrite !length_app, length_chars, Nat.add_assoc in IH.
    rewrite <- !app_assoc in IH. simpl in IH. exact IH.
Qed.

Lemma occurrences_le (pat : list ascii) (segs : list segment) :
  pat ≠ [] → (occurrences segs ≤ length (unsegment pat segs))%nat.
Proof.
  intros Hpat. unfold occurrences, unsegment.
  induction segs as [|[seg|] segs IH]; [done| |].
  - rewrite filter_cons_False by done. rewrite fmap_cons. simpl concat.
    rewrite length_app. lia.
  - rewrite filter_cons_True by done. rewrite fmap_cons. simpl concat.
    rewrite length_app. destruct pat; [done|]. simpl in *. lia.
Qed.

Lemma replaceAll_segments (pat repl : string) (segs : list segment) :
  pat ≠ EmptyString →
  lacks "$" repl →
  Forall (λ o : segment, ∀ seg, o = Some seg → barren (JsString.chars pat) seg) segs →
  Prompt.replaceAll (Prompt.literal pat)
    (JsString.ofChars (unsegment (JsString.chars pat) segs)) repl
  = Some (JsString.ofChars (unsegment (JsString.chars repl) segs)).
Proof.
  intros Hpat Hrepl Hsegs. unfold Prompt.replaceAll. rewrite chars_ofChars.
  pose proof (replaceLoop_segments pat (JsString.chars repl) Hpat Hrepl segs [] [] []
                (S (length (unsegment (JsString.chars pat) segs))) Hsegs (barren_nil _))
    as Hloop.
  change ([] ++ [] ++ ?x) with x in Hloop.
  change (length (@nil ascii)) with 0%nat in Hloop.
  rewrite Hloop; [done|].
  pose proof (occurrences_le (JsString.chars pat) segs ltac:(by destruct pat)). lia.
Qed.

Lemma mismatch_startsWith (pat s rest : list ascii) :
  mismatch pat s = true → JsString.startsWith pat (s ++ rest) = false.
Proof.
  revert s. induction pat as [|a pat IH]; intros [|b s]; simpl; try done.
  destruct (Ascii.eqb a b); simpl; [apply IH|done].
Qed.

Lemma barren_check (pat seg : list ascii) :
  forallb (λ j, mismatch pat (drop j seg)) (seq 0 (length seg)) = true →
  barren pat seg.
Proof.
  intros Hall j rest Hj. apply mismatch_startsWith.
  apply Is_true_true_2, forallb_True in Hall.
  apply Is_true_true_1. apply (Forall_lookup_1 _ _ j j Hall).
  apply lookup_seq. split; [done|lia].
Qed.

Lemma barren_other_name (h h' : marker) :
  rank h' ≠ rank h →
  barren (JsString.chars (placeholderName h)) (JsString.chars (placeholderName h')).
Proof.
  intros Hne. apply barren_check. by destruct h, h'; try done.
Qed.

Lemma rank_name (h h' : marker) : rank h' = rank h → h' = h.
Proof. by destruct h, h'. Qed.

Lemma chars_concat_empty (l : list string) :
  JsString.chars (String.concat EmptyString l) = concat (JsString.chars <$> l).
Proof.
  induction l as [|a [|b l] IH]; [done|by simpl; rewrite app_nil_r|].
  change (JsString.chars (a +:+ EmptyString +:+ String.concat EmptyString (b :: l))
          = JsString.chars a ++ concat (JsString.chars <$> b :: l)).
  by rewrite !chars_app, IH.
Qed.

(** ** Prompt rendering: the values of the placeholders *)

Lemma lacks_app (x : ascii) (a b : string) : lacks x a → lacks x b → lacks x (a +:+ b).
Proof. unfold lacks. rewrite chars_app, Forall_app. by split. Qed.

Lemma lacks_string_of_uint (x : ascii) (d : Decimal.uint) :
  digit x = false → lacks x (NilEmpty.string_of_uint d).
Proof.
  intros Hx. unfold lacks.
  induction d; simpl.
  1: constructor.
  all: constructor; [|assumption].
  all: unfold chr; apply Ascii.eqb_neq; intros Heq; subst x.
  all: vm_compute in Hx; discriminate.
Qed.

Lemma lacks_str (x : ascii) (n : nat) : digit x = false → lacks x (str n).
Proof. apply lacks_string_of_uint. Qed.

Lemma quoteChar_brace (c : ascii) :
  chr "{" c = false → Forall (λ d, chr "{" d = false) (Json.quoteChar c).
Proof.
  intros Hc. apply Forall_forall. intros d Hd. revert Hc.
  assert (Hall : forallb (λ d, negb (chr "{" d)) (Json.quoteChar c) = negb (chr "{" c)).
  { by destruct c as [[] [] [] [] [] [] [] []]. }
  intros Hc. rewrite Hc in Hall.
  apply Is_true_true_2, forallb_True in Hall. rewrite Forall_forall in Hall.
  specialize (Hall d Hd). by destruct (chr "{" d).
Qed.

Lemma quoteChar_dollar (c : ascii) :
  chr "$" c = false → Forall (λ d, chr "$" d = false) (Json.quoteChar c).
Proof.
  intros Hc. apply Forall_forall. intros d Hd. revert Hc.
  assert (Hall : forallb (λ d, negb (chr "$" d)) (Json.quoteChar c) = negb (chr "$" c)).
  { by destruct c as [[] [] [] [] [] [] [] []]. }
  intros Hc. rewrite Hc in Hall.
  apply Is_true_true_2, forallb_True in Hall. rewrite Forall_forall in Hall.
  specialize (Hall d Hd). by destruct (chr "$" d).
Qed.

Lemma lacks_quote (x : ascii) (s : string) :
  (∀ c, chr x c = false → Forall (λ d, chr x d = false) (Json.quoteChar c)) →
  chr x "034" = false →
  lacks x s → lacks x (Json.quote s).
Proof.
  intros Hchar Hq Hs. unfold lacks, Json.quote. rewrite chars_ofChars.
  constructor; [done|]. apply Forall_app. split; [|by repeat constructor].
  unfold lacks in Hs. induction Hs as [|c cs Hc _ IH]; [constructor|].
  simpl. apply Forall_app. split; [by apply Hchar|done].
Qed.

Lemma lacks_stringify (x : ascii) (items : list string) :
  (∀ c, chr x c = false → Forall (λ d, chr x d = false) (Json.quoteChar c)) →
  lacks x "[], " → chr x "034" = false → chr x "010" = false →
  Forall (lacks x) items → lacks x (Json.stringify items).
Proof.
  intros Hchar Hpunct Hq Hnl Hitems. unfold Json.stringify.
  assert (Hc : ∀ s : string, Forall (λ c, c ∈ JsString.chars "[], " ∨ c = "010"%char)
                               (JsString.chars s) → lacks x s).
  { intros s Hs. unfold lacks. eapply Forall_impl; [exact Hs|].
    intros c [Hin| ->]; [|done]. unfold lacks in Hpunct.
    rewrite Forall_forall in Hpunct. by apply Hpunct. }
  destruct items as [|item items]; [apply Hc; repeat constructor; set_solver|].
  repeat apply lacks_app; try (apply Hc; repeat constructor; set_solver).
  apply lacks_concat.
  - repeat apply lacks_app; apply Hc; repeat constructor; set_solver.
  - apply Forall_fmap. eapply Forall_impl; [exact Hitems|].
    intros s Hs. by apply lacks_quote.
Qed.

Lemma plain_value (batch : SwarmBatch.t) (totalBatches : nat) (userMessage : string)
    (h : marker) :
  Forall plain (SwarmBatch.items batch) → plain userMessage →
  plain (placeholderValue batch totalBatches userMessage h).
Proof.
  intros Hitems [Hm1 Hm2].
  assert (H1 : Forall (lacks "{") (SwarmBatch.items batch))
    by (eapply Forall_impl; [exact Hitems|by intros s [? ?]]).
  assert (H2 : Forall (lacks "$") (SwarmBatch.items batch))
    by (eapply Forall_impl; [exact Hitems|by intros s [? ?]]).
  destruct h; simpl; split; try (by apply lacks_str); try done.
  - apply lacks_concat; [by repeat constructor|done].
  - apply lacks_concat; [by repeat constructor|done].
  - apply lacks_stringify; try done; [apply quoteChar_brace|by repeat constructor].
  - apply lacks_stringify; try done; [apply quoteChar_dollar|by repeat constructor].
Qed.

(** ** Prompt rendering: the seven passes *)

Section rendering.
Variable batch : SwarmBatch.t.
Variable totalBatches : nat.
Variable userMessage : string.
Hypothesis items_plain : Forall plain (SwarmBatch.items batch).
Hypothesis message_plain : plain userMessage.

Lemma rendered_segments (h : marker) (pieces : list piece) (stage : nat)
    (occurrence : string) :
  (stage = rank h ∧ occurrence = placeholderName h
   ∨ stage = S (rank h)
     ∧ occurrence = placeholderValue batch totalBatches userMessage h) →
  JsString.chars (rendered batch totalBatches userMessage stage pieces)
  = unsegment (JsString.chars occurrence)
      (segmentOf batch totalBatches userMessage h <$> pieces).
Proof.
  intros Hstage. unfold rendered, unsegment.
  rewrite chars_concat_empty, <- !list_fmap_compose. f_equal.
  apply list_fmap_ext. intros i [s|h'] _; simpl; [done|].
  destruct (Nat.eqb_spec (rank h') (rank h)) as [Heq|Hne]; simpl.
  - apply rank_name in Heq as ->.
    destruct Hstage as [[-> ->]|[-> ->]].
    + by rewrite Nat.ltb_irrefl.
    + by replace (rank h <? S (rank h))%nat with true
        by (symmetry; apply Nat.ltb_lt; lia).
  - destruct Hstage as [[-> _]|[-> _]]; [done|].
    destruct (Nat.ltb_spec (rank h') (rank h)), (Nat.ltb_spec (rank h') (S (rank h)));
      try done; lia.
Qed.

Lemma replace_placeholder (h : marker) (pieces : list piece) :
  Forall (λ pc, ∀ s, pc = Text s → lacks "{" s) pieces →
  Prompt.replaceAll (Prompt.literal (placeholderName h))
    (rendered batch totalBatches userMessage (rank h) pieces)
    (placeholderValue batch totalBatches userMessage h)
  = Some (rendered batch totalBatches userMessage (S (rank h)) pieces).
Proof.
  intros Htext.
  rewrite <- (ofChars_chars (rendered batch totalBatches userMessage (rank h) pieces)).
  rewrite (rendered_segments h pieces (rank h) (placeholderName h)) by (by left).
  rewrite replaceAll_segments.
  - rewrite <- (rendered_segments h pieces (S (rank h))) by (by right).
    by rewrite ofChars_chars.
  - by destruct h.
  - by destruct (plain_value batch totalBatches userMessage h).
  - apply Forall_fmap. eapply Forall_impl; [exact Htext|].
    intros [s|h'] Hpc seg; simpl.
    + intros [= <-].
      replace (JsString.chars (placeholderName h))
        with ("{"%char :: List.tl (JsString.chars (placeholderName h)))
        by (by destruct h).
      apply barren_lacks. by apply Hpc.
    + destruct (Nat.eqb_spec (rank h') (rank h)) as [Heq|Hne]; [done|].
      intros [= <-]. destruct (rank h' <? rank h)%nat.
      * replace (JsString.chars (placeholderName h))
          with ("{"%char :: List.tl (JsString.chars (placeholderName h)))
          by (by destruct h).
        apply barren_lacks.
        by destruct (plain_value batch totalBatches userMessage h').
      * by apply barren_other_name.
Qed.

End rendering.

(** X14. A template whose only opening braces are those of its
    placeholders is rendered by filling in every placeholder at once, when
    the items and the message hold neither an opening brace nor a dollar
    sign: [{{items}}] is the items one per line, [{{items_json}}] the JSON
    array indented by two spaces, [{{batch_index}}] and [{{batch_number}}]
    the index and the index plus one, [{{total_batches}}] and
    [{{batch_size}}] the two counts, [{{user_message}}] the message; every
    occurrence is replaced, and the text between them is kept. *)
Theorem renderBatchPrompt_fills_placeholders (batch : SwarmBatch.t) (totalBatches : nat)
    (userMessage : string) (pieces : list piece) :
  Forall plain (SwarmBatch.items batch) →
  plain userMessage →
  Forall (λ pc, ∀ s, pc = Text s → lacks "{" s) pieces →
  Prompt.renderBatchPrompt (templateOf pieces) batch totalBatches userMessage
  = Some (filled batch totalBatches userMessage pieces).
Proof.
  intros Hitems Hmessage Htext. unfold Prompt.renderBatchPrompt.
  assert (Hfirst : templateOf pieces = rendered batch totalBatches userMessage 0 pieces).
  { reflexivity. }
  assert (Hlast : rendered batch totalBatches userMessage 7 pieces
                  = filled batch totalBatches userMessage pieces).
  { unfold filled, rendered. f_equal. apply list_fmap_ext.
    intros i [s|h] _; by try destruct h. }
  rewrite Hfirst.
  assert (Hpass : ∀ h,
            Prompt.replaceAll (Prompt.literal (placeholderName h))
              (rendered batch totalBatches userMessage (rank h) pieces)
              (placeholderValue batch totalBatches userMessage h)
            = Some (rendered batch totalBatches userMessage (S (rank h)) pieces))
    by (intros h; by apply replace_placeholder).
  pose proof (Hpass Items) as H1. pose proof (Hpass ItemsJson) as H2.
  pose proof (Hpass BatchIndex) as H3. pose proof (Hpass BatchNumber) as H4.
  pose proof (Hpass TotalBatches) as H5. pose proof (Hpass BatchSize) as H6.
  pose proof (Hpass UserMessage) as H7.
  cbn [placeholderName placeholderValue rank] in H1, H2, H3, H4, H5, H6, H7.
  rewrite H1. cbn [mbind option_bind]. rewrite H2. cbn [mbind option_bind].
  rewrite H3. cbn [mbind option_bind]. rewrite H4. cbn [mbind option_bind].
  rewrite H5. cbn [mbind option_bind]. rewrite H6. cbn [mbind option_bind].
  rewrite H7.
  by rewrite Hlast.
Qed.

Lemma renderBatchPrompt_fills_placeholders_witness :
  Prompt.renderBatchPrompt
    "Review {{items}} ({{batch_number}}/{{total_batches}}), {{batch_size}} of them, for {{user_message}}; again: {{items}}"
    (SwarmBatch.mk 0 ["a"; "b"] Status.pending None None None None 0) 3 "the team"
  = Some ("Review a" +:+ nl +:+ "b (1/3), 2 of them, for the team; again: a" +:+ nl +:+ "b").
Proof.
  apply (renderBatchPrompt_fills_placeholders
           (SwarmBatch.mk 0 ["a"; "b"] Status.pending None None None None 0) 3 "the team"
           [Text "Review "; Hole Items; Text " ("; Hole BatchNumber; Text "/";
            Hole TotalBatches; Text "), "; Hole BatchSize; Text " of them, for ";
            Hole UserMessage; Text "; again: "; Hole Items]).
  - repeat constructor; unfold lacks; vm_compute; by repeat constructor.
  - split; unfold lacks; vm_compute; by repeat constructor.
  - repeat constructor; intros s [= <-]; unfold lacks; vm_compute; by repeat constructor.
Defined.

(** ** Prompt rendering: values are scanned again *)

Lemma replaceLoop_unfold (fuel : nat) (r : Regex.t) (input repl : list ascii)
    (lastIndex next : nat) (acc : list ascii) :
  Prompt.replaceLoop (S fuel) r input repl lastIndex next acc
  = match exec r input lastIndex with
    | None => Some (acc ++ drop next input)
    | Some m =>
        Prompt.replaceLoop fuel r input repl
          (if (Regex.stop m =? Regex.start m)%nat then S (Regex.stop m) else Regex.stop m)
          (Regex.stop m)
          (acc ++ take (Regex.start m - next) (drop next input)
           ++ JsString.getSubstitution
                (take (Regex.stop m - Regex.start m) (drop (Regex.start m) input))
                (take (Regex.start m) input) (drop (Regex.stop m) input) repl)
    end.
Proof. reflexivity. Qed.

Lemma replaceAll_barren (pat s repl : string) :
  pat ≠ EmptyString → barren (JsString.chars pat) (JsString.chars s) →
  Prompt.replaceAll (Prompt.literal pat) s repl = Some s.
Proof.
  intros Hpat Hbarren. unfold Prompt.replaceAll. rewrite replaceLoop_unfold.
  pose proof (exec_miss pat [] (JsString.chars s) Hpat Hbarren) as Hmiss.
  simpl in Hmiss. rewrite Hmiss. simpl. by rewrite drop_0, ofChars_chars.
Qed.

Lemma replaceAll_whole (pat repl : string) :
  pat ≠ EmptyString →
  Prompt.replaceAll (Prompt.literal pat) pat repl
  = Some (JsString.ofChars
            (JsString.getSubstitution (JsString.chars pat) [] [] (JsString.chars repl))).
Proof.
  intros Hpat. unfold Prompt.replaceAll. rewrite replaceLoop_unfold.
  pose proof (exec_hit pat [] [] [] (barren_nil _)) as Hhit.
  simpl in Hhit. rewrite app_nil_r in Hhit. rewrite Hhit. cbn [Regex.start Regex.stop].
  replace (String.length pat =? 0)%nat with false by (by destruct pat).
  rewrite length_chars. destruct (String.length pat) as [|n] eqn:Hn; [by destruct pat|].
  rewrite replaceLoop_unfold.
  pose proof (exec_miss pat (JsString.chars pat) [] Hpat (barren_nil _)) as Hmiss.
  rewrite app_nil_r, length_chars, Hn in Hmiss. rewrite Hmiss.
  rewrite <- Hn, <- length_chars.
  rewrite drop_all, !Nat.sub_0_r, drop_0, !take_0, take_ge by done.
  simpl. by rewrite !app_nil_r.
Qed.

(** X15. Rendering is a chain of replacements, each over the output of
    the one before, with the value as a replacement pattern.  So the text
    of an item is scanned by the later replacements -- rendering
    [{{items}}] for the single item [{{user_message}}] gives the message,
    not the item -- and the dollar patterns of the message are expanded:
    rendering [{{user_message}}] gives the message with [$$] turned into one
    dollar sign and [$&] into the text [{{user_message}}], whatever the
    batch. *)
Theorem renderBatchPrompt_rescans (batch : SwarmBatch.t) (totalBatches : nat)
    (userMessage : string) :
  (SwarmBatch.items batch = ["{{user_message}}"] → lacks "$" userMessage →
   Prompt.renderBatchPrompt "{{items}}" batch totalBatches userMessage = Some userMessage)
  ∧ Prompt.renderBatchPrompt "{{user_message}}" batch totalBatches userMessage
    = Some (JsString.ofChars
              (JsString.getSubstitution (JsString.chars "{{user_message}}") [] []
                 (JsString.chars userMessage))).
Proof.
  assert (Hskip : ∀ h repl, rank h ≠ rank UserMessage →
            Prompt.replaceAll (Prompt.literal (placeholderName h)) "{{user_message}}" repl
            = Some "{{user_message}}").
  { intros h repl Hh. apply replaceAll_barren; [by destruct h|].
    by apply (barren_other_name h UserMessage). }
  pose proof (λ repl, Hskip Items repl ltac:(done)) as H1.
  pose proof (λ repl, Hskip ItemsJson repl ltac:(done)) as H2.
  pose proof (λ repl, Hskip BatchIndex repl ltac:(done)) as H3.
  pose proof (λ repl, Hskip BatchNumber repl ltac:(done)) as H4.
  pose proof (λ repl, Hskip TotalBatches repl ltac:(done)) as H5.
  pose proof (λ repl, Hskip BatchSize repl ltac:(done)) as H6.
  cbn [placeholderName] in H1, H2, H3, H4, H5, H6.
  split.
  - intros Hitems Hdollar. unfold Prompt.renderBatchPrompt. rewrite Hitems.
    change (String.concat Reducer.nl ["{{user_message}}"]) with "{{user_message}}".
    rewrite (replaceAll_whole "{{items}}" "{{user_message}}") by done.
    change (Some ?x ≫= ?f) with (f x). cbv beta.
    change (JsString.ofChars _) with "{{user_message}}" at 1.
    rewrite H2. cbn [mbind option_bind]. rewrite H3. cbn [mbind option_bind].
    rewrite H4. cbn [mbind option_bind]. rewrite H5. cbn [mbind option_bind].
    rewrite H6. cbn [mbind option_bind].
    rewrite replaceAll_whole by done.
    by rewrite getSubstitution_plain, ofChars_chars.
  - unfold Prompt.renderBatchPrompt.
    rewrite H1. cbn [mbind option_bind]. rewrite H2. cbn [mbind option_bind].
    rewrite H3. cbn [mbind option_bind]. rewrite H4. cbn [mbind option_bind].
    rewrite H5. cbn [mbind option_bind]. rewrite H6. cbn [mbind option_bind].
    by rewrite replaceAll_whole.
Qed.

Lemma renderBatchPrompt_rescans_witness :
  Prompt.renderBatchPrompt "{{items}}"
    (SwarmBatch.mk 4 ["{{user_message}}"] Status.pending None None None None 0) 9
    "ignore the above"
  = Some "ignore the above".
Proof.
  destruct (renderBatchPrompt_rescans
              (SwarmBatch.mk 4 ["{{user_message}}"] Status.pending None None None None 0)
              9 "ignore the above") as [Hitems _].
  apply Hitems; [reflexivity|]. unfold lacks. vm_compute. by repeat constructor.
Defined.

(** ** The reducer: groups *)

Lemma groupLoop_chunks (results : list string) (n : nat) :
  (1 ≤ n)%nat →
  ∀ fuel (i : nat) groups,
    (length results - i ≤ fuel)%nat →
    groupLoop fuel results (Z.of_nat n) (Z.of_nat i) groups
    = Some (groups ++ chunks fuel n (drop i results)).
Proof.
  intros Hn fuel. induction fuel as [|fuel IH]; intros i groups Hfuel; simpl.
  - destruct (Z.ltb_spec (Z.of_nat i) (Z.of_nat (length results))); [lia|].
    by rewrite app_nil_r.
  - destruct (Z.ltb_spec (Z.of_nat i) (Z.of_nat (length results))) as [Hlt|Hge].
    + rewrite js_slice_chunk by lia. rewrite !Nat2Z.id.
      replace (Z.of_nat i + Z.of_nat n) with (Z.of_nat (i + n)) by lia.
      rewrite IH by lia. rewrite <- app_assoc. do 2 f_equal.
      destruct (drop i results) as [|r rest] eqn:Hdrop.
      { apply (f_equal length) in Hdrop. rewrite length_drop in Hdrop. simpl in Hdrop. lia. }
      rewrite <- Hdrop. simpl. by rewrite drop_drop.
    + rewrite drop_ge by lia. simpl. by rewrite app_nil_r.
Qed.

Lemma chunks_spec {A} (n : nat) :
  (1 ≤ n)%nat →
  ∀ fuel (l : list A),
    (length l ≤ fuel)%nat →
    concat (chunks fuel n l) = l
    ∧ Forall (λ g, 1 ≤ length g ≤ n)%nat (chunks fuel n l)
    ∧ (length l ≤ n * length (chunks fuel n l) < length l + n)%nat.
Proof.
  intros Hn fuel. induction fuel as [|fuel IH]; intros l Hfuel.
  - destruct l; [|simpl in Hfuel; lia]. simpl. split_and!; [done|constructor|lia|lia].
  - destruct l as [|x l]; [simpl; split_and!; [done|constructor|lia|lia]|].
    change (chunks (S fuel) n (x :: l))
      with (take n (x :: l) :: chunks fuel n (drop n (x :: l))).
    destruct (IH (drop n (x :: l))) as (Hcat & Hall & Hlen).
    { rewrite length_drop. simpl in *. lia. }
    split_and!.
    + simpl concat. rewrite Hcat. apply take_drop.
    + constructor; [|done]. rewrite length_take, length_cons.
      destruct (Nat.min_spec n (S (length l))) as [[? ->]|[? ->]]; lia.
    + rewrite length_drop in Hlen. rewrite !length_cons in *.
      rewrite Nat.mul_succ_r. lia.
    + rewrite length_drop in Hlen. rewrite !length_cons in *.
      rewrite Nat.mul_succ_r.
      destruct (length (chunks fuel n (drop n (x :: l)))); [lia|].
      rewrite Nat.mul_succ_r in *. lia.
Qed.

(** ** The reducer: the size of a concatenation *)

Lemma length_append (a b : string) :
  String.length (a +:+ b) = (String.length a + String.length b)%nat.
Proof. by rewrite <- !length_chars, chars_app, length_app. Qed.

Lemma length_concat_le (sep : string) (bound : nat) (l : list string) :
  Forall (λ x, String.length x ≤ bound)%nat l →
  (String.length (String.concat sep l) ≤ length l * (bound + String.length sep))%nat.
Proof.
  induction 1 as [|a l Ha Hl IH]; [simpl; lia|].
  destruct l as [|b l].
  - simpl. lia.
  - change (String.concat sep (a :: b :: l))
      with (a +:+ sep +:+ String.concat sep (b :: l)).
    rewrite !length_append. rewrite (length_cons a). lia.
Qed.

Lemma length_str_small (n : nat) : (n ≤ 21)%nat → (String.length (str n) ≤ 2)%nat.
Proof.
  intros Hn. do 22 (destruct n as [|n]; [vm_compute; lia|]). lia.
Qed.

(** Up to twenty results of at most [limit] characters each make a text
    of at most [20 * (limit + 26)] characters. *)
Lemma reduceConcatenate_length (limit : nat) (results : list string) :
  (length results ≤ 20)%nat →
  Forall (λ r, String.length r ≤ limit)%nat results →
  (String.length (reduceConcatenate results) ≤ 20 * (limit + 26))%nat.
Proof.
  intros Hlen Hall. unfold reduceConcatenate.
  assert (Hgen : (String.length
                    (String.concat (nl +:+ nl +:+ "---" +:+ nl +:+ nl)
                       (imap (λ i result,
                                "## Batch " +:+ str (i + 1) +:+ " of "
                                +:+ str (length results) +:+ nl +:+ nl +:+ result)
                             results))
                  ≤ 20 * (limit + 26))%nat).
  { etrans; [apply (length_concat_le _ (limit + 19))|].
    - apply Forall_lookup. intros i x Hx.
      rewrite list_lookup_imap in Hx.
      destruct (results !! i) as [r|] eqn:Hr; [|done]. injection Hx as <-.
      pose proof (lookup_lt_Some _ _ _ Hr).
      pose proof (Forall_lookup_1 _ _ _ _ Hall Hr). simpl in *.
      rewrite !length_append.
      pose proof (length_str_small (i + 1) ltac:(lia)).
      pose proof (length_str_small (length results) ltac:(lia)).
      change (String.length "## Batch ") with 9%nat.
      change (String.length " of ") with 4%nat.
      change (String.length nl) with 1%nat.
      change (String.length EmptyString) with 0%nat. lia.
    - rewrite length_imap. change (String.length _) with 7%nat at 1. nia. }
  destruct results as [|r [|r' results]]; [exact Hgen| |exact Hgen].
  apply Forall_cons in Hall as [Hr _]. lia.
Qed.

Lemma small_enough (results : list string) :
  (length results ≤ 20)%nat →
  Forall (λ r, Z.of_nat (String.length r) ≤ 29000) results →
  tooLarge (reduceConcatenate results) = false.
Proof.
  intros Hlen Hall. apply not_true_is_false. rewrite tooLarge_spec.
  pose proof (reduceConcatenate_length (Z.to_nat 29000) results Hlen) as Hbound.
  assert (Z.of_nat (String.length (reduceConcatenate results))
          ≤ 20 * (29000 + 26)); [|lia].
  etrans; [apply inj_le, Hbound|lia].
  eapply Forall_impl; [exact Hall|]. intros r Hr. simpl in Hr. lia.
Qed.

(** ** The reducer: when it ends *)

Section reducer_ends.
Context {W : Type}.
Variable invokeAgent : W → string → outcome * W.
Variable options : ReduceOptions.

Lemma groupPass_asked level total groups : ∀ i w,
  length (asked (groupPass invokeAgent options level total i groups w).2)
  = (length (asked w) + length groups)%nat.
Proof.
  induction groups as [|g groups IH]; intros i w; simpl; [lia|].
  unfold groupOutcome, askOrElse.
  destruct (invokeAgent (worker w) _) as [o worker'].
  specialize (IH (S i) (mkWorld worker' (asked w ++ [buildReducePrompt
                  (reduceConcatenate g) (length g) options (Some level) (Some i)
                  (Some total)]))).
  destruct (groupPass _ _ _ _ _ _ _) as [ss w2]. simpl in *.
  rewrite IH, length_app. simpl. lia.
Qed.

Hypothesis worker_brief : brief 29000 invokeAgent.

Lemma askOrElse_brief prompt fallback w :
  Z.of_nat (String.length (askOrElse invokeAgent prompt fallback w).1) ≤ 29000.
Proof.
  unfold askOrElse. destruct (worker_brief (worker w) prompt) as (value & Hv & Hlen).
  destruct (invokeAgent (worker w) prompt) as [o worker']. simpl in *. by subst o.
Qed.

Lemma groupPass_brief level total groups : ∀ i w,
  Forall (λ r, Z.of_nat (String.length r) ≤ 29000)
    (groupPass invokeAgent options level total i groups w).1.
Proof.
  induction groups as [|g groups IH]; intros i w; simpl; [constructor|].
  pose proof (askOrElse_brief
                (buildReducePrompt (reduceConcatenate g) (length g) options
                   (Some level) (Some i) (Some total))
                (reduceConcatenate g) w) as Hg.
  unfold groupOutcome.
  destruct (askOrElse _ _ _ _) as [summary w1].
  specialize (IH (S i) w1).
  destruct (groupPass _ _ _ _ _ _ _) as [ss w2]. by constructor.
Qed.

Lemma askOrElse_asked prompt fallback (w : @world W) :
  asked (askOrElse invokeAgent prompt fallback w).2 = asked w ++ [prompt].
Proof. unfold askOrElse. by destruct (invokeAgent (worker w) prompt). Qed.

Lemma summarize_small (fuel : nat) (results : list string) (w : @world W) :
  tooLarge (reduceConcatenate results) = false →
  ∃ value w',
    reduceSummarize invokeAgent (S fuel) results options w = Some (Fulfilled value, w')
    ∧ Z.of_nat (String.length value) ≤ 29000
    ∧ length (asked w') = S (length (asked w)).
Proof.
  intros Hsmall. rewrite reduceSummarize_unfold, Hsmall, tryCatch_invoke.
  eexists _, _. split_and!; [done|apply askOrElse_brief|].
  rewrite askOrElse_asked, length_app. simpl. lia.
Qed.

Lemma hierarchical_ends (n : nat) :
  ∀ (results : list string) (level fuel : nat) (w : @world W),
    (length results ≤ n)%nat →
    (20 < length results)%nat ∨ tooLarge (reduceConcatenate results) = false →
    (n + 2 ≤ fuel)%nat →
    ∃ value w',
      reduceHierarchical invokeAgent fuel results options level w
      = Some (Fulfilled value, w')
      ∧ Z.of_nat (String.length value) ≤ 29000
      ∧ (length (asked w') ≤ length (asked w) + Nat.max 1 (length results))%nat.
Proof.
  induction n as [n IH] using lt_wf_ind.
  intros results level fuel w Hn Hcase Hfuel.
  destruct fuel as [|[|fuel]]; [lia|lia|].
  rewrite reduceHierarchical_unfold.
  change SWARM_DEFAULTS.hierarchical_reduce_fanin with 20%nat.
  destruct (Nat.leb_spec (length results) 20) as [Hle|Hgt].
  - destruct Hcase as [?|Hsmall]; [lia|].
    destruct (summarize_small fuel results w Hsmall) as (value & w' & -> & Hv & Hasked).
    exists value, w'. split_and!; [done..|lia].
  - pose proof (groupLoop_chunks results 20 ltac:(lia) (length results) 0 []
                  ltac:(lia)) as Hgroups.
    change (Z.of_nat 0) with 0 in Hgroups. rewrite drop_0 in Hgroups.
    cbn [app] in Hgroups. rewrite Hgroups.
    destruct (chunks_spec (A := string) 20 ltac:(lia) (length results) results ltac:(lia))
      as (_ & _ & Hcount).
    set (groups := chunks (length results) 20 results) in *.
    unfold bind. rewrite promiseAll_groups.
    pose proof (groupPass_length invokeAgent options level (length groups) groups 0 w)
      as Hlen.
    pose proof (groupPass_brief level (length groups) groups 0 w) as Hbrief.
    pose proof (groupPass_asked level (length groups) groups 0 w) as Hasked.
    destruct (groupPass invokeAgent options level (length groups) 0 groups w)
      as [summaries w1]. cbn [fst snd] in *.
    destruct (Nat.ltb_spec 20 (length summaries)) as [Hmore|Hfew].
    + destruct (IH (length summaries) ltac:(lia) summaries (level + 1)%nat (S fuel) w1
                  ltac:(lia) ltac:(by left) ltac:(lia))
        as (value & w' & -> & Hv & Hcount').
      exists value, w'. split_and!; [done..|lia].
    + destruct (summarize_small fuel summaries w1 (small_enough _ Hfew Hbrief))
        as (value & w' & -> & Hv & Hcount').
      exists value, w'. split_and!; [done..|lia].
Qed.

Lemma summarize_ends (results : list string) (fuel : nat) (w : @world W) :
  (20 < length results)%nat ∨ tooLarge (reduceConcatenate results) = false →
  (length results + 3 ≤ fuel)%nat →
  ∃ value w',
    reduceSummarize invokeAgent fuel results options w = Some (Fulfilled value, w')
    ∧ Z.of_nat (String.length value) ≤ 29000
    ∧ (length (asked w') ≤ length (asked w) + Nat.max 1 (length results))%nat.
Proof.
  intros Hcase Hfuel. destruct fuel as [|fuel]; [lia|].
  destruct (tooLarge (reduceConcatenate results)) eqn:Hlarge.
  - rewrite reduceSummarize_unfold, Hlarge.
    apply (hierarchical_ends (length results)); [lia| |lia].
    destruct Hcase as [?|?]; [by left|done].
  - destruct (summarize_small fuel results w Hlarge) as (value & w' & -> & Hv & Hasked).
    exists value, w'. split_and!; [done..|lia].
Qed.

End reducer_ends.

(** X16. One level of the hierarchical reduction, for any number of
    results above the fan-in of 20: the results are cut into
    [ceil (n / 20)] groups of 20 consecutive results, the last one
    possibly shorter; the worker is asked once for each group, in the order
    of the groups; and the reduction goes on with the summaries, one level
    up when there are still more than 20 of them, and by a last summary
    otherwise. *)
Theorem reduceHierarchical_level {W : Type} (invokeAgent : W → string → outcome * W)
    (options : ReduceOptions) (results : list string) (fuel level : nat) (w : @world W) :
  (20 < length results)%nat →
  let groups := chunksOf 20 results in
  let pass := groupPass invokeAgent options level (length groups) 0 groups w in
  concat groups = results
  ∧ Forall (λ g, 1 ≤ length g ≤ 20)%nat groups
  ∧ Z.of_nat (length groups) = ceil_div (Z.of_nat (length results)) 20
  ∧ length pass.1 = length groups
  ∧ length (asked pass.2) = (length (asked w) + length groups)%nat
  ∧ reduceHierarchical invokeAgent (S fuel) results options level w
    = if (20 <? length pass.1)%nat
      then reduceHierarchical invokeAgent fuel pass.1 options (level + 1) pass.2
      else reduceSummarize invokeAgent fuel pass.1 options pass.2.
Proof.
  intros Hmany groups pass.
  destruct (chunks_spec (A := string) 20 ltac:(lia) (length results) results ltac:(lia))
    as (Hcat & Hall & Hcount).
  fold (chunksOf 20 results) in Hcat, Hall, Hcount. fold groups in Hcat, Hall, Hcount.
  split_and!; try done.
  - pose proof (ceil_div_spec (Z.of_nat (length results)) 20 ltac:(lia)). lia.
  - apply groupPass_length.
  - apply groupPass_asked.
  - rewrite reduceHierarchical_unfold.
    change SWARM_DEFAULTS.hierarchical_reduce_fanin with 20%nat.
    replace (length results <=? 20)%nat with false by (symmetry; apply Nat.leb_gt; lia).
    pose proof (groupLoop_chunks results 20 ltac:(lia) (length results) 0 []
                  ltac:(lia)) as Hgroups.
    change (Z.of_nat 0) with 0 in Hgroups. rewrite drop_0 in Hgroups.
    cbn [app] in Hgroups. rewrite Hgroups.
    fold (chunksOf 20 results). fold groups.
    unfold bind. rewrite promiseAll_groups. fold pass.
    by destruct (20 <? length pass.1)%nat.
Qed.

Lemma reduceHierarchical_level_witness :
  length (chunksOf 20 (replicate 45 "r")) = 3%nat
  ∧ reduceHierarchical (constantWorker "ok") 3 (replicate 45 "r")
      (Reducer.mkOptions (Some hierarchical) None "task") 0 (mkWorld tt [])
    = reduceSummarize (constantWorker "ok") 2 ["ok"; "ok"; "ok"]
        (Reducer.mkOptions (Some hierarchical) None "task")
        (groupPass (constantWorker "ok") (Reducer.mkOptions (Some hierarchical) None "task")
           0 3 0 (chunksOf 20 (replicate 45 "r")) (mkWorld tt [])).2.
Proof.
  destruct (reduceHierarchical_level (constantWorker "ok")
              (Reducer.mkOptions (Some hierarchical) None "task") (replicate 45 "r") 2 0
              (mkWorld tt [])) as (_ & _ & Hlen & _ & _ & Hlevel);
    [simpl; lia|].
  split; [by vm_compute|]. exact Hlevel.
Defined.

(** X17. When the reduction ends.  With a worker that answers every
    prompt in at most 29000 characters, the [summarize] and [hierarchical]
    strategies return -- never throwing, and with such an answer -- exactly
    when there are more than 20 results or the concatenation of the results
    is not too large for one prompt: in that case a fuel of three more than
    the number of results is enough and the worker is asked at most once
    for each result (once, if there is none), and otherwise no fuel is
    enough. *)
Theorem reduction_ends_iff {W : Type} (invokeAgent : W → string → outcome * W)
    (options : ReduceOptions) (results : list string) (w : @world W) :
  brief 29000 invokeAgent →
  strategy options = Some summarize ∨ strategy options = Some hierarchical →
  ((20 < length results)%nat ∨ tooLarge (reduceConcatenate results) = false →
   ∀ fuel, (length results + 3 ≤ fuel)%nat →
     ∃ value w',
       reduceBatchResults invokeAgent fuel results options w = Some (Fulfilled value, w')
       ∧ Z.of_nat (String.length value) ≤ 29000
       ∧ (length (asked w') ≤ length (asked w) + Nat.max 1 (length results))%nat)
  ∧ ((length results ≤ 20)%nat → tooLarge (reduceConcatenate results) = true →
     ∀ fuel, reduceBatchResults invokeAgent fuel results options w = None).
Proof.
  intros Hbrief Hstrategy. unfold reduceBatchResults. split.
  - intros Hcase fuel Hfuel. destruct Hstrategy as [-> | ->].
    + by apply summarize_ends.
    + apply (hierarchical_ends invokeAgent options Hbrief (length results)); [lia|done|lia].
  - intros Hfew Hlarge fuel.
    destruct (reducers_bounce invokeAgent options results Hfew Hlarge fuel 0%nat w)
      as [Hs Hh].
    by destruct Hstrategy as [-> | ->].
Qed.

Lemma reduction_ends_iff_witness :
  ∃ value w',
    reduceBatchResults (constantWorker "ok") 48 (replicate 45 "r")
      (Reducer.mkOptions (Some hierarchical) None "task") (mkWorld tt [])
    = Some (Fulfilled value, w')
    ∧ Z.of_nat (String.length value) ≤ 29000
    ∧ (length (asked w') ≤ 45)%nat.
Proof.
  destruct (reduction_ends_iff (constantWorker "ok")
              (Reducer.mkOptions (Some hierarchical) None "task") (replicate 45 "r")
              (mkWorld tt [])) as [Hends _].
  - intros w prompt. exists "ok". split; [reflexivity|simpl; lia].
  - by right.
  - destruct (Hends ltac:(left; simpl; lia) 48%nat ltac:(simpl; lia))
      as (value & w' & Hrun & Hv & Hasked).
    by exists value, w'.
Defined.

(** ** A message with nothing to extract *)








